(** * Minipack: a shallow embedding of the bundler and its runtime loader

    The development follows [src/minipack.js]: [createAsset] extracts one
    file, [createGraph] walks the queue of assets, [bundle] prints the
    self-invoking function, and the loader printed by [bundle] is embedded
    as [require].  The recursive bundler of the repository,
    [createDependencyGraph], is embedded next to it.

    Node's [fs] and [path] modules, Babel's parser and transformer and
    [JSON.stringify] are services of the host: they are the fields of the
    class [Host], and every general statement holds for all hosts.  A
    host is a family of functions: the files do not change while the
    program runs.

    The module-level counter [ID] is threaded through the functions that
    use it.  Ids are natural numbers.  Loops and recursion that need not
    end take fuel: a call that is [OutOfFuel] for every amount of fuel
    does not return (the exhaustion of memory or of the call stack is not
    part of the model). *)

From Stdlib Require Import String Ascii List Arith NArith Lia Bool DecimalString.
From Stdlib Require DecimalNat DecimalFacts.
From stdpp Require Import base option list strings relations.
Import ListNotations.
Local Open Scope string_scope.
Local Open Scope list_scope.
Set Warnings "-register-all".

(** ** Outcomes: a value, a thrown exception, or fuel exhausted *)

(** The exceptions the program can raise, named by the call that threw.
    [ReadError path] is the exception of the call
    [fs.readFileSync(path)], whatever its cause; what the exception
    object itself holds is the host's matter (for a missing file it holds
    the path, for a directory it holds none).  The parser and the
    transformer raise their own errors; [require.resolve] raises when the
    module cannot be found; babel-traverse raises a [TypeError] on a tree
    whose scopes it cannot build, and the loader raises one when it
    destructures [undefined] or uses a property of [undefined];
    [Thrown] is an exception the code of a module throws. *)
Inductive error : Type :=
  | ReadError (path : string)
  | ParseError
  | TransformError
  | ResolutionError (path : string)
  | TypeError
  | Thrown.

Inductive outcome (A : Type) : Type :=
  | Done (a : A)
  | Throw (e : error)
  | OutOfFuel.
Arguments Done {A} a.
Arguments Throw {A} e.
Arguments OutOfFuel {A}.

#[global] Instance outcome_ret : MRet outcome := fun A a => Done a.
#[global] Instance outcome_bind : MBind outcome := fun A B f m =>
  match m with
  | Done a => f a
  | Throw e => Throw e
  | OutOfFuel => OutOfFuel
  end.

(** A host service that returns [None] throws. *)
Definition orThrow {A} (e : error) (o : option A) : outcome A :=
  match o with
  | Some a => Done a
  | None => Throw e
  end.

(** [xs.forEach(x => body)] over a state [S], stopping at the first
    exception. *)
Fixpoint forEach {A S} (body : A -> S -> outcome S) (xs : list A) (s : S)
  : outcome S :=
  match xs with
  | [] => Done s
  | x :: xs' => s' ← body x s; forEach body xs' s'
  end.

(** ** The syntax tree and Babel's [traverse] *)

(** The node kinds the visitors look at, and one constructor for every
    other kind with its children in traversal order.  An import
    declaration exposes [node.source.value]; a call exposes its callee and
    its arguments. *)
Inductive node : Type :=
  | ImportDeclaration (source : string)
  | CallExpression (callee : node) (arguments : list node)
  | Identifier (name : string)
  | StringLiteral (value : string)
  | OtherNode (children : list node).

(** Entering a node: the visitor is called on it, then its children are
    entered, callee before arguments, children in order.  The visitor's
    effect is a change of the [dependencies] array. *)
Fixpoint visit (visitor : node -> list string -> list string)
    (n : node) (deps : list string) : list string :=
  let deps := visitor n deps in
  match n with
  | CallExpression callee args =>
      fold_left (fun d a => visit visitor a d) args
                (visit visitor callee deps)
  | OtherNode children =>
      fold_left (fun d a => visit visitor a d) children deps
  | _ => deps
  end.

(** The children of a node, in the order they are entered. *)
Definition node_children (n : node) : list node :=
  match n with
  | CallExpression callee args => callee :: args
  | OtherNode children => children
  | _ => []
  end.

(** What the visitor has done once every node is entered: the children
    of the tree are entered, not the tree itself (which is the [File]
    node of the parser). *)
Definition visit_all (visitor : node -> list string -> list string)
    (ast : node) (deps : list string) : list string :=
  fold_left (fun d a => visit visitor a d) (node_children ast) deps.

(** The nodes below [n], [n] first, in the order they are entered.  The
    children of an import declaration (its specifiers and its source
    literal) hold no import declaration and no call; they are left out. *)
Fixpoint preorder (n : node) : list node :=
  n :: match n with
       | CallExpression callee args =>
           preorder callee ++ flat_map preorder args
       | OtherNode children => flat_map preorder children
       | _ => []
       end.

(** The nodes [traverse] enters, in order. *)
Definition entered (ast : node) : list node :=
  flat_map preorder (node_children ast).

(** The visitor of [createAsset] (src/minipack.js, lines 64-73): only
    [ImportDeclaration] has a handler. *)
Definition createAsset_visitor (n : node) (dependencies : list string)
  : list string :=
  match n with
  | ImportDeclaration source => dependencies ++ [source]
  | _ => dependencies
  end.

(** [node.callee.name === 'require' && node.arguments.length === 1 &&
    node.arguments[0].type === 'StringLiteral'], with the literal's value
    when the test holds. *)
Definition isRequire (callee : node) (args : list node) : option string :=
  match callee, args with
  | Identifier name, [StringLiteral value] =>
      if String.eqb name "require" then Some value else None
  | _, _ => None
  end.

(** The visitor of [createDependencyGraph]: import declarations and calls
    that look like [require('...')]. *)
Definition createDependencyGraph_visitor (n : node)
    (dependencies : list string) : list string :=
  match n with
  | ImportDeclaration source => dependencies ++ [source]
  | CallExpression callee args =>
      match isRequire callee args with
      | Some value => dependencies ++ [value]
      | None => dependencies
      end
  | _ => dependencies
  end.

(** What the specification asks the extractor to collect from one node:
    the specifier of a static import, or the argument of a call to
    [require] with exactly one string literal. *)
Definition spec_specifier (n : node) : list string :=
  match n with
  | ImportDeclaration source => [source]
  | CallExpression (Identifier name) [StringLiteral value] =>
      if String.eqb name "require" then [value] else []
  | _ => []
  end.

(** The specification's collection: every such specifier, in source
    appearance order. *)
Definition spec_collect (ast : node) : list string :=
  flat_map spec_specifier (entered ast).

(** The static imports alone. *)
Definition import_specifier (n : node) : list string :=
  match n with
  | ImportDeclaration source => [source]
  | _ => []
  end.

(** ** The host *)

(** A JavaScript object used as a map: its properties in the order they
    were created; an assignment to an existing key keeps its place. *)
Abbreviation jsobject V := (list (string * V)).

Fixpoint obj_set {V} (k : string) (v : V) (o : jsobject V) : jsobject V :=
  match o with
  | [] => [(k, v)]
  | (k', v') :: o' =>
      if String.eqb k k' then (k, v) :: o' else (k', v') :: obj_set k v o'
  end.

Fixpoint obj_get {V} (k : string) (o : jsobject V) : option V :=
  match o with
  | [] => None
  | (k', v') :: o' => if String.eqb k k' then Some v' else obj_get k o'
  end.

(** [o[k] = v], an assignment (as opposed to a property of an object
    literal or of a spread): the key [__proto__] is the accessor of
    [Object.prototype], and assigning to it creates no property. *)
Definition obj_assign {V} (k : string) (v : V) (o : jsobject V) : jsobject V :=
  if String.eqb k "__proto__" then o else obj_set k v o.

(** A mapping from specifiers to ids. *)
Abbreviation object := (jsobject nat).

Class Host : Type := {
  (** [fs.readFileSync(filename, 'utf-8')]; [None] when it throws. *)
  readFileSync : string -> option string;
  (** [babylon.parse(content, {sourceType: 'module'})]. *)
  babylon_parse : string -> option node;
  (** Whether babel-traverse can build the scopes of the tree: it does so
      before a visitor is called, and throws a [TypeError] when the tree
      declares a name twice in one scope. *)
  traverse_scope : node -> bool;
  (** [transformFromAst(ast, null, {presets: ['env']}).code]. *)
  transformFromAst : node -> option string;
  (** [path.dirname] and [path.join]. *)
  path_dirname : string -> string;
  path_join : string -> string -> string;
  (** [resolveFrom(context, filename)] of [utils]:
      [require.resolve(path.resolve(context, filename))]. *)
  resolveFrom : string -> string -> option string;
  (** [JSON.stringify] of a mapping ([None] is [undefined]). *)
  JSON_stringify : option object -> string;
}.

(** ** Assets *)

Record asset : Type := mkAsset {
  id : nat;
  filename : string;
  dependencies : list string;
  code : string;
  (** [None] until the loop of [createGraph] sets [asset.mapping = {}]. *)
  mapping : option object;
}.

(** [asset.mapping = m] *)
Definition set_mapping (m : option object) (a : asset) : asset :=
  mkAsset (id a) (filename a) (dependencies a) (code a) m.

(** [asset.mapping[relativePath] = childId]; the loop has set
    [asset.mapping] to an object before (on [undefined] the assignment
    would throw, which the loop never reaches). *)
Definition mapping_assign (relativePath : string) (childId : nat)
    (a : asset) : asset :=
  set_mapping
    (Some (obj_assign relativePath childId (default [] (mapping a)))) a.

Section Bundler.

Context `{host : Host}.

(** [traverse(ast, visitor)], for a visitor that changes the array
    [dependencies]: the scopes are built, which may throw, then the
    nodes are entered. *)
Definition traverse (visitor : node -> list string -> list string)
    (ast : node) (dependencies : list string) : outcome (list string) :=
  if traverse_scope ast then Done (visit_all visitor ast dependencies)
  else Throw TypeError.

(** The part of [createAsset] that does not touch the counter: read,
    parse, collect the dependencies, transform. *)
Definition extract (file : string) : outcome (list string * string) :=
  content ← orThrow (ReadError file) (readFileSync file);
  ast ← orThrow ParseError (babylon_parse content);
  dependencies ← traverse createAsset_visitor ast [];
  code ← orThrow TransformError (transformFromAst ast);
  mret (dependencies, code).

(** [createAsset(filename)], with the module-level counter [ID] passed in
    and returned.  [const id = ID++] runs after the traversal and before
    the transformation. *)
Definition createAsset (file : string) (ID : nat) : outcome (asset * nat) :=
  content ← orThrow (ReadError file) (readFileSync file);
  ast ← orThrow ParseError (babylon_parse content);
  dependencies ← traverse createAsset_visitor ast [];
  let id := ID in
  let ID := S ID in
  code ← orThrow TransformError (transformFromAst ast);
  mret (mkAsset id file dependencies code None, ID).

(** The state of the loop of [createGraph]: the counter and the queue.
    The asset under iteration is [queue[i]]; it is the same object as the
    one in the queue, so its mutations are updates of the queue at [i]. *)
Definition gstate : Type := nat * list asset.

(** The body of [asset.dependencies.forEach(relativePath => ...)]. *)
Definition forEach_body (i : nat) (dirname : string) (relativePath : string)
    (s : gstate) : outcome gstate :=
  let '(ID, queue) := s in
  let absolutePath := path_join dirname relativePath in
  '(child, ID) ← createAsset absolutePath ID;
  let queue := alter (mapping_assign relativePath (id child)) i queue in
  let queue := queue ++ [child] in
  mret (ID, queue).

(** The body of [for (const asset of queue)]. *)
Definition for_body (i : nat) (a : asset) (s : gstate) : outcome gstate :=
  let '(ID, queue) := s in
  let queue := alter (set_mapping (Some [])) i queue in
  let dirname := path_dirname (filename a) in
  forEach (forEach_body i dirname) (dependencies a) (ID, queue).

(** [for (const asset of queue)]: the array iterator reads [queue[i]] for
    [i = 0, 1, ...] and stops when [i] reaches the current length. *)
Fixpoint for_of (fuel : nat) (i : nat) (s : gstate) : outcome gstate :=
  match fuel with
  | 0 => OutOfFuel
  | S fuel' =>
      match s.2 !! i with
      | None => Done s
      | Some a => s' ← for_body i a s; for_of fuel' (S i) s'
      end
  end.

(** [createGraph(entry)]: returns the queue, and the counter it leaves. *)
Definition createGraph (fuel : nat) (entry : string) (ID : nat)
  : outcome (list asset * nat) :=
  '(mainAsset, ID) ← createAsset entry ID;
  let queue := [mainAsset] in
  '(ID, queue) ← for_of fuel 0 (ID, queue);
  mret (queue, ID).

End Bundler.

(** ** The bundle text *)

(** The line feed of the template literals. *)
Definition nl : string := String "010" EmptyString.

(** [`${n}`] for a counter value. *)
Definition string_of_nat (n : nat) : string :=
  DecimalString.NilZero.string_of_uint (Nat.to_uint n).

(** The lines of a text, joined by line feeds. *)
Definition unlines (ls : list string) : string := String.concat nl ls.

(** The text before [${modules}] in the template of [result]
    (src/minipack.js, lines 222-239). *)
Definition loader_text : string := unlines [
  "";
  "    (function(modules) {";
  "      function require(id) {";
  "        const [fn, mapping] = modules[id];";
  "";
  "        function localRequire(name) {";
  "          return require(mapping[name]);";
  "        }";
  "";
  "        const module = { exports : {} };";
  "";
  "        fn(localRequire, module, module.exports);";
  "";
  "        return module.exports;";
  "      }";
  "";
  "      require(0);";
  "    })({" ].

(** The text after [${modules}]. *)
Definition closing_text : string := unlines [ "})"; "  " ].

(** One entry of the registry as the specification describes it: the key,
    the code wrapped in a function of [(require, module, exports)], and
    the serialized mapping. *)
Definition registry_entry (key body mapping_json : string) : string :=
  unlines [
    key +:+ ": [";
    "      function (require, module, exports) {";
    "        " +:+ body;
    "      },";
    "      " +:+ mapping_json +:+ ",";
    "    ]," ].

(** The strings of a list, one after the other. *)
Definition join_all (ls : list string) : string := foldr String.append "" ls.

Section Bundle.

Context `{host : Host}.

(** [bundle(graph)]: [graph.forEach] appends one entry per module to
    [modules], then the template of [result] is filled in. *)
Definition bundle (graph : list asset) : string :=
  let modules :=
    fold_left (fun modules mod_ =>
      modules +:+
        (string_of_nat (id mod_) +:+ ": [" +:+ nl +:+
         "      function (require, module, exports) {" +:+ nl +:+
         "        " +:+ code mod_ +:+ nl +:+
         "      }," +:+ nl +:+
         "      " +:+ JSON_stringify (mapping mod_) +:+ "," +:+ nl +:+
         "    ],"))
      graph "" in
  loader_text +:+ modules +:+ closing_text.

(** The last three statements of the file, for an entry: build the graph,
    build the bundle, print it.  The outcome carries what [console.log]
    prints. *)
Definition main (fuel : nat) (entry : string) (ID : nat) : outcome string :=
  '(graph, _) ← createGraph fuel entry ID;
  let result := bundle graph in
  mret result.

(** The script as it stands: the counter is 0 when the module is loaded
    and the entry is [./example/entry.js]. *)
Definition script (fuel : nat) : outcome string :=
  let ID := 0 in
  main fuel "./example/entry.js" ID.

End Bundle.

(** The number of places where [pat] occurs in [s]. *)
Fixpoint occurrences (pat s : string) : nat :=
  (if String.prefix pat s then 1 else 0) +
  match s with
  | EmptyString => 0
  | String _ s' => occurrences pat s'
  end.

(** [s] ends with [suffix]. *)
Definition ends_with (suffix s : string) : bool :=
  String.prefix (String.rev suffix) (String.rev s).

(** ** The runtime loader printed by [bundle] *)

(** Values of the running bundle, and the store of its objects. *)
Inductive value : Type :=
  | VUndefined
  | VNumber (n : nat)
  | VObject (address : nat).

(** What the function of a module does with its three parameters.  The
    code calls [require], reads and writes properties of the values it
    holds (its parameters [module] and [exports], results of [require],
    objects it has built), builds objects, throws, or never ends.  The
    result of a call or of a read is handed to the rest of the code,
    which may branch on it.  The code is strict, as the transformer
    prints it: writing a property of a value that is no object throws.
    Two things are left out: values are [undefined], numbers and objects
    (no module hands a function to another), and exceptions are not
    caught (there is no [try] statement). *)
Inductive jscode : Type :=
  | CReturn                                         (* the body ends *)
  | CThrow                                          (* throw ...; *)
  | CLoop                                           (* while (true) {} *)
  | CRequire (name : string) (rest : value -> jscode) (* require(name) *)
  | CGet (o : value) (key : string) (rest : value -> jscode) (* o.key *)
  | CSet (o : value) (key : string) (v : value) (rest : jscode)
                                                    (* o.key = v; *)
  | CNew (rest : value -> jscode)                     (* {} *).

(** The function of a module, over its parameters [module] and
    [exports]; its parameter [require] is the call [CRequire]. *)
Definition module_function : Type := value -> value -> jscode.

Record rstate : Type := mkRstate {
  (** the objects allocated so far; an address is an index *)
  heap : list (jsobject value);
  (** the ids whose function was called, in call order *)
  trace : list nat;
}.

(** A new object gets the next address. *)
Definition alloc (o : jsobject value) (st : rstate) : nat * rstate :=
  (length (heap st), mkRstate (heap st ++ [o]) (trace st)).

(** [object.k = v] *)
Definition store (address : nat) (k : string) (v : value) (st : rstate)
  : rstate :=
  mkRstate (alter (obj_assign k v) address (heap st)) (trace st).

(** [object.k]; a missing property reads [undefined]. *)
Definition load (address : nat) (k : string) (st : rstate) : value :=
  default VUndefined (heap st !! address ≫= obj_get k).

(** The function of module [n] is called: a note in the trace, which the
    program itself does not read. *)
Definition called (n : nat) (st : rstate) : rstate :=
  mkRstate (heap st) (trace st ++ [n]).

(** The object literal [{${modules}}]: one property per entry, keyed by
    the module's id; a key written twice keeps its last value. *)
Definition registry : Type := list (nat * (module_function * option object)).

(** [modules[n]] *)
Definition modules_get (modules : registry) (n : nat)
  : option (module_function * option object) :=
  fold_left (fun found entry => if Nat.eqb entry.1 n then Some entry.2 else found)
            modules None.

(** Running the body of a module's function; [require] is the
    [localRequire] the loader passed. *)
Fixpoint run_body (require : string -> rstate -> outcome (value * rstate))
    (body : jscode) (st : rstate) : outcome rstate :=
  match body with
  | CReturn => Done st
  | CThrow => Throw Thrown
  | CLoop => OutOfFuel
  | CRequire name rest =>
      '(v, st) ← require name st; run_body require (rest v) st
  | CGet o key rest =>
      match o with
      | VObject address => run_body require (rest (load address key st)) st
      | VNumber _ => run_body require (rest VUndefined) st
      | VUndefined => Throw TypeError
      end
  | CSet o key v rest =>
      match o with
      | VObject address => run_body require rest (store address key v st)
      | _ => Throw TypeError
      end
  | CNew rest =>
      let '(address, st) := alloc [] st in
      run_body require (rest (VObject address)) st
  end.

(** [function require(id)] of the loader (src/minipack.js, lines 224-236);
    [None] is [undefined]. *)
Fixpoint require (fuel : nat) (modules : registry) (id : option nat)
    (st : rstate) : outcome (value * rstate) :=
  match fuel with
  | 0 => OutOfFuel
  | S fuel' =>
      (* const [fn, mapping] = modules[id]; *)
      n ← orThrow TypeError id;
      '(fn, mapping) ← orThrow TypeError (modules_get modules n);
      (* function localRequire(name) { return require(mapping[name]); } *)
      let localRequire := fun name st =>
        m ← orThrow TypeError mapping;
        require fuel' modules (obj_get name m) st in
      (* const module = { exports : {} }; *)
      let '(exports, st) := alloc [] st in
      let '(module, st) := alloc [("exports", VObject exports)] st in
      (* fn(localRequire, module, module.exports); *)
      st ← run_body localRequire
             (fn (VObject module) (load module "exports" st)) (called n st);
      (* return module.exports; *)
      mret (load module "exports" st, st)
  end.

Section Runtime.

Context `{host : Host}.

(** How the engine that loads the bundle reads a module's code. *)
Variable engine : string -> module_function.

(** The registry the bundle of [graph] passes to its function. *)
Definition modules_of (graph : list asset) : registry :=
  (fun mod_ => (id mod_, (engine (code mod_), mapping mod_))) <$> graph.

(** Loading the bundle: the function is applied to the registry and its
    last statement is [require(0)]. *)
Definition run_bundle (fuel : nat) (graph : list asset)
  : outcome (value * rstate) :=
  require fuel (modules_of graph) (Some 0) (mkRstate [] []).

End Runtime.

(** ** The recursive bundler: [createDependencyGraph] *)

(** The order in which the engine lists the properties of an object: the
    keys that are array indices first, by value, then the other keys in
    the order they were created. *)
Definition digit (c : ascii) : option N :=
  let n := N_of_ascii c in
  if (48 <=? n)%N && (n <=? 57)%N then Some (n - 48)%N else None.

Fixpoint digits (s : string) (acc : N) : option N :=
  match s with
  | EmptyString => Some acc
  | String c s' => d ← digit c; digits s' (10 * acc + d)%N
  end.

Definition array_index (k : string) : option N :=
  match k with
  | EmptyString => None
  | String c rest =>
      if Ascii.eqb c "0" then
        (if String.eqb rest "" then Some 0%N else None)
      else
        n ← digits k 0%N;
        if (n <? 4294967295)%N then Some n else None
  end.

Fixpoint insert_by_index {V} (n : N) (kv : string * V)
    (l : list (N * (string * V))) : list (N * (string * V)) :=
  match l with
  | [] => [(n, kv)]
  | (n', kv') :: l' =>
      if (n <? n')%N then (n, kv) :: l
      else (n', kv') :: insert_by_index n kv l'
  end.

Definition own_entries {V} (o : jsobject V) : list (string * V) :=
  let indexed :=
    fold_left (fun acc kv =>
      match array_index kv.1 with
      | Some n => insert_by_index n kv acc
      | None => acc
      end) o [] in
  (snd <$> indexed) ++
  List.filter (fun kv => match array_index kv.1 with
                         | Some _ => false | None => true end) o.

(** [Object.values(o)] *)
Definition Object_values {V} (o : jsobject V) : list V := snd <$> own_entries o.

(** [{...acc, ...result}] *)
Definition spread {V} (acc result : jsobject V) : jsobject V :=
  fold_left (fun o kv => obj_set kv.1 kv.2 o) (own_entries result) acc.

Module DependencyGraph.

(** The value stored in the graph under a file name. *)
Record info : Type := mkInfo {
  id : nat;
  ast : node;
  content : string;
  (** relative path to absolute path *)
  dependencies : jsobject string;
}.

Section WithHost.

Context `{host : Host}.

(** [createDependencyGraph(filename)], with the module-level counter [id]
    passed in and returned; every recursive call takes one unit of fuel. *)
Fixpoint createDependencyGraph (fuel : nat) (filename : string) (counter : nat)
  : outcome (jsobject info * nat) :=
  match fuel with
  | 0 => OutOfFuel
  | S fuel' =>
      content ← orThrow (ReadError filename) (readFileSync filename);
      ast ← orThrow ParseError (babylon_parse content);
      collected ← traverse createDependencyGraph_visitor ast [];
      (* id: id++ *)
      let this_id := counter in
      let counter := S counter in
      (* dependencies: dependencies.reduce(..., {}) *)
      resolved ← forEach (fun relativeFilename acc =>
          fullFilename ← orThrow (ResolutionError relativeFilename)
            (resolveFrom (path_dirname filename) relativeFilename);
          mret (obj_set relativeFilename fullFilename acc))
        collected [];
      let initial := [(filename, mkInfo this_id ast content resolved)] in
      (* Object.values(initial[filename].dependencies).reduce(..., initial) *)
      forEach (fun fullFilename '(acc, counter) =>
          '(result, counter) ← createDependencyGraph fuel' fullFilename counter;
          mret (spread acc result, counter))
        (Object_values resolved) (initial, counter)
  end.

End WithHost.

End DependencyGraph.

(** ** A concrete host for the examples *)

(** Node's [path.dirname] and [path.join] on POSIX, after
    [lib/path.js]. *)
Module posix.

Definition slash : ascii := "/"%char.

(** The segments of a path between slashes. *)
Fixpoint split (s : string) : list string :=
  match s with
  | EmptyString => [EmptyString]
  | String c s' =>
      if Ascii.eqb c slash then EmptyString :: split s'
      else match split s' with
           | seg :: segs => String c seg :: segs
           | [] => [String c EmptyString]
           end
  end.

(** [normalizeString]: empty segments and [.] are dropped, [..] removes
    the segment before it; [stack] holds the kept segments, last first. *)
Fixpoint normalizeString (allowAboveRoot : bool) (segs stack : list string)
  : list string :=
  match segs with
  | [] => rev stack
  | seg :: segs' =>
      if String.eqb seg "" || String.eqb seg "." then
        normalizeString allowAboveRoot segs' stack
      else if String.eqb seg ".." then
        match stack with
        | top :: stack' =>
            if String.eqb top ".." then
              normalizeString allowAboveRoot segs'
                (if allowAboveRoot then ".." :: stack else stack)
            else normalizeString allowAboveRoot segs' stack'
        | [] =>
            normalizeString allowAboveRoot segs'
              (if allowAboveRoot then [".."] else [])
        end
      else normalizeString allowAboveRoot segs' (seg :: stack)
  end.

Definition last_char (s : string) : option ascii :=
  match String.rev s with
  | String c _ => Some c
  | EmptyString => None
  end.

Definition starts_with_slash (s : string) : bool :=
  match s with
  | String c _ => Ascii.eqb c slash
  | EmptyString => false
  end.

Definition normalize (path : string) : string :=
  if String.eqb path "" then "."
  else
    let isAbsolute := starts_with_slash path in
    let trailingSeparator :=
      match last_char path with
      | Some c => Ascii.eqb c slash
      | None => false
      end in
    let path := String.concat "/" (normalizeString (negb isAbsolute) (split path) []) in
    let path := if String.eqb path "" && negb isAbsolute then "." else path in
    let path := if negb (String.eqb path "") && trailingSeparator
                then path +:+ "/" else path in
    if isAbsolute then "/" +:+ path else path.

(** [path.join(a, b)]: the non-empty arguments joined by a slash, then
    normalized. *)
Definition join (a b : string) : string :=
  let joined :=
    if String.eqb a "" then b
    else if String.eqb b "" then a
    else a +:+ "/" +:+ b in
  if String.eqb joined "" then "." else normalize joined.

(** [path.resolve(a, b)] in the working directory [cwd], an absolute
    path: the arguments are put before the path from the right until it
    is absolute, [cwd] after them if it still is not; the result is
    normalized and has no slash at its end. *)
Definition resolve (cwd a b : string) : string :=
  let step (path : string) (acc : string * bool) : string * bool :=
    if acc.2 || String.eqb path "" then acc
    else (path +:+ "/" +:+ acc.1, starts_with_slash path) in
  let resolved := step cwd (step a (step b ("", false))) in
  "/" +:+ String.concat "/" (normalizeString false (split resolved.1) []).

Fixpoint drop_while (p : ascii -> bool) (l : list ascii) : list ascii :=
  match l with
  | c :: l' => if p c then drop_while p l' else l
  | [] => []
  end.

(** [path.dirname(path)]: the text before the slash that precedes the last
    segment; the scan runs from the end down to index 1. *)
Definition dirname (path : string) : string :=
  match list_ascii_of_string path with
  | [] => "."
  | first :: rest =>
      let hasRoot := Ascii.eqb first slash in
      let scan := drop_while (fun c => negb (Ascii.eqb c slash))
                    (drop_while (fun c => Ascii.eqb c slash) (rev rest)) in
      match scan with
      | [] => if hasRoot then "/" else "."
      | _ :: before =>
          if hasRoot && Nat.eqb (length before) 0 then "//"
          else string_of_list_ascii (first :: rev before)
      end
  end.

End posix.

(** A file system given as a table: for each file its content and the
    tree the parser builds from it ([None] when the parser rejects it). *)
Definition files : Type := list (string * (string * option node)).

Definition file_content (fs : files) (file : string) : option string :=
  (fun e => e.2.1) <$> find (fun e => String.eqb e.1 file) fs.

Definition file_parse (fs : files) (content : string) : option node :=
  find (fun e => String.eqb e.2.1 content) fs ≫= (fun e => e.2.2).

(** The example transformer prints the [require] calls of the imports and
    ignores the rest of the tree. *)
Definition example_transform (ast : node) : option string :=
  Some (String.concat ""
    (map (fun s => "require('" +:+ s +:+ "');")
         (flat_map import_specifier (entered ast)))).

Definition quote : string := String "034" EmptyString.

(** [JSON.stringify] on mappings whose keys need no escaping: the
    properties in the order the engine lists them. *)
Definition example_stringify (m : option object) : string :=
  match m with
  | None => "undefined"
  | Some o =>
      "{" +:+ String.concat ","
        (map (fun kv => quote +:+ kv.1 +:+ quote +:+ ":" +:+ string_of_nat kv.2)
             (own_entries o))
      +:+ "}"
  end.

(** The working directory of the examples. *)
Definition example_cwd : string := "/app".

(** The host of the examples.  Its [resolveFrom] makes the path absolute
    and finds the file of that very name (it tries no extension). *)
Definition example_host (fs : files) : Host := {|
  readFileSync := file_content fs;
  babylon_parse := file_parse fs;
  traverse_scope := fun _ => true;
  transformFromAst := example_transform;
  path_dirname := posix.dirname;
  path_join := posix.join;
  resolveFrom := fun context file =>
    let full := posix.resolve example_cwd context file in
    match file_content fs full with Some _ => Some full | None => None end;
  JSON_stringify := example_stringify;
|}.

(** The tree of a file: the [File] node, the [Program] node in it, and
    the top-level statements in that. *)
Definition File (body : list node) : node := OtherNode [OtherNode body].

(** The diamond: the entry imports [./x] and [./y], both import [./z]. *)
Definition diamond : files := [
  ("./example/entry.js",
     ("import x from './x'; import y from './y';",
      Some (File [ImportDeclaration "./x"; ImportDeclaration "./y"])));
  ("example/x",
     ("import z from './z'; export default 1;",
      Some (File [ImportDeclaration "./z"; OtherNode []])));
  ("example/y",
     ("import z from './z'; export default 2;",
      Some (File [ImportDeclaration "./z"; OtherNode []])));
  ("example/z", ("export default 3;", Some (File [OtherNode []]))) ].

(** The diamond again, under the absolute paths [resolveFrom] returns. *)
Definition diamond_app : files := [
  ("/app/example/entry.js",
     ("import x from './x'; import y from './y';",
      Some (File [ImportDeclaration "./x"; ImportDeclaration "./y"])));
  ("/app/example/x",
     ("import z from './z'; export default 1;",
      Some (File [ImportDeclaration "./z"; OtherNode []])));
  ("/app/example/y",
     ("import z from './z'; export default 2;",
      Some (File [ImportDeclaration "./z"; OtherNode []])));
  ("/app/example/z", ("export default 3;", Some (File [OtherNode []]))) ].

(** A host whose tree walker rejects every tree. *)
Definition rejecting_host (fs : files) : Host := {|
  readFileSync := file_content fs;
  babylon_parse := file_parse fs;
  traverse_scope := fun _ => false;
  transformFromAst := example_transform;
  path_dirname := posix.dirname;
  path_join := posix.join;
  resolveFrom := fun context file =>
    let full := posix.resolve example_cwd context file in
    match file_content fs full with Some _ => Some full | None => None end;
  JSON_stringify := example_stringify;
|}.

(** The cycle: [a.js] imports [./b.js] and [b.js] imports [./a.js]. *)
Definition cycle : files := [
  ("/app/a.js",
     ("import b from './b.js';", Some (File [ImportDeclaration "./b.js"])));
  ("/app/b.js",
     ("import a from './a.js';", Some (File [ImportDeclaration "./a.js"]))) ].

(** Two spellings of one file: the entry imports [./z] and [./lib/../z]. *)
Definition aliases : files := [
  ("/app/entry.js",
     ("import z from './z'; import w from './lib/../z';",
      Some (File [ImportDeclaration "./z"; ImportDeclaration "./lib/../z"])));
  ("/app/z", ("export default 3;", Some (File [OtherNode []]))) ].

(** An entry whose import has no file. *)
Definition broken : files := [
  ("/app/entry.js",
     ("import m from './missing';",
      Some (File [ImportDeclaration "./missing"]))) ].

(** An entry that imports a file the parser rejects, then a file that
    does not exist. *)
Definition bad_then_missing : files := [
  ("/app/entry.js",
     ("import b from './bad'; import m from './missing';",
      Some (File [ImportDeclaration "./bad"; ImportDeclaration "./missing"])));
  ("/app/bad", ("let ;", None)) ].

(** [const b = require('./b'); import c from './c';] *)
Definition mixed_ast : node :=
  File [
    OtherNode [OtherNode [Identifier "b";
                          CallExpression (Identifier "require")
                                         [StringLiteral "./b"]]];
    ImportDeclaration "./c" ].

Definition mixed : files := [
  ("/app/entry.js",
     ("const b = require('./b'); import c from './c';", Some mixed_ast));
  ("/app/b", ("export default 1;", Some (File [OtherNode []])));
  ("/app/c", ("export default 2;", Some (File [OtherNode [Identifier "x"]]))) ].

(** An engine for the examples: the code of the example transformer is a
    sequence of [require('...');] statements. *)
Fixpoint example_engine_aux (fuel : nat) (s : string) : jscode :=
  match fuel with
  | 0 => CReturn
  | S fuel' =>
      if String.prefix "require('" s then
        let rest := String.substring 9 (String.length s - 9) s in
        match String.index 0 "');" rest with
        | Some n =>
            CRequire (String.substring 0 n rest)
              (fun _ =>
                 example_engine_aux fuel'
                   (String.substring (n + 3) (String.length rest - (n + 3))
                                     rest))
        | None => CReturn
        end
      else CReturn
  end.

Definition example_engine (s : string) : module_function :=
  fun module exports => example_engine_aux (String.length s) s.

(** ** Proof-side descriptions of the loop *)

Section Graph.

Context `{host : Host}.

(** The files the traversal can come to: the entry, and every import of a
    file that was extracted. *)
Inductive reach (entry : string) : string -> Prop :=
  | reach_entry : reach entry entry
  | reach_import file deps code d :
      reach entry file ->
      extract file = Done (deps, code) ->
      d ∈ deps ->
      reach entry (path_join (path_dirname file) d).

(** [imports file file']: the extraction of [file] finds an import that
    resolves to [file']. *)
Definition imports (file file' : string) : Prop :=
  exists deps code d,
    extract file = Done (deps, code) /\ d ∈ deps /\
    file' = path_join (path_dirname file) d.

(** The assets [forEach] creates for the imports [ds] of a file in
    directory [dir], the counter starting at [ID]. *)
Fixpoint children (dir : string) (ds : list string) (ID : nat)
  : outcome (list asset) :=
  match ds with
  | [] => Done []
  | d :: ds' =>
      '(deps, code) ← extract (path_join dir d);
      cs ← children dir ds' (S ID);
      mret (mkAsset ID (path_join dir d) deps code None :: cs)
  end.

(** The mapping after the assignments [m[d] = ID], [m[d'] = ID+1], ... *)
Fixpoint assign_all (ds : list string) (ID : nat) (m : object) : object :=
  match ds with
  | [] => m
  | d :: ds' => assign_all ds' (S ID) (obj_assign d ID m)
  end.

(** The position in the queue of the first child of the asset at [j]: one
    for the entry, plus the imports of the assets before [j]. *)
Definition offset (queue : list asset) (j : nat) : nat :=
  sum_list_with (fun a => length (dependencies a)) (take j queue) + 1.

(** The loop invariant of [for_of], for a build that started with the
    counter at [ID0]. *)
Record Inv (ID0 : nat) (entry : string) (i : nat) (s : gstate) : Prop := {
  inv_counter : s.1 = ID0 + length s.2;
  inv_asset : forall j a, s.2 !! j = Some a ->
      id a = ID0 + j /\ extract (filename a) = Done (dependencies a, code a);
  inv_entry : exists a, s.2 !! 0 = Some a /\ filename a = entry;
  inv_length : length s.2 = offset s.2 i;
  inv_done : forall j a, j < i -> s.2 !! j = Some a ->
      mapping a = Some (assign_all (dependencies a) (ID0 + offset s.2 j) []) /\
      forall k d, dependencies a !! k = Some d ->
        exists c, s.2 !! (offset s.2 j + k) = Some c /\
                  filename c = path_join (path_dirname (filename a)) d;
  inv_todo : forall j a, i <= j -> s.2 !! j = Some a -> mapping a = None;
  inv_reach : forall j a, s.2 !! j = Some a -> reach entry (filename a);
  inv_bound : i <= length s.2;
  inv_offset : forall j, j < i -> j < offset s.2 j;
}.

(** The states of the loop: [steps s0 i s] when [s] is the state after
    [i] rounds from [s0]. *)
Inductive steps (s0 : gstate) : nat -> gstate -> Prop :=
  | steps_O : steps s0 0 s0
  | steps_S i s a s' :
      steps s0 i s ->
      s.2 !! i = Some a ->
      for_body i a s = Done s' ->
      steps s0 (S i) s'.

(** [first_failure entry ID e]: the exception [e] is the first one the
    build of [entry] from the counter [ID] meets.  Either the extraction
    of the entry throws it, or [n] rounds of the loop go through and, in
    the round of the asset at [n], the imports before the [k]-th are
    extracted and the extraction of the [k]-th throws it. *)
Definition first_failure (entry : string) (ID : nat) (e : error) : Prop :=
  extract entry = Throw e \/
  exists deps code n s a k d,
    extract entry = Done (deps, code) /\
    steps (S ID, [mkAsset ID entry deps code None]) n s /\
    s.2 !! n = Some a /\
    dependencies a !! k = Some d /\
    (exists cs, children (path_dirname (filename a))
                  (take k (dependencies a)) s.1 = Done cs) /\
    extract (path_join (path_dirname (filename a)) d) = Throw e.

(** The number of assets the traversal creates below a file, counted to
    depth [r]. *)
Fixpoint cost (r : nat) (file : string) : nat :=
  match r with
  | 0 => 1
  | S r' =>
      match extract file with
      | Done (deps, _) =>
          1 + sum_list_with
                (fun d => cost r' (path_join (path_dirname file) d)) deps
      | _ => 1
      end
  end.

(** The import tree below [file] has fewer than [r] levels: no chain of
    imports from [file] is longer, so none runs into a cycle. *)
Fixpoint tree_depth_below (r : nat) (file : string) : bool :=
  match r with
  | 0 => false
  | S r' =>
      match extract file with
      | Done (deps, _) =>
          forallb (fun d => tree_depth_below r' (path_join (path_dirname file) d))
                  deps
      | _ => true
      end
  end.

(** A second build renumbers the assets: every id moves by [k]. *)
Definition shift (k : nat) (a : asset) : asset :=
  mkAsset (id a + k) (filename a) (dependencies a) (code a)
          (map (fun kv => (kv.1, kv.2 + k)) <$> mapping a).

End Graph.

(** ** Definitions used in the statements *)

(** The state of the loop after a second build has moved every id. *)
Definition shift_state (k : nat) (s : gstate) : gstate :=
  (s.1 + k, shift k <$> s.2).

(** The graph of the diamond, as [createGraph] builds it from a counter at
    0: the file [z] is extracted for [x] and again for [y]. *)
Definition diamond_graph : list asset := [
  mkAsset 0 "./example/entry.js" ["./x"; "./y"]
          "require('./x');require('./y');" (Some [("./x", 1); ("./y", 2)]);
  mkAsset 1 "example/x" ["./z"] "require('./z');" (Some [("./z", 3)]);
  mkAsset 2 "example/y" ["./z"] "require('./z');" (Some [("./z", 4)]);
  mkAsset 3 "example/z" [] "" (Some []);
  mkAsset 4 "example/z" [] "" (Some []) ].

(** The graph of [createGraph] for the diamond under absolute paths. *)
Definition diamond_app_graph : list asset := [
  mkAsset 0 "/app/example/entry.js" ["./x"; "./y"]
          "require('./x');require('./y');" (Some [("./x", 1); ("./y", 2)]);
  mkAsset 1 "/app/example/x" ["./z"] "require('./z');" (Some [("./z", 3)]);
  mkAsset 2 "/app/example/y" ["./z"] "require('./z');" (Some [("./z", 4)]);
  mkAsset 3 "/app/example/z" [] "" (Some []);
  mkAsset 4 "/app/example/z" [] "" (Some []) ].

(** The graph of the two spellings: one asset of [/app/z] for each. *)
Definition aliases_graph : list asset := [
  mkAsset 0 "/app/entry.js" ["./z"; "./lib/../z"]
          "require('./z');require('./lib/../z');"
          (Some [("./z", 1); ("./lib/../z", 2)]);
  mkAsset 1 "/app/z" [] "" (Some []);
  mkAsset 2 "/app/z" [] "" (Some []) ].

(** A registry with one module that exports a number. *)
Definition one_module : registry := [
  (0, (fun module exports => CSet exports "answer" (VNumber 42) CReturn,
       Some [])) ].


(** Two modules: the first requires the second and exports what it reads
    from it. *)
Definition chain : registry := [
  (0, (fun module exports =>
         CRequire "./b" (fun b =>
         CGet b "answer" (fun v =>
         CSet exports "answer" v CReturn)),
       Some [("./b", 1)]));
  (1, (fun module exports => CSet exports "answer" (VNumber 42) CReturn,
       Some [])) ].

Arguments offset : simpl never.
Arguments modules_get : simpl never.

(** ** The first bundler of the repository: [parseAsset] and [createGraph] *)

Module Earlier.

Section WithHost.

Context `{host : Host}.

(** [parseAsset(filename)]: as [createAsset], but [const id = ID++] runs
    before the traversal. *)
Definition parseAsset (file : string) (ID : nat) : outcome (asset * nat) :=
  content ← orThrow (ReadError file) (readFileSync file);
  ast ← orThrow ParseError (babylon_parse content);
  let id := ID in
  let ID := S ID in
  dependencies ← traverse createAsset_visitor ast [];
  code ← orThrow TransformError (transformFromAst ast);
  mret (mkAsset id file dependencies code None, ID).

(** The state of the loop: the counter, the queue, and [processedAssets].
    The loop pushes onto [processedAssets] the asset under iteration,
    which is the object at [queue[i]]: the array holds references, here
    the positions of the objects in the queue. *)
Definition pstate : Type := nat * list asset * list nat.

(** The body of [asset.dependencies.forEach(relativePath => ...)]. *)
Definition forEach_body (i : nat) (dirname : string) (relativePath : string)
    (s : gstate) : outcome gstate :=
  let '(ID, queue) := s in
  let absolutePath := path_join dirname relativePath in
  '(child, ID) ← parseAsset absolutePath ID;
  let queue := alter (mapping_assign relativePath (id child)) i queue in
  let queue := queue ++ [child] in
  mret (ID, queue).

Definition for_body (i : nat) (a : asset) (s : pstate) : outcome pstate :=
  let '(ID, queue, processedAssets) := s in
  let queue := alter (set_mapping (Some [])) i queue in
  let dirname := path_dirname (filename a) in
  '(ID, queue) ← forEach (forEach_body i dirname) (dependencies a) (ID, queue);
  let processedAssets := processedAssets ++ [i] in
  mret (ID, queue, processedAssets).

Fixpoint for_of (fuel : nat) (i : nat) (s : pstate) : outcome pstate :=
  match fuel with
  | 0 => OutOfFuel
  | S fuel' =>
      match s.1.2 !! i with
      | None => Done s
      | Some a => s' ← for_body i a s; for_of fuel' (S i) s'
      end
  end.

(** The objects an array of references stands for. *)
Definition objects_of (queue : list asset) (refs : list nat) : list asset :=
  omap (fun r => queue !! r) refs.

(** [createGraph(entry)] returns [processedAssets], an array of the
    objects as they are at the end. *)
Definition createGraph (fuel : nat) (entry : string) (ID : nat)
  : outcome (list asset * nat) :=
  '(mainAsset, ID) ← parseAsset entry ID;
  let queue := [mainAsset] in
  let processedAssets := [] in
  '(ID, queue, processedAssets) ← for_of fuel 0 (ID, queue, processedAssets);
  mret (objects_of queue processedAssets, ID).

End WithHost.

End Earlier.

(** ** The recursive bundler: from the graph to the bundle *)

(** [Object.keys(o)] *)
Definition Object_keys {V} (o : jsobject V) : list string := fst <$> own_entries o.

(** The text before [${modules}] in the template of [bundle] of the
    recursive bundler. *)
Definition pack_loader_text : string := unlines [
  "";
  "    (function(modules) {";
  "      function require(id) {";
  "        const [module, mapping] = modules[id];";
  "";
  "        function localRequire(name) {";
  "          return require(mapping[name]);";
  "        }";
  "";
  "        const localModule = { exports: {} };";
  "";
  "        module(localRequire, localModule, localModule.exports);";
  "";
  "        return localModule.exports;";
  "      }";
  "";
  "      require(0);";
  "    })({" ].

Section Pack.

Context `{host : Host}.

(** [transformFromAst(asset.ast, asset.content, {presets: ['es2015']}).code],
    a service of the host. *)
Variable transform_es2015 : node -> string -> option string.

(** [o[k]] where [k] was read from another object: [undefined] as a key
    is the string [undefined]. *)
Definition property_key (k : option string) : string := default "undefined" k.

(** The mapping of a module: for every relative path of its dependencies
    the id the graph holds for the absolute path.  Reading [.id] of
    [undefined], for a path the graph does not hold, throws.  (A path
    that is no property of the graph and names a property of
    [Object.prototype] would read that one; the graphs of
    [createDependencyGraph] hold every path the lookup is made for.) *)
Definition mapping_of (graph : jsobject DependencyGraph.info)
    (mod_ : DependencyGraph.info) : outcome object :=
  forEach (fun relativeFilename acc =>
      let fullFilename :=
        obj_get relativeFilename (DependencyGraph.dependencies mod_) in
      target ← orThrow TypeError (obj_get (property_key fullFilename) graph);
      mret (obj_set relativeFilename (DependencyGraph.id target) acc))
    (Object_keys (DependencyGraph.dependencies mod_)) [].

(** The first [Object.values(graph).forEach]: every asset gets its code.
    The assets are the objects the graph holds, so the second loop finds
    the code on them. *)
Definition transform_all (graph : jsobject DependencyGraph.info)
  : outcome (list (DependencyGraph.info * string)) :=
  forEach (fun asset coded =>
      code ← orThrow TransformError
        (transform_es2015 (DependencyGraph.ast asset)
                          (DependencyGraph.content asset));
      mret (coded ++ [(asset, code)]))
    (Object_values graph) [].

(** The second [Object.values(graph).forEach]: the text of the registry. *)
Definition modules_text (graph : jsobject DependencyGraph.info)
    (coded : list (DependencyGraph.info * string)) : outcome string :=
  forEach (fun mod_ modules =>
      mapping ← mapping_of graph mod_.1;
      mret (modules +:+ nl +:+
            "      " +:+ string_of_nat (DependencyGraph.id mod_.1) +:+ ": ["
              +:+ nl +:+
            "        function (require, module, exports) { " +:+ mod_.2
              +:+ " }," +:+ nl +:+
            "        " +:+ JSON_stringify (Some mapping) +:+ nl +:+
            "      ],"))
    coded "".

(** The function the module exports: from an entry to the bundle, with
    the counter [id] passed in and returned. *)
Definition pack (fuel : nat) (entry : string) (counter : nat)
  : outcome (string * nat) :=
  '(graph, counter) ← DependencyGraph.createDependencyGraph fuel entry counter;
  coded ← transform_all graph;
  modules ← modules_text graph coded;
  let bundle := pack_loader_text +:+ modules +:+ closing_text in
  mret (bundle, counter).



End Pack.


Section Resolves.

Context `{host : Host}.

(** [resolves file full]: the extractor of [createDependencyGraph] finds in
    [file] a specifier that [resolveFrom] takes to [full]. *)
Definition resolves (file full : string) : Prop :=
  exists content ast relativeFilename,
    readFileSync file = Some content /\
    babylon_parse content = Some ast /\
    traverse_scope ast = true /\
    relativeFilename ∈ spec_collect ast /\
    resolveFrom (path_dirname file) relativeFilename = Some full.

(** [describes file info]: [info] holds the content of [file], its tree,
    and for every specifier of the tree, and for nothing else, the path
    it resolves to. *)
Record describes (file : string) (info : DependencyGraph.info) : Prop := {
  d_content : readFileSync file = Some (DependencyGraph.content info);
  d_ast : babylon_parse (DependencyGraph.content info)
          = Some (DependencyGraph.ast info);
  d_scope : traverse_scope (DependencyGraph.ast info) = true;
  d_keys : NoDup (fst <$> DependencyGraph.dependencies info);
  d_deps : forall rel full,
      obj_get rel (DependencyGraph.dependencies info) = Some full <->
      rel ∈ spec_collect (DependencyGraph.ast info) /\
      resolveFrom (path_dirname file) rel = Some full;
  d_total : forall rel,
      rel ∈ spec_collect (DependencyGraph.ast info) ->
      is_Some (obj_get rel (DependencyGraph.dependencies info));
}.

(** A graph built between the counter values [c] and [c']: one entry per
    file, every entry describes its file and has its id between [c] and
    [c'], no two entries have the same id, and every dependency of an
    entry has an entry. *)
Record graph_ok (c : nat) (graph : jsobject DependencyGraph.info) (c' : nat)
  : Prop := {
  ok_keys : NoDup (fst <$> graph);
  ok_info : forall f info, obj_get f graph = Some info ->
      c <= DependencyGraph.id info < c' /\ describes f info;
  ok_ids : forall f1 f2 info1 info2,
      obj_get f1 graph = Some info1 -> obj_get f2 graph = Some info2 ->
      DependencyGraph.id info1 = DependencyGraph.id info2 -> f1 = f2;
  ok_closed : forall f info rel full,
      obj_get f graph = Some info ->
      obj_get rel (DependencyGraph.dependencies info) = Some full ->
      is_Some (obj_get full graph);
}.

(** The invariant of the loop over the dependencies of [file]:
    [remaining] are the paths still to visit, [acc] the graph so far. *)
Record Loop (c : nat) (file : string) (info0 : DependencyGraph.info)
    (remaining : list string) (acc : jsobject DependencyGraph.info)
    (cc : nat) : Prop := {
  l_keys : NoDup (fst <$> acc);
  l_info : forall f info, obj_get f acc = Some info ->
      c <= DependencyGraph.id info < cc /\ describes f info;
  l_ids : forall f1 f2 info1 info2,
      obj_get f1 acc = Some info1 -> obj_get f2 acc = Some info2 ->
      DependencyGraph.id info1 = DependencyGraph.id info2 -> f1 = f2;
  l_closed : forall f info rel full,
      obj_get f acc = Some info ->
      obj_get rel (DependencyGraph.dependencies info) = Some full ->
      is_Some (obj_get full acc) \/ (f = file /\ full ∈ remaining);
  l_reach : forall f, is_Some (obj_get f acc) -> rtc resolves file f;
  l_head : exists rest, acc = (file, info0) :: rest;
  l_counter : c < cc;
}.

End Resolves.

(** *** Descriptions of module code *)




(** Code that cannot get to its end without a call of [require] with a
    name of [P]. *)
Fixpoint must_require (P : string -> Prop) (body : jscode) : Prop :=
  match body with
  | CReturn => False
  | CThrow | CLoop => True
  | CRequire name rest => P name \/ forall v, must_require P (rest v)
  | CGet _ _ rest | CNew rest => forall v, must_require P (rest v)
  | CSet _ _ _ rest => must_require P rest
  end.

(** Code whose first call of [require] is with a name of [P], and that
    neither ends, nor throws an exception of its own, nor loops before
    it. *)
Fixpoint first_require (P : string -> Prop) (body : jscode) : Prop :=
  match body with
  | CReturn | CThrow | CLoop => False
  | CRequire name _ => P name
  | CGet _ _ rest | CNew rest => forall v, first_require P (rest v)
  | CSet _ _ _ rest => first_require P rest
  end.




(** The state the function of module [n] starts in: the new objects
    [exports] and [module] after the old ones, and the call noted. *)
Definition entered_state (n : nat) (st : rstate) : rstate :=
  mkRstate ((heap st ++ [[]]) ++ [[("exports", VObject (length (heap st)))]])
           (trace st ++ [n]).

(** One specifier imported twice: the entry imports [./z] two times. *)
Definition twice : files := [
  ("/app/entry.js",
     ("import z from './z'; import w from './z';",
      Some (File [ImportDeclaration "./z"; ImportDeclaration "./z"])));
  ("/app/z", ("export default 3;", Some (File [OtherNode []]))) ].

(** The graph of the import made twice: two assets of [/app/z], the
    mapping holds the second. *)
Definition twice_graph : list asset := [
  mkAsset 0 "/app/entry.js" ["./z"; "./z"] "require('./z');require('./z');"
          (Some [("./z", 2)]);
  mkAsset 1 "/app/z" [] "" (Some []);
  mkAsset 2 "/app/z" [] "" (Some []) ].

(** Two modules that require each other. *)
Definition two_cycle : registry := [
  (0, (fun module exports =>
         CSet exports "a" (VNumber 1) (CRequire "./b" (fun _ => CReturn)),
       Some [("./b", 1)]));
  (1, (fun module exports => CRequire "./a" (fun _ => CReturn),
       Some [("./a", 0)])) ].

(** The graph of the diamond, as [createDependencyGraph] builds it from
    a counter at 0: one entry for [z], with the id of the second visit. *)
Definition diamond_dependencies : jsobject DependencyGraph.info := [
  ("/app/example/entry.js",
   DependencyGraph.mkInfo 0
     (File [ImportDeclaration "./x"; ImportDeclaration "./y"])
     "import x from './x'; import y from './y';"
     [("./x", "/app/example/x"); ("./y", "/app/example/y")]);
  ("/app/example/x",
   DependencyGraph.mkInfo 1 (File [ImportDeclaration "./z"; OtherNode []])
     "import z from './z'; export default 1;" [("./z", "/app/example/z")]);
  ("/app/example/z",
   DependencyGraph.mkInfo 4 (File [OtherNode []]) "export default 3;" []);
  ("/app/example/y",
   DependencyGraph.mkInfo 3 (File [ImportDeclaration "./z"; OtherNode []])
     "import z from './z'; export default 2;" [("./z", "/app/example/z")]) ].

(** The graph of the two spellings: one entry for [/app/z]. *)
Definition aliases_entry : DependencyGraph.info :=
  DependencyGraph.mkInfo 0
    (File [ImportDeclaration "./z"; ImportDeclaration "./lib/../z"])
    "import z from './z'; import w from './lib/../z';"
    [("./z", "/app/z"); ("./lib/../z", "/app/z")].

Definition aliases_dependencies : jsobject DependencyGraph.info := [
  ("/app/entry.js", aliases_entry);
  ("/app/z",
   DependencyGraph.mkInfo 2 (File [OtherNode []]) "export default 3;" []) ].

(** The transformer of the examples, for the recursive bundler. *)
Definition example_transform_es2015 (ast : node) (content : string)
  : option string :=
  example_transform ast.

(** * Properties *)

(** ** The outcome monad *)

Lemma bind_Done {A B} (f : A -> outcome B) (m : outcome A) (b : B) :
  m ≫= f = Done b -> exists a, m = Done a /\ f a = Done b.
Proof. destruct m as [a| |]; simpl; intros H; try discriminate; eauto. Qed.

Lemma bind_Throw {A B} (f : A -> outcome B) (m : outcome A) (e : error) :
  m ≫= f = Throw e -> m = Throw e \/ exists a, m = Done a /\ f a = Throw e.
Proof.
  destruct m as [a|e'|]; simpl; intros H; try discriminate; [eauto|].
  left. congruence.
Qed.

Lemma bind_OutOfFuel {A B} (f : A -> outcome B) (m : outcome A) :
  m ≫= f = OutOfFuel -> m = OutOfFuel \/ exists a, m = Done a /\ f a = OutOfFuel.
Proof. destruct m as [a| |]; simpl; intros H; try discriminate; eauto. Qed.

(** ** Objects *)

Lemma obj_get_set_eq {V} (k : string) (v : V) (o : jsobject V) :
  obj_get k (obj_set k v o) = Some v.
Proof.
  induction o as [|[k' v'] o IH]; simpl.
  - by rewrite String.eqb_refl.
  - destruct (String.eqb k k') eqn:E; simpl; rewrite ?String.eqb_refl, ?E; done.
Qed.

Lemma obj_get_set_ne {V} (k k' : string) (v : V) (o : jsobject V) :
  k <> k' -> obj_get k (obj_set k' v o) = obj_get k o.
Proof.
  intros Hne. induction o as [|[k0 v0] o IH]; simpl.
  - destruct (String.eqb k k') eqn:E; [|done].
    apply String.eqb_eq in E. done.
  - destruct (String.eqb k' k0) eqn:E; simpl.
    + apply String.eqb_eq in E. subst k0.
      destruct (String.eqb k k') eqn:E'; [|done].
      apply String.eqb_eq in E'. done.
    + destruct (String.eqb k k0); done.
Qed.

Lemma obj_set_fmap (f : nat -> nat) (k : string) (v : nat) (o : object) :
  map (fun kv => (kv.1, f kv.2)) (obj_set k v o)
  = obj_set k (f v) (map (fun kv => (kv.1, f kv.2)) o).
Proof.
  induction o as [|[k' v'] o IH]; simpl; [done|].
  destruct (String.eqb k k'); simpl; [done|]. by rewrite IH.
Qed.

Lemma obj_assign_fmap (f : nat -> nat) (k : string) (v : nat) (o : object) :
  map (fun kv => (kv.1, f kv.2)) (obj_assign k v o)
  = obj_assign k (f v) (map (fun kv => (kv.1, f kv.2)) o).
Proof.
  unfold obj_assign. destruct (String.eqb k "__proto__"); [done|].
  apply obj_set_fmap.
Qed.

Lemma obj_get_assign_eq {V} (k : string) (v : V) (o : jsobject V) :
  k <> "__proto__" -> obj_get k (obj_assign k v o) = Some v.
Proof.
  intros Hk. unfold obj_assign.
  destruct (String.eqb_spec k "__proto__"); [done|]. apply obj_get_set_eq.
Qed.

Lemma obj_get_assign_ne {V} (k k' : string) (v : V) (o : jsobject V) :
  k <> k' -> obj_get k (obj_assign k' v o) = obj_get k o.
Proof.
  intros Hk. unfold obj_assign.
  destruct (String.eqb k' "__proto__"); [done|]. by apply obj_get_set_ne.
Qed.

Lemma obj_get_assign {V} (k k' : string) (v w : V) (o : jsobject V) :
  obj_get k (obj_assign k' v o) = Some w ->
  obj_get k o = Some w \/ (k = k' /\ k <> "__proto__").
Proof.
  intros H. destruct (decide (k = k')) as [<-|Hne].
  - unfold obj_assign in H. destruct (String.eqb_spec k "__proto__"); auto.
  - left. by rewrite obj_get_assign_ne in H.
Qed.

(** ** Traversal *)

Lemma node_induction (P : node -> Prop) :
  (forall source, P (ImportDeclaration source)) ->
  (forall callee args, P callee -> Forall P args -> P (CallExpression callee args)) ->
  (forall name, P (Identifier name)) ->
  (forall value, P (StringLiteral value)) ->
  (forall children, Forall P children -> P (OtherNode children)) ->
  forall n, P n.
Proof.
  intros Himp Hcall Hid Hstr Hother.
  fix IH 1. intros [source|callee args|name|value|children].
  - apply Himp.
  - apply Hcall; [apply IH|].
    induction args as [|a args IHargs]; constructor; [apply IH|apply IHargs].
  - apply Hid.
  - apply Hstr.
  - apply Hother.
    induction children as [|a l IHl]; constructor; [apply IH|apply IHl].
Qed.

(** A visitor that only pushes: entering [n] appends [f n]. *)
Lemma visit_pushes (visitor : node -> list string -> list string)
    (f : node -> list string) :
  (forall n deps, visitor n deps = deps ++ f n) ->
  forall l deps,
    fold_left (fun d a => visit visitor a d) l deps
    = deps ++ flat_map f (flat_map preorder l).
Proof.
  intros Hv.
  assert (Hfold : forall l, Forall (fun n => forall deps,
              visit visitor n deps = deps ++ flat_map f (preorder n)) l ->
            forall deps, fold_left (fun d a => visit visitor a d) l deps
                         = deps ++ flat_map f (flat_map preorder l)).
  { induction 1 as [|a l Ha _ IHl]; intros deps; simpl.
    - by rewrite app_nil_r.
    - rewrite IHl, Ha, flat_map_app. by rewrite <- app_assoc. }
  intros l. apply Hfold. apply Forall_forall. intros n _.
  induction n as [source|callee args IHc IHargs|name|value|children IHch]
    using node_induction; intros deps; simpl; rewrite Hv; simpl.
  - by rewrite app_nil_r.
  - rewrite (Hfold _ IHargs), IHc.
    rewrite flat_map_app. by rewrite <- !app_assoc.
  - by rewrite app_nil_r.
  - by rewrite app_nil_r.
  - rewrite (Hfold _ IHch). by rewrite <- app_assoc.
Qed.

Lemma visit_all_pushes (visitor : node -> list string -> list string)
    (f : node -> list string) :
  (forall n deps, visitor n deps = deps ++ f n) ->
  forall ast, visit_all visitor ast [] = flat_map f (entered ast).
Proof. intros Hv ast. apply (visit_pushes _ _ Hv). Qed.

Lemma traverse_pushes `{host : Host}
    (visitor : node -> list string -> list string)
    (f : node -> list string) :
  (forall n deps, visitor n deps = deps ++ f n) ->
  forall ast,
    traverse visitor ast []
    = if traverse_scope ast then Done (flat_map f (entered ast))
      else Throw TypeError.
Proof.
  intros Hv ast. unfold traverse.
  by rewrite (visit_all_pushes _ _ Hv).
Qed.

Lemma createAsset_visitor_pushes (n : node) (deps : list string) :
  createAsset_visitor n deps = deps ++ import_specifier n.
Proof. destruct n; simpl; by rewrite ?app_nil_r. Qed.

Lemma createDependencyGraph_visitor_pushes (n : node) (deps : list string) :
  createDependencyGraph_visitor n deps = deps ++ spec_specifier n.
Proof.
  destruct n as [source|callee args|name|value|children]; simpl;
    rewrite ?app_nil_r; try done.
  destruct callee as [| |name| |]; simpl; rewrite ?app_nil_r; try done.
  destruct args as [|[| | |value|] [|? ?]]; simpl; rewrite ?app_nil_r; try done.
  destruct (String.eqb name "require"); by rewrite ?app_nil_r.
Qed.

(** ** One asset *)

Section GraphProperties.

Context `{host : Host}.

Lemma createAsset_extract (file : string) (ID : nat) :
  createAsset file ID =
  '(deps, code) ← extract file; mret (mkAsset ID file deps code None, S ID).
Proof.
  unfold createAsset, extract.
  destruct (readFileSync file) as [content|]; simpl; [|done].
  destruct (babylon_parse content) as [ast|]; simpl; [|done].
  destruct (traverse createAsset_visitor ast []); simpl; [|done|done].
  destruct (transformFromAst ast); done.
Qed.

Lemma extract_Done (file : string) (deps : list string) (code : string) :
  extract file = Done (deps, code) ->
  exists content ast,
    readFileSync file = Some content /\
    babylon_parse content = Some ast /\
    traverse_scope ast = true /\
    transformFromAst ast = Some code /\
    deps = flat_map import_specifier (entered ast).
Proof.
  unfold extract.
  destruct (readFileSync file) as [content|] eqn:Er; simpl; [|done].
  destruct (babylon_parse content) as [ast|] eqn:Ep; simpl; [|done].
  rewrite (traverse_pushes _ _ createAsset_visitor_pushes).
  destruct (traverse_scope ast) eqn:Es; simpl; [|done].
  destruct (transformFromAst ast) as [code'|] eqn:Et; simpl; [|done].
  intros [= <- <-]. by exists content, ast.
Qed.

Lemma extract_Throw (file : string) (e : error) :
  extract file = Throw e ->
  (e = ReadError file /\ readFileSync file = None) \/
  (e = ParseError /\ exists content,
      readFileSync file = Some content /\
      babylon_parse content = None) \/
  (e = TypeError /\ exists content ast,
      readFileSync file = Some content /\
      babylon_parse content = Some ast /\
      traverse_scope ast = false) \/
  (e = TransformError /\ exists content ast,
      readFileSync file = Some content /\
      babylon_parse content = Some ast /\
      traverse_scope ast = true /\
      transformFromAst ast = None).
Proof.
  unfold extract.
  destruct (readFileSync file) as [content|] eqn:Er; simpl;
    [|intros [= <-]; by left].
  destruct (babylon_parse content) as [ast|] eqn:Ep; simpl;
    [|intros [= <-]; right; left; eauto].
  unfold traverse.
  destruct (traverse_scope ast) eqn:Es; simpl;
    [|intros [= <-]; right; right; left; split; [done|];
      by exists content, ast].
  destruct (transformFromAst ast) as [code'|] eqn:E; simpl; [done|].
  intros [= <-]. right; right; right. split; [done|]. by exists content, ast.
Qed.

Lemma extract_fuel (file : string) : extract file <> OutOfFuel.
Proof.
  unfold extract, traverse.
  destruct (readFileSync file) as [content|]; simpl; [|done].
  destruct (babylon_parse content) as [ast|]; simpl; [|done].
  destruct (traverse_scope ast); simpl; [|done].
  destruct (transformFromAst ast); done.
Qed.

(** ** The assets of one round *)

Lemma children_Done (dir : string) (ds : list string) (ID : nat)
    (cs : list asset) :
  children dir ds ID = Done cs ->
  length cs = length ds /\
  forall k d, ds !! k = Some d ->
    exists deps code,
      extract (path_join dir d) = Done (deps, code) /\
      cs !! k = Some (mkAsset (ID + k) (path_join dir d) deps code None).
Proof.
  revert ID cs. induction ds as [|d ds IH]; intros ID cs; simpl.
  - intros [= <-]. split; [done|]. intros k d' Hk. done.
  - intros H. apply bind_Done in H as ([deps code] & Hex & H).
    apply bind_Done in H as (cs' & Hcs & H). injection H as <-.
    destruct (IH _ _ Hcs) as [Hlen Hall]. split; [simpl; lia|].
    intros [|k] d' Hk; simpl in *.
    + injection Hk as <-. exists deps, code. by rewrite Nat.add_0_r.
    + destruct (Hall _ _ Hk) as (deps' & code' & ? & ?).
      exists deps', code'. split; [done|].
      by replace (ID + S k) with (S ID + k) by lia.
Qed.

Lemma children_Throw (dir : string) (ds : list string) (ID : nat) (e : error) :
  children dir ds ID = Throw e ->
  exists d, d ∈ ds /\ extract (path_join dir d) = Throw e.
Proof.
  revert ID. induction ds as [|d ds IH]; intros ID; simpl; [done|].
  intros H. apply bind_Throw in H as [H|([deps code] & Hex & H)].
  - exists d. split; [left|done].
  - apply bind_Throw in H as [H|(cs & _ & H)]; [|done].
    destruct (IH _ H) as (d' & ? & ?). exists d'. split; [by right|done].
Qed.

Lemma children_fuel (dir : string) (ds : list string) (ID : nat) :
  children dir ds ID <> OutOfFuel.
Proof.
  revert ID. induction ds as [|d ds IH]; intros ID; simpl; [done|].
  intros H. apply bind_OutOfFuel in H as [H|([deps code] & _ & H)].
  - by apply extract_fuel in H.
  - apply bind_OutOfFuel in H as [H|(cs & _ & H)]; [|done].
    by apply IH in H.
Qed.

(** The inner [forEach] in closed form: the asset at [i] gets the ids of
    its children in its mapping, and the children go to the end of the
    queue. *)
Lemma forEach_closed (i : nat) (dir : string) (ds : list string)
    (ID : nat) (queue : list asset) (a : asset) (m : object) :
  queue !! i = Some a ->
  mapping a = Some m ->
  forEach (forEach_body i dir) ds (ID, queue) =
  cs ← children dir ds ID;
  mret (ID + length ds,
        <[i := set_mapping (Some (assign_all ds ID m)) a]> queue ++ cs).
Proof.
  revert ID queue a m. induction ds as [|d ds IH]; intros ID queue a m Hi Hm.
  - simpl. rewrite Nat.add_0_r, app_nil_r. f_equal. f_equal.
    rewrite list_insert_id; [done|]. rewrite Hi. f_equal.
    destruct a; simpl in *. by subst.
  - simpl. rewrite createAsset_extract.
    destruct (extract (path_join dir d)) as [[deps code]| |]; simpl; try done.
    pose proof (lookup_lt_Some _ _ _ Hi) as Hlt.
    erewrite (IH (S ID) _ (mapping_assign d ID a) (obj_assign d ID m)).
    + destruct (children dir ds (S ID)) as [cs| |]; simpl; try done.
      f_equal. f_equal; [lia|].
      rewrite insert_app_l by (by rewrite length_alter).
      rewrite <- app_assoc. simpl. f_equal.
      apply list_eq. intros j.
      destruct (decide (j = i)) as [->|Hne].
      * rewrite !list_lookup_insert_eq by (by rewrite ?length_alter). done.
      * rewrite !list_lookup_insert_ne by done.
        by rewrite list_lookup_alter_ne.
    + rewrite lookup_app_l by (by rewrite length_alter).
      by rewrite list_lookup_alter_eq, Hi.
    + unfold mapping_assign. simpl. by rewrite Hm.
Qed.

Lemma for_body_closed (i : nat) (a : asset) (ID : nat) (queue : list asset) :
  queue !! i = Some a ->
  for_body i a (ID, queue) =
  cs ← children (path_dirname (filename a)) (dependencies a) ID;
  mret (ID + length (dependencies a),
        <[i := set_mapping (Some (assign_all (dependencies a) ID [])) a]> queue
        ++ cs).
Proof.
  intros Hi. unfold for_body.
  pose proof (lookup_lt_Some _ _ _ Hi) as Hlt.
  erewrite (forEach_closed i _ _ ID _ (set_mapping (Some []) a) []).
  - destruct (children _ _ ID) as [cs| |]; simpl; try done.
    f_equal. f_equal. f_equal. apply list_eq. intros j.
    destruct (decide (j = i)) as [->|Hne].
    + rewrite !list_lookup_insert_eq by (by rewrite ?length_alter). done.
    + rewrite !list_lookup_insert_ne by done.
      by rewrite list_lookup_alter_ne.
  - by rewrite list_lookup_alter_eq, Hi.
  - done.
Qed.

Lemma for_body_fuel (i : nat) (a : asset) (s : gstate) :
  s.2 !! i = Some a -> for_body i a s <> OutOfFuel.
Proof.
  destruct s as [ID queue]. intros Hi. simpl in Hi.
  rewrite (for_body_closed _ _ _ _ Hi). intros H.
  apply bind_OutOfFuel in H as [H|(cs & _ & H)]; [|done].
  by apply children_fuel in H.
Qed.

(** ** The loop invariant *)

Lemma sum_list_with_insert_same {A} (f : A -> nat) (l : list A) (i : nat)
    (a a' : A) :
  l !! i = Some a -> f a' = f a ->
  sum_list_with f (<[i:=a']> l) = sum_list_with f l.
Proof.
  revert i. induction l as [|x l IH]; intros [|i] Hi Hf; simpl in *; try done.
  - injection Hi as ->. by rewrite Hf.
  - by rewrite (IH i).
Qed.

Lemma offset_S (queue : list asset) (i : nat) (a : asset) :
  queue !! i = Some a ->
  offset queue (S i) = offset queue i + length (dependencies a).
Proof.
  intros Hi. unfold offset. rewrite (take_S_r _ _ _ Hi), sum_list_with_app.
  simpl. lia.
Qed.

Lemma offset_round (queue cs : list asset) (i j : nat) (a a' : asset) :
  queue !! i = Some a ->
  dependencies a' = dependencies a ->
  j <= length queue ->
  offset (<[i:=a']> queue ++ cs) j = offset queue j.
Proof.
  intros Hi Hd Hj. unfold offset. f_equal.
  rewrite take_app_le by (by rewrite length_insert).
  destruct (decide (j <= i)) as [Hle|Hgt].
  - by rewrite take_insert_ge.
  - rewrite take_insert_lt by lia.
    apply (sum_list_with_insert_same _ _ _ a); [|by rewrite Hd].
    rewrite lookup_take_lt by lia. done.
Qed.

(** What the queue holds after a round: the old assets, the asset of the
    round with its mapping, and the new children. *)
Lemma round_lookup (queue cs : list asset) (i : nat) (a a' : asset)
    (dir : string) (ID : nat) :
  queue !! i = Some a ->
  children dir (dependencies a) ID = Done cs ->
  forall j c, (<[i:=a']> queue ++ cs) !! j = Some c ->
    (j <> i /\ queue !! j = Some c) \/
    (j = i /\ c = a') \/
    (exists k d deps code,
        j = length queue + k /\ dependencies a !! k = Some d /\
        extract (path_join dir d) = Done (deps, code) /\
        c = mkAsset (ID + k) (path_join dir d) deps code None).
Proof.
  intros Hi Hcs j c Hj.
  pose proof (lookup_lt_Some _ _ _ Hi) as Hlt.
  destruct (children_Done _ _ _ _ Hcs) as [Hlen Hall].
  apply lookup_app_Some in Hj as [Hj|[Hge Hj]].
  - destruct (decide (j = i)) as [->|Hne].
    + rewrite list_lookup_insert_eq in Hj by done. injection Hj as <-. auto.
    + rewrite list_lookup_insert_ne in Hj by done. auto.
  - rewrite length_insert in Hge, Hj. right; right.
    pose proof (lookup_lt_Some _ _ _ Hj) as Hk. rewrite Hlen in Hk.
    destruct (lookup_lt_is_Some_2 _ _ Hk) as [d Hd].
    destruct (Hall _ _ Hd) as (deps & code & Hex & Hc).
    exists (j - length queue), d, deps, code.
    split; [lia|]. split; [done|]. split; [done|]. congruence.
Qed.

Lemma Inv_round (ID0 : nat) (entry : string) (i : nat) (a : asset)
    (s s' : gstate) :
  Inv ID0 entry i s ->
  s.2 !! i = Some a ->
  for_body i a s = Done s' ->
  Inv ID0 entry (S i) s'.
Proof.
  destruct s as [ID queue]. intros HI Hi Hbody. simpl in Hi.
  rewrite (for_body_closed _ _ _ _ Hi) in Hbody.
  apply bind_Done in Hbody as (cs & Hcs & Hs'). injection Hs' as <-.
  destruct HI as [Hcnt Hasset Hentry Hlen Hdone Htodo Hreach Hbound Hoffset].
  simpl in *.
  pose proof (lookup_lt_Some _ _ _ Hi) as Hlt.
  destruct (children_Done _ _ _ _ Hcs) as [Hlencs Hall].
  set (a' := set_mapping (Some (assign_all (dependencies a) ID [])) a) in *.
  set (queue' := <[i:=a']> queue ++ cs).
  assert (Hoff : forall j, j <= length queue -> offset queue' j = offset queue j).
  { intros j Hj. by apply (offset_round _ _ _ _ a). }
  assert (Hcases := round_lookup queue cs i a a' _ ID Hi Hcs).
  fold queue' in Hcases.
  assert (Hkeep : forall j c, queue !! j = Some c ->
            exists c', queue' !! j = Some c' /\ filename c' = filename c).
  { intros j c Hj. pose proof (lookup_lt_Some _ _ _ Hj).
    unfold queue'. rewrite lookup_app_l by (by rewrite length_insert).
    destruct (decide (j = i)) as [->|Hne].
    - rewrite list_lookup_insert_eq by done. exists a'. split; [done|].
      rewrite Hi in Hj. by injection Hj as <-.
    - rewrite list_lookup_insert_ne by done. eauto. }
  assert (Hnew : forall k d, dependencies a !! k = Some d ->
            exists c, queue' !! (length queue + k) = Some c /\
                      filename c = path_join (path_dirname (filename a)) d).
  { intros k d Hd. destruct (Hall _ _ Hd) as (deps & code & _ & Hc).
    eexists. split; [|shelve].
    unfold queue'. rewrite lookup_app_r by (rewrite length_insert; lia).
    rewrite length_insert.
    replace (length queue + k - length queue) with k by lia. apply Hc.
    Unshelve. done. }
  split; simpl; fold queue'.
  - unfold queue'. rewrite length_app, length_insert. lia.
  - intros j c Hj.
    destruct (Hcases _ _ Hj) as [[_ Hold]|[[-> ->]|(k & d & deps & code & -> & _ & Hex & ->)]].
    + by apply Hasset.
    + apply (Hasset _ _ Hi).
    + simpl. split; [lia|done].
  - destruct Hentry as (a0 & H0 & Hname).
    destruct (Hkeep _ _ H0) as (c' & ? & ?). exists c'. split; [done|congruence].
  - rewrite (Hoff (S i)) by lia. rewrite (offset_S _ _ _ Hi).
    unfold queue'. rewrite length_app, length_insert. lia.
  - intros j c Hlt' Hj.
    destruct (Hcases _ _ Hj) as [[Hne Hold]|[[-> ->]|(k & d & deps & code & -> & _)]].
    + assert (j < i) as Hji by lia.
      destruct (Hdone _ _ Hji Hold) as [Hmap Hch].
      rewrite Hoff by lia. split; [done|].
      intros k d Hd. destruct (Hch _ _ Hd) as (c0 & Hc0 & Hname).
      destruct (Hkeep _ _ Hc0) as (c' & ? & ?). exists c'. split; [done|congruence].
    + rewrite Hoff by lia. simpl. split; [f_equal; f_equal; lia|].
      intros k d Hd. rewrite <- Hlen. by apply Hnew.
    + lia.
  - intros j c Hle Hj.
    destruct (Hcases _ _ Hj) as [[Hne Hold]|[[-> ->]|(k & d & deps & code & -> & _ & _ & ->)]].
    + apply (Htodo j); [lia|done].
    + lia.
    + done.
  - intros j c Hj.
    destruct (Hcases _ _ Hj) as [[_ Hold]|[[-> ->]|(k & d & deps & code & -> & Hd & Hex & ->)]].
    + by apply (Hreach j).
    + apply (Hreach _ _ Hi).
    + simpl. destruct (Hasset _ _ Hi) as [_ Hexa].
      eapply reach_import; [apply (Hreach _ _ Hi)|apply Hexa|].
      by apply list_elem_of_lookup_2 in Hd.
  - unfold queue'. rewrite length_app, length_insert. lia.
  - intros j Hj. rewrite Hoff by lia.
    destruct (decide (j = i)) as [->|Hne]; [lia|]. apply Hoffset. lia.
Qed.

Lemma Inv_init (ID0 ID1 : nat) (entry : string) (mainAsset : asset) :
  createAsset entry ID0 = Done (mainAsset, ID1) ->
  Inv ID0 entry 0 (ID1, [mainAsset]).
Proof.
  rewrite createAsset_extract. intros H.
  apply bind_Done in H as ([deps code] & Hex & H). injection H as <- <-.
  split; simpl.
  - lia.
  - intros [|j] a Hj; [|done]. injection Hj as <-. simpl.
    split; [lia|done].
  - eexists. split; [reflexivity|done].
  - done.
  - intros j a Hj. lia.
  - intros [|j] a _ Hj; [|done]. by injection Hj as <-.
  - intros [|j] a Hj; [|done]. injection Hj as <-. apply reach_entry.
  - lia.
  - intros j Hj. lia.
Qed.

Lemma steps_Inv (ID0 : nat) (entry : string) (s0 s : gstate) (i : nat) :
  Inv ID0 entry 0 s0 -> steps s0 i s -> Inv ID0 entry i s.
Proof.
  intros H0. induction 1 as [|i s a s' _ IH Hi Hbody]; [done|].
  by apply (Inv_round _ _ _ a s).
Qed.

(** ** Runs of the loop *)

Lemma for_of_steps (s0 s : gstate) (i m : nat) :
  steps s0 i s -> for_of (i + m) 0 s0 = for_of m i s.
Proof.
  intros H. revert m. induction H as [|i s a s' _ IH Hi Hbody]; intros m.
  - done.
  - replace (S i + m) with (i + S m) by lia. rewrite IH. simpl.
    by rewrite Hi, Hbody.
Qed.

Lemma for_of_Done (s0 s s' : gstate) (fuel i : nat) :
  steps s0 i s -> for_of fuel i s = Done s' ->
  exists n, steps s0 n s' /\ s'.2 !! n = None.
Proof.
  revert i s. induction fuel as [|fuel IH]; intros i s Hst; simpl; [done|].
  destruct (s.2 !! i) as [a|] eqn:Hi.
  - intros H. apply bind_Done in H as (s1 & Hbody & H).
    apply (IH (S i) s1); [|done]. by eapply steps_S.
  - intros [= <-]. eauto.
Qed.

Lemma for_of_Throw (s0 s : gstate) (fuel i : nat) (e : error) :
  steps s0 i s -> for_of fuel i s = Throw e ->
  exists n s1 a, steps s0 n s1 /\ s1.2 !! n = Some a /\
                 for_body n a s1 = Throw e.
Proof.
  revert i s. induction fuel as [|fuel IH]; intros i s Hst; simpl; [done|].
  destruct (s.2 !! i) as [a|] eqn:Hi; [|done].
  intros H. apply bind_Throw in H as [H|(s1 & Hbody & H)].
  - eauto 6.
  - apply (IH (S i) s1); [|done]. by eapply steps_S.
Qed.

(** More fuel does not change a result. *)
Lemma for_of_mono (fuel fuel' i : nat) (s : gstate) :
  fuel <= fuel' -> for_of fuel i s <> OutOfFuel ->
  for_of fuel' i s = for_of fuel i s.
Proof.
  revert fuel' i s. induction fuel as [|fuel IH]; intros fuel' i s Hle; simpl;
    [done|].
  destruct fuel' as [|fuel']; [lia|]. simpl.
  destruct (s.2 !! i) as [a|]; [|done].
  destruct (for_body i a s) as [s1| |]; simpl; try done.
  apply IH. lia.
Qed.

(** After [n] rounds the loop is still running, or it has ended. *)
Lemma for_of_progress (s0 : gstate) (n : nat) :
  (exists s, steps s0 n s) \/
  (exists fuel, for_of fuel 0 s0 <> OutOfFuel).
Proof.
  induction n as [|n [[s Hst]|Hend]]; [left; eexists; constructor| |by right].
  destruct (s.2 !! n) as [a|] eqn:Hn.
  - destruct (for_body n a s) as [s'|e|] eqn:Hbody.
    + left. exists s'. by eapply steps_S.
    + right. exists (n + 1). rewrite (for_of_steps _ _ _ _ Hst). simpl.
      by rewrite Hn, Hbody.
    + by apply for_body_fuel in Hbody.
  - right. exists (n + 1). rewrite (for_of_steps _ _ _ _ Hst). simpl.
    by rewrite Hn.
Qed.

(** The graph [createGraph] returns satisfies the invariant with every
    asset processed. *)
Lemma createGraph_Done (fuel : nat) (entry : string) (ID0 ID' : nat)
    (graph : list asset) :
  createGraph fuel entry ID0 = Done (graph, ID') ->
  Inv ID0 entry (length graph) (ID', graph).
Proof.
  unfold createGraph. intros H.
  apply bind_Done in H as ([mainAsset ID1] & Hmain & H).
  apply bind_Done in H as ([ID2 queue] & Hloop & H). injection H as <- <-.
  pose proof (Inv_init _ _ _ _ Hmain) as H0.
  destruct (for_of_Done _ _ _ _ _ (steps_O _) Hloop) as (n & Hst & Hn).
  pose proof (steps_Inv _ _ _ _ _ H0 Hst) as HI. simpl in Hn.
  apply lookup_ge_None in Hn. pose proof (inv_bound _ _ _ _ HI). simpl in *.
  by replace (length queue) with n by lia.
Qed.

(** ** Mappings *)

Lemma assign_all_notin (s : string) (ds : list string) (ID : nat) (m : object) :
  s ∉ ds -> obj_get s (assign_all ds ID m) = obj_get s m.
Proof.
  revert ID m. induction ds as [|d ds IH]; intros ID m Hs; simpl; [done|].
  apply not_elem_of_cons in Hs as [Hne Hs].
  rewrite IH by done. by apply obj_get_assign_ne.
Qed.

(** The last assignment to a specifier wins: its id is the one of the
    child created for one of its occurrences. *)
Lemma assign_all_in (s : string) (ds : list string) (ID : nat) (m : object) :
  s ∈ ds ->
  s <> "__proto__" ->
  exists k, ds !! k = Some s /\ obj_get s (assign_all ds ID m) = Some (ID + k).
Proof.
  revert ID m. induction ds as [|d ds IH]; intros ID m Hs Hp; simpl.
  - by apply elem_of_nil in Hs.
  - destruct (decide (s ∈ ds)) as [Hin|Hnotin].
    + destruct (IH (S ID) (obj_assign d ID m) Hin Hp) as (k & Hk & Hget).
      exists (S k). split; [done|]. rewrite Hget. f_equal. lia.
    + apply elem_of_cons in Hs as [->|Hs]; [|done].
      exists 0. split; [done|].
      rewrite assign_all_notin by done.
      rewrite obj_get_assign_eq by done. f_equal. lia.
Qed.

(** What a mapping holds was assigned for one of the specifiers. *)
Lemma assign_all_get (s : string) (ds : list string) (ID : nat) (m : object)
    (n : nat) :
  obj_get s (assign_all ds ID m) = Some n ->
  obj_get s m = Some n \/ (s ∈ ds /\ s <> "__proto__").
Proof.
  revert ID m. induction ds as [|d ds IH]; intros ID m H; simpl in H; [auto|].
  destruct (IH _ _ H) as [Hm|[Hin Hp]].
  - destruct (obj_get_assign _ _ _ _ _ Hm) as [?|[-> ?]]; [auto|].
    right. split; [left|done].
  - right. split; [by right|done].
Qed.

Lemma offset_mono (queue : list asset) (i j : nat) :
  i <= j -> offset queue i <= offset queue j.
Proof.
  induction j as [|j IH]; intros Hle.
  - by replace i with 0 by lia.
  - destruct (decide (i = S j)) as [->|Hne]; [done|].
    etrans; [apply IH; lia|].
    destruct (queue !! j) as [a|] eqn:Hj.
    + rewrite (offset_S _ _ _ Hj). lia.
    + apply lookup_ge_None in Hj. unfold offset.
      rewrite !take_ge by lia. done.
Qed.

(** In a finished graph, the mapping of the asset at [j] sends each of
    its specifiers to the id of a child of its own, which stands in the
    graph under the joined path. *)
Lemma mapping_child (ID0 : nat) (entry : string) (ID' : nat)
    (graph : list asset) (j : nat) (a : asset) (s : string) :
  Inv ID0 entry (length graph) (ID', graph) ->
  graph !! j = Some a ->
  s ∈ dependencies a ->
  s <> "__proto__" ->
  exists m k c,
    mapping a = Some m /\
    k < length (dependencies a) /\
    obj_get s m = Some (ID0 + (offset graph j + k)) /\
    dependencies a !! k = Some s /\
    graph !! (offset graph j + k) = Some c /\
    id c = ID0 + (offset graph j + k) /\
    filename c = path_join (path_dirname (filename a)) s.
Proof.
  intros HI Hj Hs Hp.
  pose proof (lookup_lt_Some _ _ _ Hj) as Hlt.
  destruct (inv_done _ _ _ _ HI j a Hlt Hj) as [Hm Hch]. simpl in *.
  destruct (assign_all_in s (dependencies a) (ID0 + offset graph j) [] Hs Hp)
    as (k & Hk & Hget).
  destruct (Hch _ _ Hk) as (c & Hc & Hname).
  destruct (inv_asset _ _ _ _ HI _ _ Hc) as [Hid _]. simpl in *.
  exists (assign_all (dependencies a) (ID0 + offset graph j) []), k, c.
  split; [done|]. split; [by eapply lookup_lt_Some|].
  split; [rewrite Hget; f_equal; lia|]. done.
Qed.

(** What the mapping of an asset of a finished graph holds under a key:
    the key is one of its specifiers. *)
Lemma mapping_key (ID0 : nat) (entry : string) (ID' : nat)
    (graph : list asset) (j : nat) (a : asset) (s : string) (m : object)
    (n : nat) :
  Inv ID0 entry (length graph) (ID', graph) ->
  graph !! j = Some a ->
  mapping a = Some m ->
  obj_get s m = Some n ->
  s ∈ dependencies a /\ s <> "__proto__".
Proof.
  intros HI Hj Hm Hn.
  pose proof (lookup_lt_Some _ _ _ Hj) as Hlt.
  destruct (inv_done _ _ _ _ HI j a Hlt Hj) as [Hm' _]. simpl in *.
  rewrite Hm in Hm'. injection Hm' as ->.
  by destruct (assign_all_get _ _ _ _ _ Hn).
Qed.

(** No id is shared: two different (asset, specifier) places of a graph
    are mapped to two different ids. *)
Lemma mapping_no_sharing (ID0 : nat) (entry : string) (ID' : nat)
    (graph : list asset) (j1 j2 : nat) (a1 a2 : asset) (s1 s2 : string)
    (m1 m2 : object) (n1 n2 : nat) :
  Inv ID0 entry (length graph) (ID', graph) ->
  graph !! j1 = Some a1 -> graph !! j2 = Some a2 ->
  mapping a1 = Some m1 -> mapping a2 = Some m2 ->
  obj_get s1 m1 = Some n1 -> obj_get s2 m2 = Some n2 ->
  j1 <> j2 \/ s1 <> s2 ->
  n1 <> n2.
Proof.
  intros HI Hj1 Hj2 Hm1 Hm2 Hn1 Hn2 Hne.
  destruct (mapping_key _ _ _ _ _ _ _ _ _ HI Hj1 Hm1 Hn1) as [Hs1 Hp1].
  destruct (mapping_key _ _ _ _ _ _ _ _ _ HI Hj2 Hm2 Hn2) as [Hs2 Hp2].
  destruct (mapping_child _ _ _ _ _ _ _ HI Hj1 Hs1 Hp1)
    as (m1' & k1 & c1 & Hm1' & Hk1 & Hget1 & Hd1 & _).
  destruct (mapping_child _ _ _ _ _ _ _ HI Hj2 Hs2 Hp2)
    as (m2' & k2 & c2 & Hm2' & Hk2 & Hget2 & Hd2 & _).
  assert (m1' = m1) as -> by congruence.
  assert (m2' = m2) as -> by congruence.
  assert (n1 = ID0 + (offset graph j1 + k1)) as -> by congruence.
  assert (n2 = ID0 + (offset graph j2 + k2)) as -> by congruence.
  pose proof (offset_S _ _ _ Hj1) as Ho1.
  pose proof (offset_S _ _ _ Hj2) as Ho2.
  destruct (Nat.lt_trichotomy j1 j2) as [Hlt|[->|Hgt]].
  - pose proof (offset_mono graph (S j1) j2 ltac:(lia)). lia.
  - assert (a1 = a2) as -> by congruence.
    destruct Hne as [?|Hne]; [done|].
    intros Heq. assert (k1 = k2) as -> by lia. congruence.
  - pose proof (offset_mono graph (S j2) j1 ltac:(lia)). lia.
Qed.

(** ** Termination on trees of finite depth *)

Lemma sum_list_with_fmap {A B} (f : B -> nat) (g : A -> B) (l : list A) :
  sum_list_with f (g <$> l) = sum_list_with (fun x => f (g x)) l.
Proof. induction l as [|x l IH]; csimpl; [done|]. by rewrite IH. Qed.

Lemma sum_list_with_ext_in {A} (f g : A -> nat) (l : list A) :
  (forall x, x ∈ l -> f x = g x) -> sum_list_with f l = sum_list_with g l.
Proof.
  induction l as [|x l IH]; intros H; simpl; [done|].
  rewrite (H x) by left. rewrite IH; [done|]. intros y Hy. apply H. by right.
Qed.

Lemma tree_depth_below_S (r : nat) (file : string) :
  tree_depth_below r file = true ->
  tree_depth_below (S r) file = true /\ cost (S r) file = cost r file.
Proof.
  revert file. induction r as [|r IH]; intros file; [done|].
  intros H. simpl in H. simpl.
  destruct (extract file) as [[deps code]| |]; try done.
  rewrite forallb_forall in H. split.
  - apply forallb_forall. intros d Hd. by apply IH, H.
  - f_equal. apply sum_list_with_ext_in. intros d Hd.
    apply IH, H. by apply list_elem_of_In.
Qed.

Lemma cost_unfold (r : nat) (file : string) (deps : list string)
    (code : string) :
  tree_depth_below r file = true ->
  extract file = Done (deps, code) ->
  Forall (fun d => tree_depth_below r (path_join (path_dirname file) d) = true)
         deps /\
  cost r file =
    1 + sum_list_with (fun d => cost r (path_join (path_dirname file) d)) deps.
Proof.
  destruct r as [|r]; [done|]. intros H Hex.
  simpl in H. rewrite Hex in H. rewrite forallb_forall in H. split.
  - apply Forall_forall. intros d Hd.
    apply tree_depth_below_S, H. by apply list_elem_of_In.
  - simpl. rewrite Hex. f_equal. apply sum_list_with_ext_in. intros d Hd.
    symmetry. apply tree_depth_below_S, H. by apply list_elem_of_In.
Qed.

Lemma children_filenames (dir : string) (ds : list string) (ID : nat)
    (cs : list asset) :
  children dir ds ID = Done cs -> filename <$> cs = path_join dir <$> ds.
Proof.
  revert ID cs. induction ds as [|d ds IH]; intros ID cs; simpl.
  - by intros [= <-].
  - intros H. apply bind_Done in H as ([deps code] & _ & H).
    apply bind_Done in H as (cs' & Hcs & H). injection H as <-.
    simpl. f_equal. by apply (IH (S ID)).
Qed.

(** Every round takes one asset off the pending part of the queue and
    puts its children there: the rounds done plus the cost of the pending
    assets is constant. *)
Lemma steps_cost (ID0 : nat) (entry : string) (r : nat) (s0 s : gstate)
    (i : nat) :
  Inv ID0 entry 0 s0 ->
  Forall (fun a => tree_depth_below r (filename a) = true) s0.2 ->
  steps s0 i s ->
  Forall (fun a => tree_depth_below r (filename a) = true) (drop i s.2) /\
  sum_list_with (fun a => cost r (filename a)) (drop i s.2) + i
  = sum_list_with (fun a => cost r (filename a)) s0.2.
Proof.
  intros H0 Hall0. induction 1 as [|i s a s' Hst [IHall IHsum] Hi Hbody].
  - rewrite drop_0. split; [done|lia].
  - pose proof (steps_Inv _ _ _ _ _ H0 Hst) as HI.
    destruct (inv_asset _ _ _ _ HI _ _ Hi) as [_ Hex].
    destruct s as [ID queue]. simpl in Hi, IHall, IHsum.
    rewrite (for_body_closed _ _ _ _ Hi) in Hbody.
    apply bind_Done in Hbody as (cs & Hcs & Hs'). injection Hs' as <-.
    cbn [fst snd].
    pose proof (lookup_lt_Some _ _ _ Hi) as Hlt.
    rewrite drop_app_le by (rewrite length_insert; lia).
    rewrite drop_insert_lt by lia.
    rewrite (drop_S _ _ _ Hi) in IHall, IHsum. simpl in IHsum.
    apply Forall_cons in IHall as [Ha IHall].
    destruct (cost_unfold _ _ _ _ Ha Hex) as [Hdeps Hcost].
    pose proof (children_filenames _ _ _ _ Hcs) as Hnames.
    split.
    + apply Forall_app. split; [done|].
      assert (Forall (fun f => tree_depth_below r f = true) (filename <$> cs))
        as HF by (rewrite Hnames; apply Forall_fmap; exact Hdeps).
      apply Forall_fmap in HF. exact HF.
    + rewrite sum_list_with_app.
      rewrite <- (sum_list_with_fmap (cost r) filename cs), Hnames.
      rewrite sum_list_with_fmap. lia.
Qed.

(** ** Errors *)

Lemma for_body_Throw (ID0 : nat) (entry : string) (i : nat) (a : asset)
    (s : gstate) (e : error) :
  Inv ID0 entry i s ->
  s.2 !! i = Some a ->
  for_body i a s = Throw e ->
  exists file, reach entry file /\ extract file = Throw e.
Proof.
  destruct s as [ID queue]. intros HI Hi Hbody. simpl in Hi.
  rewrite (for_body_closed _ _ _ _ Hi) in Hbody.
  apply bind_Throw in Hbody as [Hcs|(cs & _ & ?)]; [|done].
  apply children_Throw in Hcs as (d & Hd & Hex).
  destruct (inv_asset _ _ _ _ HI _ _ Hi) as [_ Hexa].
  eexists. split; [|exact Hex].
  eapply reach_import; [apply (inv_reach _ _ _ _ HI _ _ Hi)|exact Hexa|done].
Qed.

Lemma steps_det (s0 s s' : gstate) (i : nat) :
  steps s0 i s -> steps s0 i s' -> s = s'.
Proof.
  intros H. revert s'. induction H as [|i s a s1 _ IH Hi Hbody]; intros s' H'.
  - by inversion H'.
  - inversion H' as [|i' s2 a2 s3 Hst2 Hi2 Hbody2]; subst.
    apply IH in Hst2 as <-. congruence.
Qed.

(** A round keeps the file of every position of the queue. *)
Lemma for_body_keeps (i : nat) (a : asset) (s s' : gstate) :
  s.2 !! i = Some a ->
  for_body i a s = Done s' ->
  forall j c, s.2 !! j = Some c ->
    exists c', s'.2 !! j = Some c' /\ filename c' = filename c.
Proof.
  destruct s as [ID queue]. intros Hi Hbody j c Hj. simpl in Hi, Hj.
  rewrite (for_body_closed _ _ _ _ Hi) in Hbody.
  apply bind_Done in Hbody as (cs & Hcs & Hs'). injection Hs' as <-.
  cbn [fst snd]. pose proof (lookup_lt_Some _ _ _ Hj).
  rewrite lookup_app_l by (by rewrite length_insert).
  destruct (decide (j = i)) as [->|Hne].
  - rewrite list_lookup_insert_eq by done. eexists. split; [done|].
    rewrite Hi in Hj. by injection Hj as <-.
  - rewrite list_lookup_insert_ne by done. eauto.
Qed.

Lemma steps_le (s0 s' : gstate) (i i' : nat) :
  steps s0 i' s' -> i <= i' ->
  exists s, steps s0 i s /\
    forall j c, s.2 !! j = Some c ->
      exists c', s'.2 !! j = Some c' /\ filename c' = filename c.
Proof.
  induction 1 as [|i' s1 a s' Hst IH Hi Hbody]; intros Hle.
  - replace i with 0 by lia. exists s0. split; [constructor|eauto].
  - destruct (decide (i = S i')) as [->|Hne].
    + exists s'. split; [by eapply steps_S|eauto].
    + destruct IH as (s & Hs & Hkeep); [lia|]. exists s. split; [done|].
      intros j c Hj. destruct (Hkeep _ _ Hj) as (c1 & Hc1 & Hn1).
      destruct (for_body_keeps _ _ _ _ Hi Hbody _ _ Hc1) as (c' & ? & ?).
      exists c'. split; [done|congruence].
Qed.

Lemma steps_dec (s0 : gstate) (n : nat) :
  (exists s, steps s0 n s) \/ (forall s, ~ steps s0 n s).
Proof.
  induction n as [|n [[s Hst]|Hno]].
  - left. eexists. constructor.
  - destruct (s.2 !! n) as [a|] eqn:Hn.
    + destruct (for_body n a s) as [s'|e|] eqn:Hbody.
      * left. exists s'. by eapply steps_S.
      * right. intros s' H'. inversion H' as [|? s1 a1 ? Hst1 Hn1 Hb1]; subst.
        apply (steps_det _ _ _ _ Hst) in Hst1 as <-. congruence.
      * by apply for_body_fuel in Hbody.
    + right. intros s' H'. inversion H' as [|? s1 a1 ? Hst1 Hn1 Hb1]; subst.
      apply (steps_det _ _ _ _ Hst) in Hst1 as <-. congruence.
  - right. intros s' H'. inversion H' as [|? s1 a1 ? Hst1 Hn1 Hb1]; subst.
    by apply Hno in Hst1.
Qed.

(** The queue is walked in order, so every file within reach gets its
    place in the queue after finitely many rounds, unless the loop has
    ended before. *)
Lemma reach_queued (ID0 : nat) (entry : string) (s0 : gstate) (file : string) :
  Inv ID0 entry 0 s0 ->
  reach entry file ->
  exists k j, forall i s, steps s0 i s -> k <= i ->
    exists a, s.2 !! j = Some a /\ filename a = file.
Proof.
  intros H0. induction 1 as [|file deps code d _ (k0 & j0 & IH) Hex Hd].
  - exists 0, 0. intros i s Hst _.
    apply (inv_entry _ _ _ _ (steps_Inv _ _ _ _ _ H0 Hst)).
  - set (t := k0 `max` S j0).
    destruct (steps_dec s0 t) as [[s1 Hs1]|Hno].
    + destruct (IH _ _ Hs1 ltac:(lia)) as (a & Ha & Hname).
      pose proof (steps_Inv _ _ _ _ _ H0 Hs1) as HI.
      destruct (inv_asset _ _ _ _ HI _ _ Ha) as [_ Hexa].
      rewrite Hname, Hex in Hexa. injection Hexa as Hdeps _.
      destruct (inv_done _ _ _ _ HI j0 a ltac:(lia) Ha) as [_ Hch].
      apply list_elem_of_lookup_1 in Hd as [kk Hkk]. rewrite Hdeps in Hkk.
      destruct (Hch _ _ Hkk) as (c & Hc & Hcname).
      exists t, (offset s1.2 j0 + kk). intros i s Hst Hle.
      destruct (steps_le _ _ t _ Hst Hle) as (s1' & Hs1' & Hkeep).
      apply (steps_det _ _ _ _ Hs1) in Hs1' as <-.
      destruct (Hkeep _ _ Hc) as (c' & ? & ?). exists c'.
      split; [done|]. congruence.
    + exists t, 0. intros i s Hst Hle.
      destruct (steps_le _ _ t _ Hst Hle) as (s1 & Hs1 & _).
      by apply Hno in Hs1.
Qed.

(** ** A second build *)

Lemma shift_mapping_assign (k : nat) (d : string) (n : nat) (a : asset) :
  shift k (mapping_assign d n a) = mapping_assign d (n + k) (shift k a).
Proof.
  unfold shift, mapping_assign, set_mapping. simpl. f_equal.
  destruct (mapping a) as [m|]; simpl; f_equal;
    apply (obj_assign_fmap (fun v => v + k)).
Qed.

Lemma forEach_shift (k i : nat) (dir : string) (ds : list string) (s : gstate) :
  forEach (forEach_body i dir) ds (shift_state k s) =
  s' ← forEach (forEach_body i dir) ds s; mret (shift_state k s').
Proof.
  revert s. induction ds as [|d ds IH]; intros [ID queue]; [done|].
  simpl. rewrite !createAsset_extract.
  destruct (extract (path_join dir d)) as [[deps code]| |]; simpl; try done.
  rewrite <- IH. f_equal. unfold shift_state. simpl. f_equal.
  rewrite fmap_app. simpl. f_equal.
  symmetry. apply list_fmap_alter, Forall_forall. intros a _.
  apply shift_mapping_assign.
Qed.

Lemma for_of_shift (k fuel i : nat) (s : gstate) :
  for_of fuel i (shift_state k s) =
  s' ← for_of fuel i s; mret (shift_state k s').
Proof.
  revert i s. induction fuel as [|fuel IH]; intros i [ID queue]; [done|].
  simpl. rewrite list_lookup_fmap.
  destruct (queue !! i) as [a|]; simpl; [|done].
  assert (alter (set_mapping (Some [])) i (shift k <$> queue)
          = shift k <$> alter (set_mapping (Some [])) i queue) as ->.
  { symmetry. apply list_fmap_alter, Forall_forall. by intros a' _. }
  pose proof (forEach_shift k i (path_dirname (filename a)) (dependencies a)
                (ID, alter (set_mapping (Some [])) i queue)) as Hshift.
  unfold shift_state in Hshift at 1. simpl in Hshift. rewrite Hshift.
  destruct (forEach (forEach_body i (path_dirname (filename a)))
              (dependencies a) (ID, alter (set_mapping (Some [])) i queue))
    as [s1| |]; simpl; [apply IH|done|done].
Qed.

End GraphProperties.

(** ** The bundle text *)

Lemma string_app_cons (x : ascii) (a b : string) :
  String x a +:+ b = String x (a +:+ b).
Proof. reflexivity. Qed.

Lemma string_app_assoc (a b c : string) : (a +:+ b) +:+ c = a +:+ b +:+ c.
Proof.
  induction a as [|x a IH]; [reflexivity|].
  rewrite !string_app_cons. f_equal. apply IH.
Qed.

Lemma string_app_nil_r (a : string) : a +:+ "" = a.
Proof.
  induction a as [|x a IH]; [reflexivity|].
  rewrite string_app_cons. f_equal. apply IH.
Qed.

Lemma fold_left_append {A} (f : A -> string) (l : list A) (acc : string) :
  fold_left (fun acc x => acc +:+ f x) l acc = acc +:+ join_all (f <$> l).
Proof.
  revert acc. induction l as [|x l IH]; intros acc; csimpl.
  - by rewrite string_app_nil_r.
  - by rewrite IH, string_app_assoc.
Qed.

(** ** The loader *)

Lemma load_last (h : list (jsobject value)) (o : jsobject value)
    (t : list nat) (k : string) :
  load (length h) k (mkRstate (h ++ [o]) t) = default VUndefined (obj_get k o).
Proof. unfold load. simpl. by rewrite list_lookup_middle. Qed.

Lemma require_S (fuel : nat) (modules : registry) (id : option nat)
    (st : rstate) :
  require (S fuel) modules id st =
  n ← orThrow TypeError id;
  '(fn, mapping) ← orThrow TypeError (modules_get modules n);
  let localRequire := fun name st =>
    m ← orThrow TypeError mapping;
    require fuel modules (obj_get name m) st in
  let '(exports, st) := alloc [] st in
  let '(module, st) := alloc [("exports", VObject exports)] st in
  st ← run_body localRequire
         (fn (VObject module) (load module "exports" st)) (called n st);
  mret (load module "exports" st, st).
Proof. done. Qed.

Lemma require_found (fuel : nat) (modules : registry) (n : nat)
    (fn : module_function) (mapping : option object) (st : rstate) :
  modules_get modules n = Some (fn, mapping) ->
  require (S fuel) modules (Some n) st =
  st' ← run_body
          (fun name st =>
             m ← orThrow TypeError mapping;
             require fuel modules (obj_get name m) st)
          (fn (VObject (S (length (heap st)))) (VObject (length (heap st))))
          (entered_state n st);
  mret (load (S (length (heap st))) "exports" st', st').
Proof.
  intros Hget. rewrite require_S. simpl. rewrite Hget. simpl.
  unfold alloc, called. cbn [heap trace].
  replace (length (heap st ++ [[]])) with (S (length (heap st)))
    by (rewrite length_app; simpl; lia).
  replace (load (S (length (heap st))) "exports"
             (mkRstate ((heap st ++ [[]])
                          ++ [[("exports", VObject (length (heap st)))]])
                       (trace st)))
    with (VObject (length (heap st))); [done|].
  replace (S (length (heap st))) with (length (heap st ++ [[]]))
    by (rewrite length_app; simpl; lia).
  by rewrite load_last.
Qed.

Lemma require_missing (fuel : nat) (modules : registry) (n : nat)
    (st : rstate) :
  modules_get modules n = None ->
  require (S fuel) modules (Some n) st = Throw TypeError.
Proof. intros Hget. rewrite require_S. simpl. by rewrite Hget. Qed.















(** The registry holds the entry of a module under its id when no other
    module has that id. *)
Lemma modules_get_elem (modules : registry) (n : nat)
    (entry : module_function * option object) :
  NoDup (fst <$> modules) -> (n, entry) ∈ modules ->
  modules_get modules n = Some entry.
Proof.
  unfold modules_get. generalize (@None (module_function * option object)) as found.
  induction modules as [|[n' entry'] modules IH]; intros found Hnd Hin; csimpl.
  - by apply elem_of_nil in Hin.
  - apply NoDup_cons in Hnd as [Hnotin Hnd].
    apply elem_of_cons in Hin as [[= <- <-]|Hin].
    + rewrite Nat.eqb_refl. clear IH Hnd.
      revert Hnotin. generalize (Some entry) as acc.
      induction modules as [|[n2 e2] modules IH2]; intros acc Hne; csimpl; [done|].
      apply not_elem_of_cons in Hne as [Hne1 Hne2].
      destruct (Nat.eqb_spec n2 n) as [->|_]; [done|]. by apply IH2.
    + by apply IH.
Qed.

(** ** Ends of the loop *)

Section Ends.

Context `{host : Host}.

(** A finished graph has an asset for every path within reach. *)
Lemma reach_in_graph (ID0 : nat) (entry : string) (ID' : nat)
    (graph : list asset) (path : string) :
  Inv ID0 entry (length graph) (ID', graph) ->
  reach entry path ->
  exists a, a ∈ graph /\ filename a = path.
Proof.
  intros HI. induction 1 as [|file deps code d _ (a & Ha & Hname) Hex Hd].
  - destruct (inv_entry _ _ _ _ HI) as (a & Ha & Hname).
    exists a. split; [|done]. by eapply list_elem_of_lookup_2.
  - apply list_elem_of_lookup_1 in Ha as [j Hj].
    destruct (inv_asset _ _ _ _ HI _ _ Hj) as [_ Hexa]. simpl in *.
    rewrite Hname, Hex in Hexa. injection Hexa as Hdeps _.
    rewrite Hdeps in Hd. apply list_elem_of_lookup_1 in Hd as [k Hk].
    destruct (inv_done _ _ _ _ HI j a (lookup_lt_Some _ _ _ Hj) Hj)
      as [_ Hch].
    destruct (Hch _ _ Hk) as (c & Hc & Hcname).
    exists c. split; [by eapply list_elem_of_lookup_2|].
    by rewrite Hcname, Hname.
Qed.

(** In a finished graph an import leads from an asset to a later one. *)
Lemma import_later (ID0 : nat) (entry : string) (ID' : nat)
    (graph : list asset) (j : nat) (a : asset) (file' : string) :
  Inv ID0 entry (length graph) (ID', graph) ->
  graph !! j = Some a ->
  imports (filename a) file' ->
  exists j' c, j < j' /\ graph !! j' = Some c /\ filename c = file'.
Proof.
  intros HI Hj (deps & code & d & Hex & Hd & ->).
  pose proof (lookup_lt_Some _ _ _ Hj) as Hlt.
  destruct (inv_asset _ _ _ _ HI _ _ Hj) as [_ Hexa]. simpl in *.
  rewrite Hex in Hexa. injection Hexa as -> _.
  apply list_elem_of_lookup_1 in Hd as [k Hk].
  destruct (inv_done _ _ _ _ HI j a Hlt Hj) as [_ Hch].
  destruct (Hch _ _ Hk) as (c & Hc & Hname).
  pose proof (inv_offset _ _ _ _ HI j Hlt). simpl in *.
  exists (offset graph j + k), c. split; [lia|done].
Qed.

Lemma import_chain_later (ID0 : nat) (entry : string) (ID' : nat)
    (graph : list asset) (file file' : string) :
  Inv ID0 entry (length graph) (ID', graph) ->
  tc imports file file' ->
  forall j a, graph !! j = Some a -> filename a = file ->
  exists j' c, j < j' /\ graph !! j' = Some c /\ filename c = file'.
Proof.
  intros HI. induction 1 as [file file' Himp|file mid file' Himp _ IH];
    intros j a Hj Hname; subst file.
  - by eapply import_later.
  - destruct (import_later _ _ _ _ _ _ _ HI Hj Himp) as (j1 & c1 & ? & Hc1 & Hn1).
    destruct (IH _ _ Hc1 Hn1) as (j2 & c2 & ? & ? & ?).
    exists j2, c2. split; [lia|done].
Qed.

(** A file within reach that lies on an import cycle would need a place
    in the graph after each of its places: no graph is ever returned. *)
Lemma createGraph_cycle (entry file : string) (fuel ID : nat)
    (graph : list asset) (ID' : nat) :
  reach entry file ->
  tc imports file file ->
  createGraph fuel entry ID <> Done (graph, ID').
Proof.
  intros Hreach Hcycle H. apply createGraph_Done in H as HI.
  assert (Hfar : forall n, exists j c,
            n <= j /\ graph !! j = Some c /\ filename c = file).
  { induction n as [|n (j & c & Hle & Hc & Hname)].
    - destruct (reach_in_graph _ _ _ _ _ HI Hreach) as (a & Ha & Hname).
      apply list_elem_of_lookup_1 in Ha as [j Hj].
      exists j, a. split; [lia|done].
    - destruct (import_chain_later _ _ _ _ _ _ HI Hcycle _ _ Hc Hname)
        as (j' & c' & ? & ? & ?).
      exists j', c'. split; [lia|done]. }
  destruct (Hfar (length graph)) as (j & c & Hle & Hc & _).
  apply lookup_lt_Some in Hc. lia.
Qed.

(** A loop that runs out of fuel has done as many rounds as it had fuel. *)
Lemma for_of_OutOfFuel (s0 s : gstate) (fuel i : nat) :
  steps s0 i s -> for_of fuel i s = OutOfFuel ->
  exists s', steps s0 (i + fuel) s'.
Proof.
  revert i s. induction fuel as [|fuel IH]; intros i s Hst; simpl.
  - intros _. exists s. by rewrite Nat.add_0_r.
  - destruct (s.2 !! i) as [a|] eqn:Hi; [|done]. intros H.
    apply bind_OutOfFuel in H as [H|(s1 & Hbody & H)].
    + by apply for_body_fuel in H.
    + replace (i + S fuel) with (S i + fuel) by lia.
      apply (IH (S i) s1); [|done]. by eapply steps_S.
Qed.

(** On an import tree of depth below [r], [cost r entry] rounds are
    enough. *)
Lemma createGraph_enough_fuel (r : nat) (entry : string) (ID fuel : nat) :
  tree_depth_below r entry = true ->
  cost r entry < fuel ->
  createGraph fuel entry ID <> OutOfFuel.
Proof.
  intros Htree Hfuel H. unfold createGraph in H.
  apply bind_OutOfFuel in H as [H|([mainAsset ID1] & Hmain & H)].
  - rewrite createAsset_extract in H.
    apply bind_OutOfFuel in H as [H|([deps code] & _ & H)]; [|done].
    by apply extract_fuel in H.
  - apply bind_OutOfFuel in H as [H|([ID2 queue] & _ & H)]; [|done].
    pose proof (Inv_init _ _ _ _ Hmain) as H0.
    destruct (for_of_OutOfFuel _ _ _ _ (steps_O _) H) as (s' & Hst).
    assert (Hname : filename mainAsset = entry).
    { destruct (inv_entry _ _ _ _ H0) as (a & [= <-] & Hname). done. }
    assert (Hall : Forall (fun a => tree_depth_below r (filename a) = true)
                     (ID1, [mainAsset]).2).
    { constructor; [by rewrite Hname|constructor]. }
    destruct (steps_cost _ _ r _ _ _ H0 Hall Hst) as [_ Hsum].
    simpl in Hsum. rewrite Hname in Hsum. lia.
Qed.

Lemma children_total (dir : string) (ds : list string) (ID : nat) :
  (forall d, d ∈ ds -> exists deps code,
      extract (path_join dir d) = Done (deps, code)) ->
  exists cs, children dir ds ID = Done cs.
Proof.
  revert ID. induction ds as [|d ds IH]; intros ID Hall; simpl; [eauto|].
  destruct (Hall d) as (deps & code & Hex); [left|]. rewrite Hex. simpl.
  destruct (IH (S ID)) as [cs Hcs]; [intros d' Hd'; apply Hall; by right|].
  rewrite Hcs. simpl. eauto.
Qed.

Lemma sum_list_with_ge_length {A} (f : A -> nat) (l : list A) :
  (forall x, x ∈ l -> 1 <= f x) -> length l <= sum_list_with f l.
Proof.
  induction l as [|x l IH]; intros H; simpl; [done|].
  pose proof (H x ltac:(left)).
  assert (length l <= sum_list_with f l) by (apply IH; intros y Hy; apply H; by right).
  lia.
Qed.

(** When every file within reach can be extracted and imports some file,
    the queue never runs dry: [createGraph] does not return, whatever
    the fuel.  An import cycle is the case in point. *)
Lemma createGraph_loops (entry : string) :
  (forall file, reach entry file ->
     exists d ds code, extract file = Done (d :: ds, code)) ->
  forall fuel ID, createGraph fuel entry ID = OutOfFuel.
Proof.
  intros Hall fuel ID. unfold createGraph.
  destruct (Hall entry (reach_entry _)) as (d0 & ds0 & code0 & Hex0).
  rewrite createAsset_extract, Hex0. simpl.
  set (mainAsset := mkAsset ID entry (d0 :: ds0) code0 None).
  assert (H0 : Inv ID entry 0 (S ID, [mainAsset])).
  { apply Inv_init. by rewrite createAsset_extract, Hex0. }
  assert (Hrun : forall n, exists s, steps (S ID, [mainAsset]) n s).
  { induction n as [|n [s Hst]]; [eexists; constructor|].
    pose proof (steps_Inv _ _ _ _ _ H0 Hst) as HI.
    assert (Hlt : n < length s.2).
    { pose proof (inv_length _ _ _ _ HI) as Hlen.
      pose proof (inv_bound _ _ _ _ HI) as Hb. unfold offset in Hlen.
      assert (n <= sum_list_with (fun a => length (dependencies a)) (take n s.2)).
      { rewrite <- (length_take_le s.2 n) at 1 by done.
        apply sum_list_with_ge_length. intros a Ha.
        apply list_elem_of_lookup_1 in Ha as [j Hj].
        apply lookup_take_Some in Hj as [Hj _].
        destruct (inv_asset _ _ _ _ HI _ _ Hj) as [_ Hexa].
        destruct (Hall _ (inv_reach _ _ _ _ HI _ _ Hj)) as (d & ds & code & Hex).
        rewrite Hex in Hexa. injection Hexa as <- _. simpl. lia. }
      lia. }
    destruct (lookup_lt_is_Some_2 _ _ Hlt) as [a Ha].
    destruct s as [ID1 queue]. simpl in Ha.
    destruct (inv_asset _ _ _ _ HI _ _ Ha) as [_ Hexa].
    destruct (children_total (path_dirname (filename a)) (dependencies a) ID1)
      as [cs Hcs].
    { intros d Hd.
      destruct (Hall (path_join (path_dirname (filename a)) d))
        as (d' & ds' & code' & Hex'); [|eauto].
      eapply reach_import; [apply (inv_reach _ _ _ _ HI _ _ Ha)|exact Hexa|done]. }
    eexists. eapply steps_S; [exact Hst|exact Ha|].
    rewrite (for_body_closed _ _ _ _ Ha), Hcs. reflexivity. }
  destruct (Hrun fuel) as [s Hst].
  pose proof (for_of_steps _ _ _ 0 Hst) as Hfuel.
  rewrite Nat.add_0_r in Hfuel. rewrite Hfuel. reflexivity.
Qed.

End Ends.

(** * The graph of [createGraph] *)

Section GraphTheorems.

Context `{host : Host}.

(** C10.  When the counter is 0 at the start of the call, the asset at
    index [i] of the graph [createGraph] returns has id [i]: the ids are
    0, 1, ..., n-1 in the order of the queue, and the counter is left at
    n. *)
Theorem createGraph_ids_consecutive (fuel : nat) (entry : string)
    (graph : list asset) (ID' : nat) :
  createGraph fuel entry 0 = Done (graph, ID') ->
  (forall i a, graph !! i = Some a -> id a = i) /\
  id <$> graph = seq 0 (length graph) /\
  ID' = length graph.
Proof.
  intros H. apply createGraph_Done in H as HI.
  assert (Hid : forall i a, graph !! i = Some a -> id a = i).
  { intros i a Hi. by destruct (inv_asset _ _ _ _ HI _ _ Hi) as [-> _]. }
  split; [done|]. split; [|apply (inv_counter _ _ _ _ HI)].
  apply list_eq. intros i. rewrite list_lookup_fmap.
  destruct (graph !! i) as [a|] eqn:Hi; simpl.
  - rewrite (Hid _ _ Hi). symmetry. apply lookup_seq.
    split; [done|]. by eapply lookup_lt_Some.
  - symmetry. apply lookup_ge_None. rewrite length_seq.
    by apply lookup_ge_None.
Qed.

(** C1, as the code has it.  The graph holds an asset for every path
    within reach of the entry and for no other path; it holds one asset
    for the entry and one for every import statement of its assets, so a
    path imported from several places has several assets; every
    specifier of an asset is mapped to the id of an asset of the path it
    resolves to; and the mappings of two different assets never hold the
    same id, so two importers of one path are mapped to two assets of
    it. *)
Theorem createGraph_one_asset_per_import (fuel : nat) (entry : string)
    (ID : nat) (graph : list asset) (ID' : nat) :
  createGraph fuel entry ID = Done (graph, ID') ->
  (forall path, reach entry path <-> exists a, a ∈ graph /\ filename a = path) /\
  length graph
    = 1 + sum_list_with (fun a => length (dependencies a)) graph /\
  (forall a s,
      a ∈ graph -> s ∈ dependencies a -> s <> "__proto__" ->
      exists m n c,
        mapping a = Some m /\ obj_get s m = Some n /\
        c ∈ graph /\ id c = n /\
        filename c = path_join (path_dirname (filename a)) s) /\
  (forall j1 j2 a1 a2 s1 s2 m1 m2 n1 n2,
      j1 <> j2 ->
      graph !! j1 = Some a1 -> graph !! j2 = Some a2 ->
      mapping a1 = Some m1 -> mapping a2 = Some m2 ->
      obj_get s1 m1 = Some n1 -> obj_get s2 m2 = Some n2 ->
      n1 <> n2).
Proof.
  intros H. apply createGraph_Done in H as HI. split; [|split; [|split]].
  - intros path. split.
    + by apply (reach_in_graph _ _ _ _ _ HI).
    + intros (a & Ha & <-). apply list_elem_of_lookup_1 in Ha as [j Hj].
      apply (inv_reach _ _ _ _ HI _ _ Hj).
  - pose proof (inv_length _ _ _ _ HI) as Hlen. simpl in Hlen.
    unfold offset in Hlen. rewrite take_ge in Hlen by done. lia.
  - intros a s Ha Hs Hp. apply list_elem_of_lookup_1 in Ha as [j Hj].
    destruct (mapping_child _ _ _ _ _ _ _ HI Hj Hs Hp)
      as (m & k & c & Hm & _ & Hget & _ & Hc & Hid & Hname).
    exists m, (ID + (offset graph j + k)), c.
    split; [done|]. split; [done|].
    split; [by eapply list_elem_of_lookup_2|done].
  - intros j1 j2 a1 a2 s1 s2 m1 m2 n1 n2 Hne Hj1 Hj2 Hm1 Hm2 Hn1 Hn2.
    apply (mapping_no_sharing ID entry ID' graph j1 j2 a1 a2 s1 s2 m1 m2
             n1 n2 HI Hj1 Hj2 Hm1 Hm2 Hn1 Hn2).
    by left.
Qed.

(** C7, as the code has it.  Two distinct specifiers of one module that
    resolve to the same path are mapped to two different ids, each the id
    of an asset of its own for that path.  (The specifier [__proto__] is
    left aside: the assignment [mapping['__proto__'] = id] creates no
    property.) *)
Theorem mapping_separates_specifiers (fuel : nat) (entry : string)
    (ID : nat) (graph : list asset) (ID' : nat) (a : asset)
    (s1 s2 path : string) :
  createGraph fuel entry ID = Done (graph, ID') ->
  a ∈ graph ->
  s1 ∈ dependencies a -> s2 ∈ dependencies a ->
  s1 <> s2 ->
  s1 <> "__proto__" -> s2 <> "__proto__" ->
  path_join (path_dirname (filename a)) s1 = path ->
  path_join (path_dirname (filename a)) s2 = path ->
  exists m n1 n2 c1 c2,
    mapping a = Some m /\
    obj_get s1 m = Some n1 /\ obj_get s2 m = Some n2 /\
    n1 <> n2 /\
    c1 ∈ graph /\ c2 ∈ graph /\
    id c1 = n1 /\ id c2 = n2 /\
    filename c1 = path /\ filename c2 = path.
Proof.
  intros H Ha Hs1 Hs2 Hne Hq1 Hq2 Hp1 Hp2. apply createGraph_Done in H as HI.
  apply list_elem_of_lookup_1 in Ha as [j Hj].
  destruct (mapping_child _ _ _ _ _ _ _ HI Hj Hs1 Hq1)
    as (m & k1 & c1 & Hm & _ & Hget1 & _ & Hc1 & Hid1 & Hname1).
  destruct (mapping_child _ _ _ _ _ _ _ HI Hj Hs2 Hq2)
    as (m' & k2 & c2 & Hm' & _ & Hget2 & _ & Hc2 & Hid2 & Hname2).
  assert (m' = m) as -> by congruence.
  exists m, (ID + (offset graph j + k1)), (ID + (offset graph j + k2)), c1, c2.
  split; [done|]. split; [done|]. split; [done|]. split.
  { apply (mapping_no_sharing ID entry ID' graph j j a a s1 s2 m m _ _
             HI Hj Hj Hm Hm Hget1 Hget2).
    by right. }
  split; [by eapply list_elem_of_lookup_2|].
  split; [by eapply list_elem_of_lookup_2|].
  repeat split; congruence.
Qed.

End GraphTheorems.

Lemma createGraph_ids_consecutive_witness :
  createGraph (host := example_host diamond) 6 "./example/entry.js" 0
    = Done (diamond_graph, 5) /\
  id <$> diamond_graph = seq 0 (length diamond_graph).
Proof.
  assert (H : createGraph (host := example_host diamond) 6
                "./example/entry.js" 0 = Done (diamond_graph, 5))
    by (vm_compute; reflexivity).
  split; [exact H|].
  exact (proj1 (proj2 (createGraph_ids_consecutive
                         (host := example_host diamond) _ _ _ _ H))).
Defined.

(** The diamond refutes C1 as stated: the graph has two assets for [z],
    and the mappings of [x] and [y] send [./z] to different ids. *)
Lemma diamond_two_assets_for_z :
  exists graph x y,
    createGraph (host := example_host diamond) 6 "./example/entry.js" 0
      = Done (graph, 5) /\
    length (filter (fun a => filename a = "example/z") graph) = 2 /\
    graph !! 1 = Some x /\ filename x = "example/x" /\
    graph !! 2 = Some y /\ filename y = "example/y" /\
    (mapping x ≫= obj_get "./z") = Some 3 /\
    (mapping y ≫= obj_get "./z") = Some 4.
Proof.
  eexists diamond_graph, _, _.
  split; [vm_compute; reflexivity|]. split; [vm_compute; reflexivity|].
  split; [reflexivity|]. split; [reflexivity|].
  split; [reflexivity|]. split; [reflexivity|].
  split; reflexivity.
Qed.

Lemma createGraph_one_asset_per_import_witness :
  createGraph (host := example_host diamond) 6 "./example/entry.js" 0
    = Done (diamond_graph, 5) /\
  length diamond_graph
    = 1 + sum_list_with (fun a => length (dependencies a)) diamond_graph.
Proof.
  assert (H : createGraph (host := example_host diamond) 6
                "./example/entry.js" 0 = Done (diamond_graph, 5))
    by (vm_compute; reflexivity).
  split; [exact H|].
  exact (proj1 (proj2 (createGraph_one_asset_per_import
                         (host := example_host diamond) _ _ _ _ _ H))).
Defined.

(** The two spellings refute C7 as stated: [./z] and [./lib/../z] resolve
    to [/app/z], and the mapping sends them to the ids 1 and 2. *)
Lemma aliases_get_two_ids :
  exists graph a m,
    createGraph (host := example_host aliases) 4 "/app/entry.js" 0
      = Done (graph, 3) /\
    graph !! 0 = Some a /\
    dependencies a = ["./z"; "./lib/../z"] /\
    posix.join (posix.dirname (filename a)) "./z" = "/app/z" /\
    posix.join (posix.dirname (filename a)) "./lib/../z" = "/app/z" /\
    mapping a = Some m /\
    obj_get "./z" m = Some 1 /\
    obj_get "./lib/../z" m = Some 2.
Proof.
  eexists aliases_graph, _, _.
  split; [vm_compute; reflexivity|].
  repeat (split; [reflexivity|]). reflexivity.
Qed.

Lemma mapping_separates_specifiers_witness :
  exists m n1 n2 c1 c2,
    mapping (mkAsset 0 "/app/entry.js" ["./z"; "./lib/../z"]
               "require('./z');require('./lib/../z');"
               (Some [("./z", 1); ("./lib/../z", 2)])) = Some m /\
    obj_get "./z" m = Some n1 /\ obj_get "./lib/../z" m = Some n2 /\
    n1 <> n2 /\
    c1 ∈ aliases_graph /\ c2 ∈ aliases_graph /\
    id c1 = n1 /\ id c2 = n2 /\
    filename c1 = "/app/z" /\ filename c2 = "/app/z".
Proof.
  apply (mapping_separates_specifiers (host := example_host aliases)
           4 "/app/entry.js" 0 aliases_graph 3).
  - vm_compute; reflexivity.
  - left.
  - left.
  - right; left.
  - discriminate.
  - discriminate.
  - discriminate.
  - vm_compute; reflexivity.
  - vm_compute; reflexivity.
Defined.

(** * Termination, errors and repeated builds *)

Section BuildTheorems.

Context `{host : Host}.

(** C2, as the code has it.  [createGraph] returns (a graph or the first
    error) when the import tree below the entry has finite depth, that is
    when no import cycle is within reach; [cost r entry] rounds are
    enough.  When a file within reach lies on an import cycle,
    [createGraph] never returns a graph: the files of the cycle are
    extracted again and again.  When moreover every file within reach
    can be extracted and imports some file, as in the cycle where A
    imports B and B imports A, the call never returns at all. *)
Theorem createGraph_terminates_on_trees (entry : string) :
  (forall r ID fuel,
      tree_depth_below r entry = true ->
      cost r entry < fuel ->
      createGraph fuel entry ID <> OutOfFuel) /\
  (forall file,
      reach entry file -> tc imports file file ->
      forall fuel ID graph ID',
        createGraph fuel entry ID <> Done (graph, ID')) /\
  ((forall file, reach entry file ->
      exists d ds code, extract file = Done (d :: ds, code)) ->
   forall fuel ID, createGraph fuel entry ID = OutOfFuel).
Proof.
  split; [|split].
  - intros r ID fuel. apply createGraph_enough_fuel.
  - intros file Hreach Hcycle fuel ID graph ID'.
    by apply (createGraph_cycle entry file).
  - apply createGraph_loops.
Qed.

Lemma main_Done (fuel : nat) (entry : string) (ID : nat) (text : string) :
  main fuel entry ID = Done text ->
  exists graph ID', createGraph fuel entry ID = Done (graph, ID').
Proof.
  unfold main. intros H. apply bind_Done in H as ([graph ID'] & H & _). eauto.
Qed.

Lemma main_Throw (fuel : nat) (entry : string) (ID : nat) (e : error) :
  main fuel entry ID = Throw e <-> createGraph fuel entry ID = Throw e.
Proof.
  unfold main.
  destruct (createGraph fuel entry ID) as [[graph ID']|e'|]; simpl;
    unfold mret, outcome_ret; split; congruence.
Qed.

(** An error of [createGraph] is the error of the extraction of a file
    within reach. *)
Lemma createGraph_Throw (fuel : nat) (entry : string) (ID : nat) (e : error) :
  createGraph fuel entry ID = Throw e ->
  exists file, reach entry file /\ extract file = Throw e.
Proof.
  unfold createGraph. intros H.
  apply bind_Throw in H as [H|([mainAsset ID1] & Hmain & H)].
  - exists entry. split; [constructor|].
    rewrite createAsset_extract in H.
    by apply bind_Throw in H as [H|([deps code] & _ & H)].
  - apply bind_Throw in H as [H|([ID2 queue] & _ & H)]; [|done].
    pose proof (Inv_init _ _ _ _ Hmain) as H0.
    destruct (for_of_Throw _ _ _ _ _ (steps_O _) H) as (n & s1 & a & Hst & Ha & Hb).
    apply (for_body_Throw ID entry n a s1); [|done|done].
    by apply (steps_Inv _ _ _ _ _ H0).
Qed.

Lemma children_Throw_first (dir : string) (ds : list string) (ID : nat)
    (e : error) :
  children dir ds ID = Throw e ->
  exists k d,
    ds !! k = Some d /\
    (exists cs, children dir (take k ds) ID = Done cs) /\
    extract (path_join dir d) = Throw e.
Proof.
  revert ID. induction ds as [|d ds IH]; intros ID; simpl; [done|].
  intros H. apply bind_Throw in H as [H|([deps code] & Hex & H)].
  - exists 0, d. split; [done|]. split; [by exists []|done].
  - apply bind_Throw in H as [H|(cs & _ & H)]; [|done].
    destruct (IH _ H) as (k & d' & Hk & [cs Hcs] & Hd').
    exists (S k), d'. split; [done|]. split; [|done].
    simpl. rewrite Hex. simpl. rewrite Hcs. by eexists.
Qed.

Lemma children_first_Throw (dir : string) (ds : list string) (ID : nat)
    (k : nat) (d : string) (cs : list asset) (e : error) :
  ds !! k = Some d ->
  children dir (take k ds) ID = Done cs ->
  extract (path_join dir d) = Throw e ->
  children dir ds ID = Throw e.
Proof.
  revert ID k cs. induction ds as [|d0 ds IH]; intros ID k cs Hk Hcs He;
    [done|].
  destruct k as [|k]; simpl in *.
  - injection Hk as ->. by rewrite He.
  - apply bind_Done in Hcs as ([deps code] & Hex & Hcs). rewrite Hex. simpl.
    apply bind_Done in Hcs as (cs' & Hcs' & _).
    by rewrite (IH _ _ _ Hk Hcs' He).
Qed.

(** The exception of [createGraph] is the first failure. *)
Lemma createGraph_first_failure (fuel : nat) (entry : string) (ID : nat)
    (e : error) :
  createGraph fuel entry ID = Throw e -> first_failure entry ID e.
Proof.
  unfold createGraph. rewrite createAsset_extract. intros H.
  destruct (extract entry) as [[deps code]|e'|] eqn:Hentry; simpl in H;
    [|left; congruence|done].
  right. apply bind_Throw in H as [H|([ID2 queue] & _ & H)]; [|done].
  destruct (for_of_Throw _ _ _ _ _ (steps_O _) H)
    as (n & [ID1 queue] & a & Hst & Ha & Hb).
  simpl in Ha. rewrite (for_body_closed _ _ _ _ Ha) in Hb.
  apply bind_Throw in Hb as [Hcs|(cs & _ & ?)]; [|done].
  apply children_Throw_first in Hcs as (k & d & Hk & Hpre & Hd).
  by exists deps, code, n, (ID1, queue), a, k, d.
Qed.

Lemma for_of_S_lookup (fuel i : nat) (s : gstate) (a : asset) :
  s.2 !! i = Some a ->
  for_of (S fuel) i s = s' ← for_body i a s; for_of fuel (S i) s'.
Proof. intros Hi. simpl. by rewrite Hi. Qed.

(** The first failure stops the build. *)
Lemma first_failure_Throw (entry : string) (ID : nat) (e : error) :
  first_failure entry ID e ->
  exists fuel, forall fuel', fuel <= fuel' ->
    createGraph fuel' entry ID = Throw e.
Proof.
  intros [H|(deps & code & n & [ID1 queue] & a & k & d
             & Hentry & Hst & Ha & Hk & [cs Hcs] & Hd)].
  - exists 0. intros fuel' _. unfold createGraph.
    by rewrite createAsset_extract, H.
  - exists (S n). intros fuel' Hle. unfold createGraph.
    rewrite createAsset_extract, Hentry. simpl.
    replace fuel' with (n + S (fuel' - S n)) by lia.
    rewrite (for_of_steps _ _ _ _ Hst). simpl in Ha, Hcs.
    rewrite (for_of_S_lookup _ _ _ a) by done.
    rewrite (for_body_closed _ _ _ _ Ha).
    by rewrite (children_first_Throw _ _ _ _ _ _ _ Hk Hcs Hd).
Qed.

Lemma first_failure_unique (entry : string) (ID : nat) (e1 e2 : error) :
  first_failure entry ID e1 -> first_failure entry ID e2 -> e1 = e2.
Proof.
  intros H1 H2.
  destruct (first_failure_Throw _ _ _ H1) as [fuel1 Hf1].
  destruct (first_failure_Throw _ _ _ H2) as [fuel2 Hf2].
  specialize (Hf1 (fuel1 + fuel2) ltac:(lia)).
  specialize (Hf2 (fuel1 + fuel2) ltac:(lia)). congruence.
Qed.

(** C8, as the code has it.  When a file within reach of the entry
    cannot be read, the build prints no bundle and stops, from some
    amount of fuel on, with one exception: the first failure, in the
    order of the queue, among the extractions of the files within reach.
    The first failure stops the build and nothing after it is tried, so
    it is the exception of the unreadable file only when no extraction
    before it fails; a [ReadError] of the build names a file within
    reach that cannot be read, and when no file within reach fails to
    parse, to traverse or to transform, the exception is such a
    [ReadError]. *)
Theorem missing_file_aborts (entry : string) (ID : nat) (path : string) :
  reach entry path ->
  readFileSync path = None ->
  (exists e, first_failure entry ID e /\
     exists fuel, forall fuel', fuel <= fuel' ->
       main fuel' entry ID = Throw e) /\
  (forall fuel text, main fuel entry ID <> Done text) /\
  (forall fuel e, main fuel entry ID = Throw e ->
      first_failure entry ID e /\
      exists file, reach entry file /\ extract file = Throw e) /\
  (forall e1 e2,
      first_failure entry ID e1 -> first_failure entry ID e2 -> e1 = e2) /\
  (forall fuel file, main fuel entry ID = Throw (ReadError file) ->
      reach entry file /\ readFileSync file = None) /\
  ((forall file, reach entry file ->
       extract file <> Throw ParseError /\
       extract file <> Throw TypeError /\
       extract file <> Throw TransformError) ->
   forall fuel e, main fuel entry ID = Throw e ->
     exists file, e = ReadError file /\ reach entry file /\
                  readFileSync file = None).
Proof.
  intros Hreach Hmissing.
  assert (Hnot : forall ID0 ID' graph,
            ~ Inv ID0 entry (length graph) (ID', graph)).
  { intros ID0 ID' graph HI.
    destruct (reach_in_graph _ _ _ _ _ HI Hreach) as (a & Ha & Hname).
    apply list_elem_of_lookup_1 in Ha as [j Hj].
    destruct (inv_asset _ _ _ _ HI _ _ Hj) as [_ Hex].
    rewrite Hname in Hex.
    apply extract_Done in Hex as (content & ? & Hread & _). congruence. }
  assert (Hthrow : forall fuel e, main fuel entry ID = Throw e ->
            exists file, reach entry file /\ extract file = Throw e).
  { intros fuel e H. apply main_Throw in H. by eapply createGraph_Throw. }
  assert (Hfirst : forall fuel e, main fuel entry ID = Throw e ->
            first_failure entry ID e).
  { intros fuel e H. apply main_Throw in H.
    by eapply createGraph_first_failure. }
  assert (Hread : forall fuel e, main fuel entry ID = Throw e ->
            forall file, e = ReadError file ->
            reach entry file /\ readFileSync file = None).
  { intros fuel e H file ->. destruct (Hthrow _ _ H) as (f & Hf & Hex).
    apply extract_Throw in Hex as [[[= ->] ?]|[[? _]|[[? _]|[? _]]]]; done. }
  assert (Hstop : exists fuel e, forall fuel', fuel <= fuel' ->
            main fuel' entry ID = Throw e).
  { destruct (createAsset entry ID) as [[mainAsset ID1]|e|] eqn:Hmain.
    + pose proof (Inv_init _ _ _ _ Hmain) as H0.
      destruct (reach_queued _ _ _ _ H0 Hreach) as (k & j & Hq).
      destruct (for_of_progress (ID1, [mainAsset]) k) as [[s Hst]|[fuel Hfuel]].
      * destruct (Hq _ _ Hst ltac:(done)) as (a & Ha & Hname).
        destruct (inv_asset _ _ _ _ (steps_Inv _ _ _ _ _ H0 Hst) _ _ Ha)
          as [_ Hex].
        rewrite Hname in Hex.
        apply extract_Done in Hex as (content & ? & Hread' & _). congruence.
      * destruct (for_of fuel 0 (ID1, [mainAsset])) as [[ID2 queue]|e|] eqn:Hloop;
          [|clear Hfuel|done].
        -- exfalso. apply (Hnot ID ID2 queue). apply (createGraph_Done fuel).
           unfold createGraph. by rewrite Hmain; simpl; rewrite Hloop.
        -- exists fuel, e. intros fuel' Hle. apply main_Throw.
           unfold createGraph. rewrite Hmain. simpl.
           rewrite (for_of_mono fuel fuel') by (by rewrite ?Hloop).
           by rewrite Hloop.
    + exists 0, e. intros fuel' _. apply main_Throw.
      unfold createGraph. by rewrite Hmain.
    + rewrite createAsset_extract in Hmain.
      apply bind_OutOfFuel in Hmain as [H|([deps code] & _ & H)]; [|done].
      by apply extract_fuel in H. }
  split; [|split; [|split; [|split; [|split]]]].
  - destruct Hstop as (fuel & e & Hstop). exists e.
    split; [by apply (Hfirst fuel), Hstop|]. by exists fuel.
  - intros fuel text H. apply main_Done in H as (graph & ID' & H).
    by apply createGraph_Done, Hnot in H.
  - intros fuel e H. split; [by eapply Hfirst|by eapply Hthrow].
  - apply first_failure_unique.
  - intros fuel file H. by eapply Hread.
  - intros Hclean fuel e H. destruct (Hthrow _ _ H) as (f & Hf & Hex).
    destruct (Hclean _ Hf) as (Hp & Hs & Ht).
    destruct (extract_Throw _ _ Hex) as [[-> ?]|[[-> _]|[[-> _]|[-> _]]]];
      [|done|done|done].
    exists f. done.
Qed.

(** C9, as the code has it.  The counter is not reset between builds:
    the first build leaves it at the number of its assets above where it
    started, and a second build of the same entry returns the same
    assets with every id, in the assets and in the mappings, moved up
    by that number. *)
Theorem second_build_shifts_ids (fuel : nat) (entry : string) (ID : nat)
    (graph : list asset) (ID' : nat) :
  createGraph fuel entry ID = Done (graph, ID') ->
  ID' = ID + length graph /\
  createGraph fuel entry ID'
    = Done (shift (length graph) <$> graph, ID' + length graph).
Proof.
  intros H. pose proof (createGraph_Done _ _ _ _ _ H) as HI.
  pose proof (inv_counter _ _ _ _ HI) as Hcnt. simpl in Hcnt.
  split; [done|]. subst ID'. set (k := length graph) in *.
  unfold createGraph in *. rewrite createAsset_extract in *.
  destruct (extract entry) as [[deps code]| |]; simpl in *; try done.
  pose proof (for_of_shift k fuel 0
                (S ID, [mkAsset ID entry deps code None])) as Hshift.
  unfold shift_state in Hshift at 1. simpl in Hshift.
  unfold shift in Hshift at 1. simpl in Hshift.
  rewrite Hshift.
  destruct (for_of fuel 0 _) as [[ID2 queue]| |]; simpl in *; try done.
  injection H as -> ->. done.
Qed.

End BuildTheorems.

(** The cycle keeps the traversal between its two files, and each of them
    imports the other. *)
Lemma cycle_imports (file : string) :
  reach (host := example_host cycle) "/app/a.js" file ->
  exists d ds code, extract (host := example_host cycle) file = Done (d :: ds, code).
Proof.
  intros H.
  assert (Hfile : file = "/app/a.js" \/ file = "/app/b.js").
  { induction H as [|file deps code d _ [->| ->] Hex Hd]; [by left| |].
    - vm_compute in Hex. injection Hex as <- <-.
      apply list_elem_of_singleton in Hd as ->. by right.
    - vm_compute in Hex. injection Hex as <- <-.
      apply list_elem_of_singleton in Hd as ->. by left. }
  destruct Hfile as [-> | ->]; vm_compute; eauto.
Qed.

(** The cycle refutes C2 as stated: no amount of fuel makes [createGraph]
    return on it. *)
Lemma cycle_never_returns :
  ~ exists fuel,
      createGraph (host := example_host cycle) fuel "/app/a.js" 0 <> OutOfFuel.
Proof.
  intros [fuel H]. apply H.
  by apply (createGraph_loops (host := example_host cycle) _ cycle_imports).
Qed.

(** In the cycle, [a.js] imports [b.js], which imports [a.js]. *)
Lemma cycle_tc :
  tc (imports (host := example_host cycle)) "/app/a.js" "/app/a.js".
Proof.
  apply (tc_l _ _ "/app/b.js").
  - exists ["./b.js"], "require('./b.js');", "./b.js".
    split; [reflexivity|]. split; [left|reflexivity].
  - apply tc_once.
    exists ["./a.js"], "require('./a.js');", "./a.js".
    split; [reflexivity|]. split; [left|reflexivity].
Qed.

Lemma createGraph_terminates_on_trees_witness :
  (tree_depth_below (host := example_host diamond) 3 "./example/entry.js" = true /\
   cost (host := example_host diamond) 3 "./example/entry.js" < 6 /\
   createGraph (host := example_host diamond) 6 "./example/entry.js" 0
     <> OutOfFuel) /\
  createGraph (host := example_host cycle) 100 "/app/a.js" 0
    <> Done ([], 0) /\
  createGraph (host := example_host cycle) 100 "/app/a.js" 0 = OutOfFuel.
Proof.
  assert (Htree : tree_depth_below (host := example_host diamond) 3
                    "./example/entry.js" = true) by (vm_compute; reflexivity).
  assert (Hcost : cost (host := example_host diamond) 3 "./example/entry.js" < 6)
    by (vm_compute; lia).
  split; [split; [exact Htree|split; [exact Hcost|]]|split].
  - exact (proj1 (createGraph_terminates_on_trees
                    (host := example_host diamond) "./example/entry.js")
             3 0 6 Htree Hcost).
  - exact (proj1 (proj2 (createGraph_terminates_on_trees
                           (host := example_host cycle) "/app/a.js"))
             "/app/a.js" (reach_entry _) cycle_tc 100 0 [] 0).
  - exact (proj2 (proj2 (createGraph_terminates_on_trees
                           (host := example_host cycle) "/app/a.js"))
             cycle_imports 100 0).
Defined.

Lemma broken_reach :
  reach (host := example_host broken) "/app/entry.js" "/app/missing".
Proof.
  exact (reach_import (host := example_host broken) "/app/entry.js"
           "/app/entry.js" ["./missing"] "require('./missing');" "./missing"
           (reach_entry _) eq_refl (list_elem_of_here _ _)).
Qed.

Lemma missing_file_aborts_witness :
  readFileSync (Host := example_host broken) "/app/missing" = None /\
  (exists e, first_failure (host := example_host broken) "/app/entry.js" 0 e /\
     exists fuel, forall fuel', fuel <= fuel' ->
       main (host := example_host broken) fuel' "/app/entry.js" 0 = Throw e) /\
  (forall fuel text,
      main (host := example_host broken) fuel "/app/entry.js" 0 <> Done text).
Proof.
  assert (Hmissing : readFileSync (Host := example_host broken) "/app/missing"
                     = None) by reflexivity.
  pose proof (missing_file_aborts (host := example_host broken)
                "/app/entry.js" 0 "/app/missing" broken_reach Hmissing)
    as (Habort & Hnever & _).
  split; [exact Hmissing|]. split; [exact Habort|exact Hnever].
Defined.

Lemma bad_then_missing_reach :
  reach (host := example_host bad_then_missing)
        "/app/entry.js" "/app/missing".
Proof.
  exact (reach_import (host := example_host bad_then_missing) "/app/entry.js"
           "/app/entry.js" ["./bad"; "./missing"]
           "require('./bad');require('./missing');" "./missing"
           (reach_entry _) eq_refl
           (list_elem_of_further _ _ _ (list_elem_of_here _ _))).
Qed.

(** A parse error met first refutes C8 as stated: [/app/missing] is
    within reach and cannot be read, and the build stops with the
    [ParseError] of [/app/bad], which is imported before it; no amount of
    fuel gives a [ReadError]. *)
Lemma parse_error_before_missing_file :
  reach (host := example_host bad_then_missing)
        "/app/entry.js" "/app/missing" /\
  readFileSync (Host := example_host bad_then_missing) "/app/missing"
    = None /\
  (forall fuel, 2 <= fuel ->
     main (host := example_host bad_then_missing) fuel "/app/entry.js" 0
     = Throw ParseError) /\
  (forall fuel file,
     main (host := example_host bad_then_missing) fuel "/app/entry.js" 0
     <> Throw (ReadError file)).
Proof.
  assert (H2 : forall fuel, 2 <= fuel ->
     main (host := example_host bad_then_missing) fuel "/app/entry.js" 0
     = Throw ParseError).
  { intros [|[|fuel]] Hle; [lia|lia|]. reflexivity. }
  split; [exact bad_then_missing_reach|]. split; [reflexivity|].
  split; [exact H2|].
  intros [|[|fuel]] file; [done|done|]. by rewrite H2 by lia.
Qed.

(** On the broken entry the script stops with the error of the read. *)
Example broken_main :
  main (host := example_host broken) 5 "/app/entry.js" 0
  = Throw (ReadError "/app/missing").
Proof. vm_compute. reflexivity. Qed.

(** Two builds in a row refute C9 as stated: the second build of the
    diamond starts from the counter 5 the first one left, its entry has
    id 5, and its result differs from the first. *)
Lemma second_build_differs :
  exists first second a,
    createGraph (host := example_host diamond) 6 "./example/entry.js" 0
      = Done (first, 5) /\
    createGraph (host := example_host diamond) 6 "./example/entry.js" 5
      = Done (second, 10) /\
    first <> second /\
    second !! 0 = Some a /\ filename a = "./example/entry.js" /\ id a = 5.
Proof.
  eexists diamond_graph, (shift 5 <$> diamond_graph), _.
  split; [vm_compute; reflexivity|]. split; [vm_compute; reflexivity|].
  split; [discriminate|]. split; [reflexivity|]. split; reflexivity.
Qed.

Lemma second_build_shifts_ids_witness :
  createGraph (host := example_host diamond) 6 "./example/entry.js" 0
    = Done (diamond_graph, 5) /\
  createGraph (host := example_host diamond) 6 "./example/entry.js" 5
    = Done (shift 5 <$> diamond_graph, 10).
Proof.
  assert (H : createGraph (host := example_host diamond) 6
                "./example/entry.js" 0 = Done (diamond_graph, 5))
    by (vm_compute; reflexivity).
  split; [exact H|].
  exact (proj2 (second_build_shifts_ids (host := example_host diamond)
                  _ _ _ _ _ H)).
Defined.

(** * The bundle at run time *)

Section RuntimeTheorems.

Context `{host : Host}.
Variable engine : string -> module_function.

Lemma modules_get_none (modules : registry) (n : nat) :
  (forall entry, entry ∈ modules -> entry.1 <> n) ->
  modules_get modules n = None.
Proof.
  unfold modules_get. generalize (@None (module_function * option object)).
  induction modules as [|entry modules IH]; intros found Hall; simpl; [done|].
  destruct (Nat.eqb_spec entry.1 n) as [Heq|_].
  - by destruct (Hall entry ltac:(left)).
  - apply IH. intros e He. apply Hall. by right.
Qed.

(** In a graph of [createGraph] the registry finds every asset under its
    id. *)
Lemma modules_of_get (ID0 : nat) (entry : string) (ID' : nat)
    (graph : list asset) (j : nat) (a : asset) :
  Inv ID0 entry (length graph) (ID', graph) ->
  graph !! j = Some a ->
  modules_get (modules_of engine graph) (id a)
  = Some (engine (code a), mapping a).
Proof.
  intros HI Hj. apply modules_get_elem.
  - unfold modules_of. rewrite <- list_fmap_compose.
    assert (Hids : (fst ∘ (fun mod_ => (id mod_, (engine (code mod_), mapping mod_))))
                     <$> graph
                   = (fun j => ID0 + j) <$> seq 0 (length graph)).
    { apply list_eq. intros i. rewrite !list_lookup_fmap.
      destruct (graph !! i) as [c|] eqn:Hi; simpl.
      - destruct (inv_asset _ _ _ _ HI _ _ Hi) as [-> _].
        rewrite lookup_seq_lt by (by eapply lookup_lt_Some). done.
      - rewrite lookup_seq_ge by (by apply lookup_ge_None). done. }
    rewrite Hids. apply NoDup_fmap_2; [|apply NoDup_seq].
    intros x y. lia.
  - unfold modules_of.
    apply (list_elem_of_fmap_2 (fun mod_ => (id mod_, (engine (code mod_), mapping mod_)))).
    by eapply list_elem_of_lookup_2.
Qed.

(** C3, as the code has it.  The entry is the first asset of the graph
    and its id is the value of the counter at the start of the call.
    When that value is 0, as it is for the one call the script makes,
    [require(0)] of the bundle finds the entry and runs its code; in a
    later call the entry has another id and [require(0)] finds no module
    under 0. *)
Theorem entry_is_module_zero (fuel : nat) (entry : string) (ID : nat)
    (graph : list asset) (ID' : nat) :
  createGraph fuel entry ID = Done (graph, ID') ->
  exists a rest,
    graph = a :: rest /\
    id a = ID /\
    filename a = entry /\
    extract entry = Done (dependencies a, code a) /\
    (ID = 0 -> forall fuel',
        run_bundle engine (S fuel') graph =
        st ← run_body
               (fun name st =>
                  m ← orThrow TypeError (mapping a);
                  require fuel' (modules_of engine graph) (obj_get name m) st)
               (engine (code a) (VObject 1) (VObject 0))
               (mkRstate [[]; [("exports", VObject 0)]] [0]);
        mret (load 1 "exports" st, st)) /\
    (ID <> 0 -> forall fuel',
        run_bundle engine fuel' graph = Throw TypeError \/
        run_bundle engine fuel' graph = OutOfFuel).
Proof.
  intros H. pose proof (createGraph_Done _ _ _ _ _ H) as HI.
  destruct (inv_entry _ _ _ _ HI) as (a & Ha & Hname). simpl in Ha.
  destruct graph as [|a' rest]; [done|]. injection Ha as ->.
  destruct (inv_asset _ _ _ _ HI 0 a eq_refl) as [Hid Hex].
  rewrite Nat.add_0_r in Hid. rewrite Hname in Hex.
  exists a, rest. split; [done|]. split; [done|]. split; [done|].
  split; [done|]. split.
  - intros -> fuel'. unfold run_bundle.
    pose proof (modules_of_get _ _ _ _ 0 a HI eq_refl) as Hget.
    rewrite Hid in Hget. by rewrite (require_found _ _ _ _ _ _ Hget).
  - intros Hne fuel'. unfold run_bundle.
    destruct fuel' as [|fuel']; [by right|]. left.
    apply require_missing. apply modules_get_none.
    intros e He. apply list_elem_of_fmap in He as (c & -> & Hc). simpl.
    apply list_elem_of_lookup_1 in Hc as [j Hj].
    destruct (inv_asset _ _ _ _ HI _ _ Hj) as [-> _]. lia.
Qed.

End RuntimeTheorems.




(** Requiring the module twice gives two objects and two calls. *)
Example one_module_twice :
  ('(v1, st) ← require 1 one_module (Some 0) (mkRstate [] []);
   '(v2, st) ← require 1 one_module (Some 0) st;
   mret (v1, v2, trace st))
  = Done (VObject 0, VObject 2, [0; 0]).
Proof. vm_compute. reflexivity. Qed.

(** The second build of the diamond refutes C3 as stated: the first build
    leaves the counter at 5, the entry of the second build has id 5, and
    [require(0)] of its bundle finds no module. *)
Lemma second_build_entry_not_zero :
  exists graph a,
    createGraph (host := example_host diamond) 6 "./example/entry.js" 0
      = Done (diamond_graph, 5) /\
    createGraph (host := example_host diamond) 6 "./example/entry.js" 5
      = Done (graph, 10) /\
    graph !! 0 = Some a /\ filename a = "./example/entry.js" /\ id a = 5 /\
    run_bundle example_engine 10 graph = Throw TypeError.
Proof.
  eexists (shift 5 <$> diamond_graph), _.
  split; [vm_compute; reflexivity|].
  split; [vm_compute; reflexivity|]. split; [reflexivity|].
  split; [reflexivity|]. split; [reflexivity|]. vm_compute. reflexivity.
Qed.

Lemma entry_is_module_zero_witness :
  createGraph (host := example_host diamond) 6 "./example/entry.js" 0
    = Done (diamond_graph, 5) /\
  exists a rest,
    diamond_graph = a :: rest /\ id a = 0 /\
    filename a = "./example/entry.js".
Proof.
  assert (H : createGraph (host := example_host diamond) 6
                "./example/entry.js" 0 = Done (diamond_graph, 5))
    by (vm_compute; reflexivity).
  split; [exact H|].
  destruct (entry_is_module_zero (host := example_host diamond) example_engine
              _ _ _ _ _ H) as (a & rest & Hg & Hid & Hname & _).
  exists a, rest. split; [exact Hg|]. split; [exact Hid|exact Hname].
Defined.

(** The bundle of the diamond runs the entry first, then [x], [z], [y]
    and [z] again. *)
Example diamond_run :
  (fun r => (r.1, trace r.2)) <$> 
    (match run_bundle example_engine 10 diamond_graph with
     | Done r => Some r | _ => None end)
  = Some (VObject 0, [0; 1; 3; 2; 4]).
Proof. vm_compute. reflexivity. Qed.

(** * The text of the bundle *)

(** The key of an entry is the decimal numeral of the id: it reads back
    as the id and has no zero in front. *)
Lemma string_of_nat_numeral (n : nat) :
  exists d, NilZero.uint_of_string (string_of_nat n) = Some d /\
            Decimal.unorm d = d /\ Nat.of_uint d = n.
Proof.
  assert (Hnorm : Decimal.unorm (Nat.to_uint n) = Nat.to_uint n).
  { rewrite <- DecimalNat.Unsigned.to_of.
    by rewrite DecimalNat.Unsigned.of_to. }
  exists (Nat.to_uint n). split; [|split; [done|]].
  - unfold string_of_nat. apply NilZero.usu. rewrite <- Hnorm.
    apply DecimalFacts.unorm_nonnil.
  - apply DecimalNat.Unsigned.of_to.
Qed.

(** C5.  The text of the bundle, for every graph: one function applied
    on the spot to an object literal.  The function defines
    [require(id)], which takes [fn] and [mapping] from [modules[id]],
    defines a [localRequire] over that mapping, builds a new [module]
    object, calls [fn(localRequire, module, module.exports)] and returns
    [module.exports]; its last statement is the one call [require(0)].
    The object literal has one entry per module of the graph, in the
    order of the graph: the key is the decimal numeral of the id of the
    module, the value is the pair of the code of the module inside a
    function of [(require, module, exports)] and of the serialized
    mapping. *)
Theorem bundle_shape `{host : Host} (graph : list asset) :
  bundle graph =
    "
    (function(modules) {
      function require(id) {
        const [fn, mapping] = modules[id];

        function localRequire(name) {
          return require(mapping[name]);
        }

        const module = { exports : {} };

        fn(localRequire, module, module.exports);

        return module.exports;
      }

      require(0);
    })({" +:+
    join_all ((fun mod_ =>
                 string_of_nat (id mod_) +:+ ": [
      function (require, module, exports) {
        " +:+ code mod_ +:+ "
      },
      " +:+ JSON_stringify (mapping mod_) +:+ ",
    ],") <$> graph) +:+
    "})
  " /\
  Forall (fun mod_ =>
            exists d,
              NilZero.uint_of_string (string_of_nat (id mod_)) = Some d /\
              Decimal.unorm d = d /\ Nat.of_uint d = id mod_) graph.
Proof.
  split; [|apply Forall_forall; intros mod_ _; apply string_of_nat_numeral].
  unfold bundle. rewrite fold_left_append.
  change ("" +:+ ?x) with x.
  reflexivity.
Qed.

Lemma bundle_shape_witness :
  bundle (host := example_host [])
    [mkAsset 0 "/app/entry.js" [] "exports.answer = 42;" (Some []);
     mkAsset 12 "/app/z" [] "exports.z = 1;" (Some [("./w", 3)])]
  = "
    (function(modules) {
      function require(id) {
        const [fn, mapping] = modules[id];

        function localRequire(name) {
          return require(mapping[name]);
        }

        const module = { exports : {} };

        fn(localRequire, module, module.exports);

        return module.exports;
      }

      require(0);
    })({0: [
      function (require, module, exports) {
        exports.answer = 42;
      },
      {},
    ],12: [
      function (require, module, exports) {
        exports.z = 1;
      },
      {" +:+ quote +:+ "./w" +:+ quote +:+ ":3},
    ],})
  ".
Proof.
  rewrite (proj1 (bundle_shape (host := example_host []) _)).
  vm_compute. reflexivity.
Defined.

(** The bundle of a graph with one module. *)
Example bundle_text :
  bundle (host := example_host [])
    [mkAsset 0 "/app/entry.js" [] "exports.answer = 42;" (Some [])]
  = unlines [
      "";
      "    (function(modules) {";
      "      function require(id) {";
      "        const [fn, mapping] = modules[id];";
      "";
      "        function localRequire(name) {";
      "          return require(mapping[name]);";
      "        }";
      "";
      "        const module = { exports : {} };";
      "";
      "        fn(localRequire, module, module.exports);";
      "";
      "        return module.exports;";
      "      }";
      "";
      "      require(0);";
      "    })({0: [";
      "      function (require, module, exports) {";
      "        exports.answer = 42;";
      "      },";
      "      {},";
      "    ],})";
      "  " ].
Proof. vm_compute. reflexivity. Qed.

(** * What the extractors collect *)

Lemma createDependencyGraph_collects `{host : Host} (ast : node) :
  traverse createDependencyGraph_visitor ast []
  = if traverse_scope ast then Done (spec_collect ast) else Throw TypeError.
Proof. apply (traverse_pushes _ _ createDependencyGraph_visitor_pushes). Qed.

(** One call of [createDependencyGraph] on a file that reads and parses:
    when the tree is traversed, the specifiers of [spec_collect] are
    resolved in order, then the resolved files are visited. *)
Lemma createDependencyGraph_unfold `{host : Host} (fuel : nat)
    (file : string) (counter : nat) (content : string) (ast : node) :
  readFileSync file = Some content ->
  babylon_parse content = Some ast ->
  DependencyGraph.createDependencyGraph (S fuel) file counter =
  if traverse_scope ast then
    resolved ← forEach (fun relativeFilename acc =>
        fullFilename ← orThrow (ResolutionError relativeFilename)
          (resolveFrom (path_dirname file) relativeFilename);
        mret (obj_set relativeFilename fullFilename acc))
      (spec_collect ast) [];
    forEach (fun fullFilename '(acc, counter) =>
        '(result, counter) ←
          DependencyGraph.createDependencyGraph fuel fullFilename counter;
        mret (spread acc result, counter))
      (Object_values resolved)
      ([(file, DependencyGraph.mkInfo counter ast content resolved)],
       S counter)
  else Throw TypeError.
Proof.
  intros Hread Hparse. simpl. rewrite Hread. simpl. rewrite Hparse. simpl.
  rewrite createDependencyGraph_collects.
  by destruct (traverse_scope ast).
Qed.

Lemma createDependencyGraph_S `{host : Host} (fuel : nat) (file : string)
    (counter : nat) (content : string) (ast : node) :
  readFileSync file = Some content ->
  babylon_parse content = Some ast ->
  traverse_scope ast = true ->
  DependencyGraph.createDependencyGraph (S fuel) file counter =
  resolved ← forEach (fun relativeFilename acc =>
      fullFilename ← orThrow (ResolutionError relativeFilename)
        (resolveFrom (path_dirname file) relativeFilename);
      mret (obj_set relativeFilename fullFilename acc))
    (spec_collect ast) [];
  forEach (fun fullFilename '(acc, counter) =>
      '(result, counter) ←
        DependencyGraph.createDependencyGraph fuel fullFilename counter;
      mret (spread acc result, counter))
    (Object_values resolved)
    ([(file, DependencyGraph.mkInfo counter ast content resolved)],
     S counter).
Proof.
  intros Hread Hparse Hscope.
  by rewrite (createDependencyGraph_unfold _ _ _ _ _ Hread Hparse), Hscope.
Qed.

Lemma Object_values_one {V} (k : string) (v : V) :
  Object_values [(k, v)] = [v].
Proof.
  unfold Object_values, own_entries. simpl.
  by destruct (array_index k).
Qed.

(** A file whose one import runs out of fuel runs out of fuel. *)
Lemma createDependencyGraph_one_import `{host : Host} (fuel : nat)
    (file : string) (counter : nat) (content : string) (ast : node)
    (d full : string) :
  readFileSync file = Some content ->
  babylon_parse content = Some ast ->
  traverse_scope ast = true ->
  spec_collect ast = [d] ->
  resolveFrom (path_dirname file) d = Some full ->
  DependencyGraph.createDependencyGraph fuel full (S counter) = OutOfFuel ->
  DependencyGraph.createDependencyGraph (S fuel) file counter = OutOfFuel.
Proof.
  intros Hread Hparse Hscope Hcollect Hres Hrec.
  rewrite (createDependencyGraph_S _ _ _ _ _ Hread Hparse Hscope), Hcollect.
  cbn [forEach]. rewrite Hres. simpl. rewrite Object_values_one.
  cbn [forEach]. by rewrite Hrec.
Qed.

(** C4, as the code has it.  [createAsset] collects the specifiers of the
    static import declarations, in the order of the source, and nothing
    else; the extractor of [createDependencyGraph] collects these and the
    arguments of the calls of [require] with exactly one string literal,
    in the order of the source, and resolves them in that order.  (Both
    collect when babel-traverse accepts the tree; otherwise both calls
    stop with its [TypeError].) *)
Theorem extractors_collect `{host : Host} :
  (forall file ID a ID',
      createAsset file ID = Done (a, ID') ->
      exists content ast,
        readFileSync file = Some content /\
        babylon_parse content = Some ast /\
        dependencies a = flat_map import_specifier (entered ast)) /\
  (forall ast,
      traverse createDependencyGraph_visitor ast []
      = if traverse_scope ast then Done (spec_collect ast)
        else Throw TypeError) /\
  (forall fuel file counter content ast,
      readFileSync file = Some content ->
      babylon_parse content = Some ast ->
      DependencyGraph.createDependencyGraph (S fuel) file counter =
      if traverse_scope ast then
        resolved ← forEach (fun relativeFilename acc =>
            fullFilename ← orThrow (ResolutionError relativeFilename)
              (resolveFrom (path_dirname file) relativeFilename);
            mret (obj_set relativeFilename fullFilename acc))
          (spec_collect ast) [];
        forEach (fun fullFilename '(acc, counter) =>
            '(result, counter) ←
              DependencyGraph.createDependencyGraph fuel fullFilename counter;
            mret (spread acc result, counter))
          (Object_values resolved)
          ([(file, DependencyGraph.mkInfo counter ast content resolved)],
           S counter)
      else Throw TypeError).
Proof.
  split; [|split; [apply createDependencyGraph_collects|]].
  - intros file ID a ID' H. rewrite createAsset_extract in H.
    apply bind_Done in H as ([deps code] & Hex & H). injection H as <- _.
    apply extract_Done in Hex as (content & ast & ? & ? & _ & _ & ->).
    by exists content, ast.
  - intros fuel file counter content ast. apply createDependencyGraph_unfold.
Qed.

(** A file with a [require] call and an [import] refutes C4 as stated:
    [createAsset] collects the import alone. *)
Lemma createAsset_misses_require :
  exists a,
    createAsset (host := example_host mixed) "/app/entry.js" 0 = Done (a, 1) /\
    babylon_parse (Host := example_host mixed)
      "const b = require('./b'); import c from './c';" = Some mixed_ast /\
    spec_collect mixed_ast = ["./b"; "./c"] /\
    dependencies a = ["./c"].
Proof.
  eexists. split; [vm_compute; reflexivity|].
  split; [reflexivity|]. split; reflexivity.
Qed.

Lemma extractors_collect_witness :
  createAsset (host := example_host mixed) "/app/entry.js" 0
    = Done (mkAsset 0 "/app/entry.js" ["./c"] "require('./c');" None, 1) /\
  exists content ast,
    readFileSync (Host := example_host mixed) "/app/entry.js" = Some content /\
    babylon_parse (Host := example_host mixed) content = Some ast /\
    ["./c"] = flat_map import_specifier (entered ast).
Proof.
  assert (H : createAsset (host := example_host mixed) "/app/entry.js" 0
              = Done (mkAsset 0 "/app/entry.js" ["./c"] "require('./c');" None, 1))
    by (vm_compute; reflexivity).
  split; [exact H|].
  exact (proj1 (extractors_collect (host := example_host mixed)) _ _ _ _ H).
Defined.

(** The recursive bundler on the same file resolves both. *)
Example createDependencyGraph_collects_both :
  match DependencyGraph.createDependencyGraph (host := example_host mixed)
          3 "/app/entry.js" 0 with
  | Done (graph, _) => Some (graph.*1)
  | _ => None
  end = Some ["/app/entry.js"; "/app/b"; "/app/c"].
Proof. vm_compute. reflexivity. Qed.

(** The recursive bundler does not return on the cycle either: each call
    for one file calls itself for the other. *)
Lemma createDependencyGraph_cycle (fuel : nat) :
  forall counter,
    DependencyGraph.createDependencyGraph (host := example_host cycle)
      fuel "/app/a.js" counter = OutOfFuel /\
    DependencyGraph.createDependencyGraph (host := example_host cycle)
      fuel "/app/b.js" counter = OutOfFuel.
Proof.
  induction fuel as [|fuel IH]; intros counter; [done|].
  split.
  - apply (createDependencyGraph_one_import (host := example_host cycle)
             fuel "/app/a.js" counter "import b from './b.js';"
             (File [ImportDeclaration "./b.js"]) "./b.js" "/app/b.js");
      [reflexivity|reflexivity|reflexivity|reflexivity
      |vm_compute; reflexivity|apply IH].
  - apply (createDependencyGraph_one_import (host := example_host cycle)
             fuel "/app/b.js" counter "import a from './a.js';"
             (File [ImportDeclaration "./a.js"]) "./a.js" "/app/a.js");
      [reflexivity|reflexivity|reflexivity|reflexivity
      |vm_compute; reflexivity|apply IH].
Qed.

(** * More on the graph of [createGraph] *)

Lemma last_occurrence (s : string) (ds : list string) :
  s ∈ ds ->
  exists k, ds !! k = Some s /\ forall k', k < k' -> ds !! k' <> Some s.
Proof.
  induction ds as [|d ds IH]; intros Hin; [by apply elem_of_nil in Hin|].
  destruct (decide (s ∈ ds)) as [Hin'|Hnot].
  - destruct (IH Hin') as (k & Hk & Hlast). exists (S k). split; [done|].
    intros [|k'] Hlt; [lia|]. simpl. apply Hlast. lia.
  - apply elem_of_cons in Hin as [->|?]; [|done].
    exists 0. split; [done|]. intros [|k'] Hlt; [lia|]. simpl.
    intros Hk'. apply Hnot. by eapply list_elem_of_lookup_2.
Qed.

Lemma assign_all_last (s : string) (ds : list string) (ID : nat) (m : object)
    (k : nat) :
  ds !! k = Some s ->
  (forall k', k < k' -> ds !! k' <> Some s) ->
  s <> "__proto__" ->
  obj_get s (assign_all ds ID m) = Some (ID + k).
Proof.
  revert ID m k. induction ds as [|d ds IH]; intros ID m k Hk Hlast Hp;
    [done|].
  destruct k as [|k]; simpl in *.
  - injection Hk as ->. rewrite assign_all_notin.
    + rewrite obj_get_assign_eq by done. f_equal. lia.
    + intros Hin. apply list_elem_of_lookup_1 in Hin as [k' Hk'].
      by apply (Hlast (S k')); [lia|].
  - rewrite (IH (S ID) _ k Hk); [f_equal; lia| |done].
    intros k' Hlt. apply (Hlast (S k')). lia.
Qed.

Section GraphLayout.

Context `{host : Host}.

(** X1.  The queue is in breadth-first order.  The asset made for the
    [k]-th import of the asset at index [j] is at index
    [offset graph j + k], after its importer; it is an asset of the path
    the import resolves to and its id is the counter's first value plus
    that index; and the children of an earlier asset come before the
    children of a later one. *)
Theorem createGraph_breadth_first (fuel : nat) (entry : string) (ID : nat)
    (graph : list asset) (ID' : nat) :
  createGraph fuel entry ID = Done (graph, ID') ->
  (forall j a k d,
      graph !! j = Some a -> dependencies a !! k = Some d ->
      exists c,
        graph !! (offset graph j + k) = Some c /\
        j < offset graph j + k /\
        id a < id c /\
        id c = ID + (offset graph j + k) /\
        filename c = path_join (path_dirname (filename a)) d) /\
  (forall j1 j2 a1,
      j1 < j2 -> graph !! j1 = Some a1 ->
      offset graph j1 + length (dependencies a1) <= offset graph j2).
Proof.
  intros H. apply createGraph_Done in H as HI. split.
  - intros j a k d Hj Hk.
    assert (Hlt : j < length graph) by (by eapply lookup_lt_Some).
    destruct (inv_done _ _ _ _ HI j a Hlt Hj) as [_ Hch].
    destruct (Hch k d Hk) as (c & Hc & Hname).
    pose proof (inv_offset _ _ _ _ HI j Hlt) as Hoff.
    destruct (inv_asset _ _ _ _ HI _ _ Hj) as [Hida _].
    destruct (inv_asset _ _ _ _ HI _ _ Hc) as [Hidc _].
    exists c. simpl in *. repeat split; try done; lia.
  - intros j1 j2 a1 Hlt Hj1. rewrite <- (offset_S graph j1 a1 Hj1).
    apply offset_mono. lia.
Qed.

(** X2.  Every asset of the graph has a mapping, and the mapping holds
    exactly the specifiers of the asset other than [__proto__]: a
    specifier is mapped to the id of the asset made for its last
    occurrence among the imports, so when a module imports one specifier
    twice the asset made for the first occurrence is in no mapping. *)
Theorem createGraph_mapping_exact (fuel : nat) (entry : string) (ID : nat)
    (graph : list asset) (ID' : nat) (j : nat) (a : asset) :
  createGraph fuel entry ID = Done (graph, ID') ->
  graph !! j = Some a ->
  exists m,
    mapping a = Some m /\
    forall s n,
      obj_get s m = Some n <->
      s <> "__proto__" /\
      exists k, dependencies a !! k = Some s /\
                (forall k', k < k' -> dependencies a !! k' <> Some s) /\
                n = ID + (offset graph j + k).
Proof.
  intros H Hj. apply createGraph_Done in H as HI.
  assert (Hlt : j < length graph) by (by eapply lookup_lt_Some).
  destruct (inv_done _ _ _ _ HI j a Hlt Hj) as [Hm _]. simpl in Hm.
  eexists. split; [exact Hm|]. intros s n. split.
  - intros Hget.
    destruct (mapping_key _ _ _ _ _ _ _ _ _ HI Hj Hm Hget) as [Hin Hp].
    split; [done|].
    destruct (last_occurrence _ _ Hin) as (k & Hk & Hlast).
    exists k. split; [done|]. split; [done|].
    rewrite (assign_all_last _ _ _ _ _ Hk Hlast Hp) in Hget.
    injection Hget as <-. lia.
  - intros (Hp & k & Hk & Hlast & ->).
    rewrite (assign_all_last _ _ _ _ _ Hk Hlast Hp). f_equal. lia.
Qed.

(** X3.  A file without import declarations gives a graph of one asset,
    with the empty mapping, and moves the counter by one; two units of
    fuel are enough.  No other entry gives a graph of one asset. *)
Theorem createGraph_leaf (entry : string) (ID : nat) :
  (forall fuel code,
      extract entry = Done ([], code) ->
      createGraph (S (S fuel)) entry ID
      = Done ([mkAsset ID entry [] code (Some [])], S ID)) /\
  (forall fuel graph ID',
      createGraph fuel entry ID = Done (graph, ID') ->
      length graph = 1 ->
      exists code, extract entry = Done ([], code)).
Proof.
  split.
  - intros fuel code H. unfold createGraph.
    rewrite createAsset_extract, H. reflexivity.
  - intros fuel graph ID' H Hlen. apply createGraph_Done in H as HI.
    destruct (inv_entry _ _ _ _ HI) as (a & Ha & Hname). simpl in Ha.
    destruct (inv_asset _ _ _ _ HI _ _ Ha) as [_ Hex]. rewrite Hname in Hex.
    pose proof (inv_length _ _ _ _ HI) as Hoff. simpl in Hoff.
    rewrite Hlen in Hoff. rewrite (offset_S graph 0 a Ha) in Hoff.
    unfold offset in Hoff. rewrite take_0 in Hoff. simpl in Hoff.
    destruct (dependencies a) as [|d ds] eqn:Hdeps; [|simpl in Hoff; lia].
    by exists (code a).
Qed.

(** X4.  What an asset holds.  The asset at index [i] of the graph has
    the id the counter had at the start plus [i], and it holds the
    dependencies and the transformed code of the file it names. *)
Theorem createGraph_asset_contents (fuel : nat) (entry : string) (ID : nat)
    (graph : list asset) (ID' : nat) (i : nat) (a : asset) :
  createGraph fuel entry ID = Done (graph, ID') ->
  graph !! i = Some a ->
  id a = ID + i /\
  exists content ast,
    readFileSync (filename a) = Some content /\
    babylon_parse content = Some ast /\
    traverse createAsset_visitor ast [] = Done (dependencies a) /\
    transformFromAst ast = Some (code a).
Proof.
  intros H Hi. apply createGraph_Done in H as HI.
  destruct (inv_asset _ _ _ _ HI _ _ Hi) as [Hid Hex]. split; [done|].
  apply extract_Done in Hex as (content & ast & ? & ? & Hscope & ? & ->).
  exists content, ast.
  by rewrite (traverse_pushes _ _ createAsset_visitor_pushes), Hscope.
Qed.

End GraphLayout.

Lemma createGraph_breadth_first_witness :
  createGraph (host := example_host diamond) 6 "./example/entry.js" 0
    = Done (diamond_graph, 5) /\
  (forall j1 j2 a1,
      j1 < j2 -> diamond_graph !! j1 = Some a1 ->
      offset diamond_graph j1 + length (dependencies a1)
        <= offset diamond_graph j2).
Proof.
  assert (H : createGraph (host := example_host diamond) 6
                "./example/entry.js" 0 = Done (diamond_graph, 5))
    by (vm_compute; reflexivity).
  split; [exact H|].
  exact (proj2 (createGraph_breadth_first (host := example_host diamond)
                  _ _ _ _ _ H)).
Defined.

Lemma createGraph_mapping_exact_witness :
  exists m,
    Some [("./z", 2)] = Some m /\
    forall s n,
      obj_get s m = Some n <->
      s <> "__proto__" /\
      exists k, ["./z"; "./z"] !! k = Some s /\
                (forall k', k < k' -> ["./z"; "./z"] !! k' <> Some s) /\
                n = 0 + (offset twice_graph 0 + k).
Proof.
  apply (createGraph_mapping_exact (host := example_host twice)
           4 "/app/entry.js" 0 twice_graph 3 0
           (mkAsset 0 "/app/entry.js" ["./z"; "./z"]
                    "require('./z');require('./z');" (Some [("./z", 2)]))).
  - vm_compute. reflexivity.
  - reflexivity.
Defined.

Lemma createGraph_leaf_witness :
  extract (host := example_host diamond) "example/z" = Done ([], "") /\
  createGraph (host := example_host diamond) 2 "example/z" 7
  = Done ([mkAsset 7 "example/z" [] "" (Some [])], 8).
Proof.
  assert (H : extract (host := example_host diamond) "example/z"
              = Done ([], "")) by (vm_compute; reflexivity).
  split; [exact H|].
  exact (proj1 (createGraph_leaf (host := example_host diamond)
                  "example/z" 7) 0 _ H).
Defined.

Lemma createGraph_asset_contents_witness :
  2 = 0 + 2 /\
  exists content ast,
    readFileSync (Host := example_host diamond) "example/y" = Some content /\
    babylon_parse (Host := example_host diamond) content = Some ast /\
    traverse (host := example_host diamond) createAsset_visitor ast []
      = Done ["./z"] /\
    transformFromAst (Host := example_host diamond) ast
      = Some "require('./z');".
Proof.
  apply (createGraph_asset_contents (host := example_host diamond)
           6 "./example/entry.js" 0 diamond_graph 5 2
           (mkAsset 2 "example/y" ["./z"] "require('./z');"
                    (Some [("./z", 4)]))).
  - vm_compute. reflexivity.
  - reflexivity.
Defined.

(** * More on the loader *)



Lemma run_body_not_Done (req : string -> rstate -> outcome (value * rstate))
    (P : string -> Prop) (body : jscode) :
  must_require P body ->
  (forall name st r, P name -> req name st <> Done r) ->
  forall st st', run_body req body st <> Done st'.
Proof.
  intros Hbody Hreq.
  induction body as [| | |name rest IH|o key rest IH|o key v rest IH|rest IH];
    intros st st'; simpl in *; try done.
  - intros H. apply bind_Done in H as ([v st1] & H1 & H2).
    destruct Hbody as [HP|Hbody]; [by apply (Hreq name st (v, st1))|].
    exact (IH _ (Hbody v) _ _ H2).
  - destruct o; [done| |]; by apply IH.
  - destruct o; [done|done|]. by apply IH.
  - by apply IH.
Qed.

Lemma run_body_first_require
    (req : string -> rstate -> outcome (value * rstate))
    (P : string -> Prop) (body : jscode) :
  first_require P body ->
  (forall name st, P name -> req name st = Throw TypeError) ->
  forall st, run_body req body st = Throw TypeError.
Proof.
  intros Hbody Hreq.
  induction body as [| | |name rest IH|o key rest IH|o key v rest IH|rest IH];
    intros st; simpl in *; try done.
  - by rewrite Hreq.
  - destruct o; [done| |]; by apply IH.
  - destruct o; [done|done|]. by apply IH.
  - by apply IH.
Qed.





(** X6.  Modules that require each other never finish.  When the code
    of every module of a set cannot get to its end without a [require]
    of a name that its mapping sends into the set, no call of [require]
    on a module of the set returns: the loader keeps no module it has
    loaded. *)
Theorem require_cycle_never_returns (modules : registry) (P : nat -> Prop) :
  (forall n, P n ->
     exists fn m,
       modules_get modules n = Some (fn, Some m) /\
       forall module exports,
         must_require
           (fun name => exists n', obj_get name m = Some n' /\ P n')
           (fn module exports)) ->
  forall fuel n st r, P n -> require fuel modules (Some n) st <> Done r.
Proof.
  intros Hcyc. induction fuel as [|fuel IH]; intros n st r Hn; [done|].
  destruct (Hcyc n Hn) as (fn & m & Hget & Hbody).
  rewrite (require_found _ _ _ _ _ _ Hget). intros H.
  apply bind_Done in H as (st' & H1 & _). revert H1.
  apply (run_body_not_Done _ _ _ (Hbody _ _)).
  intros name st1 r1 (n' & Hname & Hn'). simpl. rewrite Hname. by apply IH.
Qed.

(** X7.  A module whose code requires a name that its mapping does not
    hold stops the bundle with a [TypeError]: [mapping[name]] is
    [undefined], and [require(undefined)] finds no module to take
    apart.  This is the case when the first [require] of the code is
    with such a name and the code neither ends, nor throws an exception
    of its own, nor loops before it. *)
Theorem require_unmapped_name (fuel : nat) (modules : registry) (n : nat)
    (fn : module_function) (mapping : option object) (st : rstate) :
  modules_get modules n = Some (fn, mapping) ->
  (forall module exports,
     first_require
       (fun name => forall m, mapping = Some m -> obj_get name m = None)
       (fn module exports)) ->
  require (S (S fuel)) modules (Some n) st = Throw TypeError.
Proof.
  intros Hn Hbody. rewrite (require_found _ _ _ _ _ _ Hn).
  rewrite (run_body_first_require _ _ _ (Hbody _ _)); [done|].
  intros name st2 Hname. destruct mapping as [m|]; [|done]. simpl.
  by rewrite (Hname m eq_refl).
Qed.


(** The first module of [chain] loads the second and exports what the
    second exports. *)
Example chain_run :
  require 2 chain (Some 0) (mkRstate [] [])
  = Done (VObject 0,
          mkRstate [[("answer", VNumber 42)]; [("exports", VObject 0)];
                    [("answer", VNumber 42)]; [("exports", VObject 2)]]
                   [0; 1]).
Proof. vm_compute. reflexivity. Qed.

Lemma require_cycle_never_returns_witness :
  is_Some (modules_get two_cycle 1) /\
  forall fuel r,
    require fuel two_cycle (Some 0) (mkRstate [] []) <> Done r.
Proof.
  split; [by eexists|]. intros fuel r.
  apply (require_cycle_never_returns two_cycle (fun n => n = 0 \/ n = 1));
    [|by left].
  intros n [->| ->].
  - eexists _, _. split; [reflexivity|]. intros module exports. simpl.
    left. exists 1. split; [reflexivity|by right].
  - eexists _, _. split; [reflexivity|]. intros module exports. simpl.
    left. exists 0. split; [reflexivity|by left].
Defined.

Lemma require_unmapped_name_witness :
  require 2
    [(0, (fun module exports =>
            CSet exports "a" (VNumber 1) (CRequire "./gone" (fun _ => CReturn)),
          Some [("./b", 1)]))]
    (Some 0) (mkRstate [] [])
  = Throw TypeError.
Proof.
  apply (require_unmapped_name 0 _ 0
           (fun module exports =>
              CSet exports "a" (VNumber 1)
                   (CRequire "./gone" (fun _ => CReturn)))
           (Some [("./b", 1)])).
  - reflexivity.
  - intros module exports m Hm. injection Hm as <-. reflexivity.
Defined.

(** * The bundle of a graph at run time *)


Section BundleRuns.

Context `{host : Host}.
Variable engine : string -> module_function.

(** X8.  What [localRequire] loads.  In the registry of a graph of
    [createGraph], the id the mapping of an asset holds for one of its
    specifiers is the key of one entry, and that entry carries the
    transformed code of the file the specifier resolves to, with the
    mapping of the asset made for it. *)
Theorem local_require_loads_child (fuel : nat) (entry : string) (ID : nat)
    (graph : list asset) (ID' : nat) (a : asset) (s : string) :
  createGraph fuel entry ID = Done (graph, ID') ->
  a ∈ graph ->
  s ∈ dependencies a ->
  s <> "__proto__" ->
  exists m n c,
    mapping a = Some m /\
    obj_get s m = Some n /\
    c ∈ graph /\
    filename c = path_join (path_dirname (filename a)) s /\
    extract (filename c) = Done (dependencies c, code c) /\
    modules_get (modules_of engine graph) n
    = Some (engine (code c), mapping c).
Proof.
  intros H Ha Hs Hp. apply createGraph_Done in H as HI.
  apply list_elem_of_lookup_1 in Ha as [j Hj].
  destruct (mapping_child _ _ _ _ _ _ _ HI Hj Hs Hp)
    as (m & k & c & Hm & _ & Hget & _ & Hc & Hid & Hname).
  exists m, (ID + (offset graph j + k)), c.
  split; [done|]. split; [done|].
  split; [by eapply list_elem_of_lookup_2|]. split; [done|].
  split; [apply (inv_asset _ _ _ _ HI _ _ Hc)|].
  rewrite <- Hid. by eapply modules_of_get.
Qed.


End BundleRuns.

Lemma local_require_loads_child_witness :
  exists m n c,
    Some [("./z", 3)] = Some m /\
    obj_get "./z" m = Some n /\
    c ∈ diamond_graph /\
    filename c = posix.join (posix.dirname "example/x") "./z" /\
    extract (host := example_host diamond) (filename c)
      = Done (dependencies c, code c) /\
    modules_get (modules_of example_engine diamond_graph) n
    = Some (example_engine (code c), mapping c).
Proof.
  apply (local_require_loads_child (host := example_host diamond)
           example_engine 6 "./example/entry.js" 0 diamond_graph 5
           (mkAsset 1 "example/x" ["./z"] "require('./z');"
                    (Some [("./z", 3)])) "./z").
  - vm_compute. reflexivity.
  - right. left.
  - left.
  - discriminate.
Defined.


(** * The first bundler *)

Section EarlierBundler.

Context `{host : Host}.

Lemma parseAsset_createAsset (file : string) (ID : nat) :
  Earlier.parseAsset file ID = createAsset file ID.
Proof. reflexivity. Qed.

Lemma forEach_ext {A S} (f g : A -> S -> outcome S) (xs : list A) (s : S) :
  (forall x s, f x s = g x s) -> forEach f xs s = forEach g xs s.
Proof.
  intros Hfg. revert s. induction xs as [|x xs IH]; intros s; [done|].
  simpl. rewrite Hfg. destruct (g x s); simpl; [apply IH|done|done].
Qed.

Lemma earlier_for_body (i : nat) (a : asset) (ID : nat) (queue : list asset)
    (processedAssets : list nat) :
  Earlier.for_body i a (ID, queue, processedAssets) =
  s' ← for_body i a (ID, queue); mret (s'.1, s'.2, processedAssets ++ [i]).
Proof.
  unfold Earlier.for_body, for_body.
  rewrite (forEach_ext _ (forEach_body i (path_dirname (filename a))))
    by reflexivity.
  by destruct (forEach _ _ _) as [[ID1 queue1]| |].
Qed.

Lemma for_body_length (i : nat) (a : asset) (s s' : gstate) :
  s.2 !! i = Some a -> for_body i a s = Done s' ->
  length s.2 <= length s'.2.
Proof.
  destruct s as [ID queue]. intros Hi H. simpl in Hi.
  rewrite (for_body_closed _ _ _ _ Hi) in H.
  apply bind_Done in H as (cs & _ & H). injection H as <-. simpl.
  rewrite length_app, length_insert. lia.
Qed.

Lemma for_of_length (fuel i : nat) (s s' : gstate) :
  for_of fuel i s = Done s' -> length s.2 <= length s'.2.
Proof.
  revert i s. induction fuel as [|fuel IH]; intros i s H; [done|].
  simpl in H. destruct (s.2 !! i) as [a|] eqn:Hi.
  - apply bind_Done in H as (s1 & H1 & H2).
    apply for_body_length in H1; [|done]. apply IH in H2. lia.
  - by injection H as <-.
Qed.

Lemma earlier_for_of (fuel i : nat) (ID : nat) (queue : list asset)
    (processedAssets : list nat) :
  Earlier.for_of fuel i (ID, queue, processedAssets) =
  s' ← for_of fuel i (ID, queue);
  mret (s'.1, s'.2, processedAssets ++ seq i (length s'.2 - i)).
Proof.
  revert i ID queue processedAssets.
  induction fuel as [|fuel IH]; intros i ID queue processedAssets; [done|].
  cbn [Earlier.for_of for_of fst snd].
  destruct (queue !! i) as [a|] eqn:Hi.
  - rewrite earlier_for_body.
    destruct (for_body i a (ID, queue)) as [[ID1 queue1]| |] eqn:H1;
      [|done|done].
    simpl. rewrite IH.
    destruct (for_of fuel (S i) (ID1, queue1)) as [[ID2 queue2]| |] eqn:H2;
      [|done|done].
    simpl. rewrite <- app_assoc. do 3 f_equal.
    apply for_body_length in H1; [|done]. apply for_of_length in H2.
    apply lookup_lt_Some in Hi. simpl in *.
    replace (length queue2 - i) with (S (length queue2 - S i)) by lia.
    reflexivity.
  - simpl. apply lookup_ge_None in Hi.
    replace (length queue - i) with 0 by lia.
    by rewrite app_nil_r.
Qed.

Lemma objects_of_seq (l1 l2 : list asset) :
  Earlier.objects_of (l1 ++ l2) (seq (length l1) (length l2)) = l2.
Proof.
  revert l1. induction l2 as [|x l2 IH]; intros l1; [done|].
  unfold Earlier.objects_of in *. simpl.
  rewrite list_lookup_middle by done. f_equal.
  specialize (IH (l1 ++ [x])). rewrite <- app_assoc in IH. simpl in IH.
  rewrite length_app in IH. simpl in IH.
  replace (length l1 + 1) with (S (length l1)) in IH by lia. exact IH.
Qed.

(** X10.  The first bundler builds the same graph as the final one.  Its
    [createGraph] keeps a second array, [processedAssets], and returns
    it; its [parseAsset] takes the id before the traversal.  For every
    entry and every value of the counter its outcome, a graph with the
    counter, an error, or no return, is the outcome of the final
    [createGraph]. *)
Theorem earlier_createGraph_same (fuel : nat) (entry : string) (ID : nat) :
  Earlier.createGraph fuel entry ID = createGraph fuel entry ID.
Proof.
  unfold Earlier.createGraph, createGraph. rewrite parseAsset_createAsset.
  destruct (createAsset entry ID) as [[mainAsset ID1]| |]; [|done|done].
  simpl. rewrite earlier_for_of.
  destruct (for_of fuel 0 (ID1, [mainAsset])) as [[ID2 queue]| |];
    [|done|done].
  simpl. rewrite Nat.sub_0_r. f_equal. f_equal.
  exact (objects_of_seq [] queue).
Qed.

End EarlierBundler.

(** * The recursive bundler *)

(** ** Objects and their enumeration *)

Lemma obj_get_Some_elem {V} (k : string) (v : V) (o : jsobject V) :
  obj_get k o = Some v -> (k, v) ∈ o.
Proof.
  induction o as [|[k' v'] o IH]; simpl; [done|].
  destruct (String.eqb_spec k k') as [->|_].
  - intros [= ->]. by left.
  - intros H. right. by apply IH.
Qed.

Lemma obj_get_None {V} (k : string) (o : jsobject V) :
  obj_get k o = None <-> k ∉ o.*1.
Proof.
  induction o as [|[k' v'] o IH]; simpl.
  - split; [intros _; apply not_elem_of_nil|done].
  - rewrite not_elem_of_cons. destruct (String.eqb_spec k k') as [->|Hne].
    + split; [done|]. by intros [? _].
    + rewrite IH. tauto.
Qed.

Lemma obj_get_is_Some {V} (k : string) (o : jsobject V) :
  is_Some (obj_get k o) <-> k ∈ o.*1.
Proof.
  destruct (obj_get k o) as [v|] eqn:H.
  - split; [intros _|by eexists]. apply obj_get_Some_elem in H.
    by apply (list_elem_of_fmap_2 fst) in H.
  - apply obj_get_None in H. split; [by intros [? ?]|done].
Qed.

Lemma obj_get_NoDup {V} (k : string) (v : V) (o : jsobject V) :
  NoDup o.*1 -> (k, v) ∈ o -> obj_get k o = Some v.
Proof.
  induction o as [|[k' v'] o IH]; simpl; intros Hnd Hin;
    [by apply elem_of_nil in Hin|].
  apply NoDup_cons in Hnd as [Hk' Hnd].
  apply elem_of_cons in Hin as [[= -> ->]|Hin].
  - by rewrite String.eqb_refl.
  - destruct (String.eqb_spec k k') as [->|_]; [|by apply IH].
    destruct Hk'. by apply (list_elem_of_fmap_2 fst) in Hin.
Qed.

Lemma obj_set_keys_in {V} (k : string) (v : V) (o : jsobject V) :
  k ∈ o.*1 -> (obj_set k v o).*1 = o.*1.
Proof.
  induction o as [|[k' v'] o IH]; intros Hin; [by apply elem_of_nil in Hin|].
  simpl. destruct (String.eqb_spec k k') as [->|Hne]; [done|].
  simpl. f_equal. apply IH. simpl in Hin.
  by apply elem_of_cons in Hin as [?|?].
Qed.

Lemma obj_set_keys_notin {V} (k : string) (v : V) (o : jsobject V) :
  k ∉ o.*1 -> (obj_set k v o).*1 = o.*1 ++ [k].
Proof.
  induction o as [|[k' v'] o IH]; intros Hnot; [done|].
  simpl in Hnot. apply not_elem_of_cons in Hnot as [Hne Hnot].
  simpl. destruct (String.eqb_spec k k') as [->|_]; [done|].
  simpl. f_equal. by apply IH.
Qed.

Lemma obj_set_NoDup {V} (k : string) (v : V) (o : jsobject V) :
  NoDup o.*1 -> NoDup (obj_set k v o).*1.
Proof.
  intros Hnd. destruct (decide (k ∈ o.*1)) as [Hin|Hnot].
  - by rewrite obj_set_keys_in.
  - rewrite obj_set_keys_notin by done.
    apply NoDup_app. split; [done|]. split; [|apply NoDup_singleton].
    intros x Hx Hx'. apply list_elem_of_singleton in Hx'. by subst.
Qed.

Lemma insert_by_index_perm {V} (n : N) (kv : string * V)
    (l : list (N * (string * V))) :
  snd <$> insert_by_index n kv l ≡ₚ kv :: (snd <$> l).
Proof.
  induction l as [|[n' kv'] l IH]; simpl; [done|].
  destruct (n <? n')%N; simpl; [done|]. rewrite IH. apply Permutation_swap.
Qed.

Lemma own_entries_perm {V} (o : jsobject V) : own_entries o ≡ₚ o.
Proof.
  unfold own_entries.
  assert (H : forall acc : list (N * (string * V)),
    (snd <$> fold_left (fun acc kv =>
        match array_index kv.1 with
        | Some n => insert_by_index n kv acc
        | None => acc
        end) o acc)
    ++ List.filter (fun kv => match array_index kv.1 with
                              | Some _ => false | None => true end) o
    ≡ₚ (snd <$> acc) ++ o).
  { induction o as [|kv o IH]; intros acc; simpl.
    - done.
    - destruct (array_index kv.1) as [n|]; rewrite ?IH.
      + rewrite insert_by_index_perm. simpl. apply Permutation_middle.
      + rewrite <- Permutation_middle. rewrite IH.
        apply Permutation_middle. }
  apply (H []).
Qed.

Lemma own_entries_elem {V} (kv : string * V) (o : jsobject V) :
  kv ∈ own_entries o <-> kv ∈ o.
Proof. by rewrite own_entries_perm. Qed.

Lemma own_entries_NoDup {V} (o : jsobject V) :
  NoDup o.*1 -> NoDup (own_entries o).*1.
Proof. intros H. by rewrite own_entries_perm. Qed.

Lemma own_entries_get {V} (k : string) (o : jsobject V) :
  NoDup o.*1 -> obj_get k (own_entries o) = obj_get k o.
Proof.
  intros Hnd. destruct (obj_get k o) as [v|] eqn:H.
  - apply obj_get_NoDup; [by apply own_entries_NoDup|].
    apply own_entries_elem. by apply obj_get_Some_elem.
  - apply obj_get_None. rewrite own_entries_perm. by apply obj_get_None.
Qed.

Lemma Object_values_elem {V} (v : V) (o : jsobject V) :
  NoDup o.*1 ->
  v ∈ Object_values o <-> exists k, obj_get k o = Some v.
Proof.
  intros Hnd. unfold Object_values. rewrite list_elem_of_fmap. split.
  - intros ([k v'] & -> & Hin). exists k. apply obj_get_NoDup; [done|].
    by apply own_entries_elem.
  - intros [k Hk]. exists (k, v). split; [done|].
    apply own_entries_elem. by apply obj_get_Some_elem.
Qed.

Lemma Object_keys_elem {V} (k : string) (o : jsobject V) :
  k ∈ Object_keys o <-> is_Some (obj_get k o).
Proof.
  unfold Object_keys. rewrite own_entries_perm. by rewrite obj_get_is_Some.
Qed.

Lemma fold_obj_set_get {V} (l : list (string * V)) (acc : jsobject V)
    (k : string) :
  NoDup l.*1 ->
  obj_get k (fold_left (fun o kv => obj_set kv.1 kv.2 o) l acc)
  = match obj_get k l with Some v => Some v | None => obj_get k acc end.
Proof.
  revert acc. induction l as [|[k' v'] l IH]; intros acc Hnd; [done|].
  apply NoDup_cons in Hnd as [Hk' Hnd]. simpl. rewrite (IH _ Hnd).
  destruct (String.eqb_spec k k') as [->|Hne].
  - apply obj_get_None in Hk'. simpl in Hk'. rewrite Hk'.
    apply obj_get_set_eq.
  - by rewrite obj_get_set_ne.
Qed.

Lemma fold_obj_set_NoDup {V} (l : list (string * V)) (acc : jsobject V) :
  NoDup acc.*1 ->
  NoDup (fold_left (fun o kv => obj_set kv.1 kv.2 o) l acc).*1.
Proof.
  revert acc. induction l as [|[k v] l IH]; intros acc Hnd; [done|].
  simpl. apply IH. by apply obj_set_NoDup.
Qed.

Lemma fold_obj_set_head {V} (l : list (string * V)) (k : string) (v : V)
    (rest : jsobject V) :
  k ∉ l.*1 ->
  fold_left (fun o kv => obj_set kv.1 kv.2 o) l ((k, v) :: rest)
  = (k, v) :: fold_left (fun o kv => obj_set kv.1 kv.2 o) l rest.
Proof.
  revert rest. induction l as [|[k' v'] l IH]; intros rest Hk; [done|].
  simpl in Hk. apply not_elem_of_cons in Hk as [Hne Hk]. simpl.
  destruct (String.eqb_spec k' k) as [->|_]; [done|]. by apply IH.
Qed.

Lemma spread_get {V} (acc res : jsobject V) (k : string) :
  NoDup res.*1 ->
  obj_get k (spread acc res)
  = match obj_get k res with Some v => Some v | None => obj_get k acc end.
Proof.
  intros Hnd. unfold spread.
  rewrite fold_obj_set_get by (by apply own_entries_NoDup).
  by rewrite own_entries_get.
Qed.

Lemma spread_NoDup {V} (acc res : jsobject V) :
  NoDup acc.*1 -> NoDup (spread acc res).*1.
Proof. apply fold_obj_set_NoDup. Qed.

Lemma spread_head {V} (k : string) (v : V) (rest res : jsobject V) :
  obj_get k res = None ->
  spread ((k, v) :: rest) res = (k, v) :: spread rest res.
Proof.
  intros Hk. unfold spread. apply fold_obj_set_head.
  rewrite own_entries_perm. by apply obj_get_None.
Qed.

(** ** The graph of [createDependencyGraph] *)

Lemma forEach_not_Done {A S} (body : A -> S -> outcome S) (xs : list A)
    (x : A) :
  x ∈ xs -> (forall s r, body x s <> Done r) ->
  forall s r, forEach body xs s <> Done r.
Proof.
  intros Hin Hx. induction xs as [|y xs IH]; intros s r;
    [by apply elem_of_nil in Hin|].
  simpl. intros H. apply bind_Done in H as (s1 & H1 & H2).
  apply elem_of_cons in Hin as [<-|Hin]; [by apply (Hx s s1)|].
  by apply (IH Hin s1 r).
Qed.


Lemma forEach_Done_elem {A S} (body : A -> S -> outcome S) (xs : list A)
    (s r : S) (x : A) :
  forEach body xs s = Done r -> x ∈ xs ->
  exists s' r', body x s' = Done r'.
Proof.
  revert s. induction xs as [|y xs IH]; intros s H Hin;
    [by apply elem_of_nil in Hin|].
  simpl in H. apply bind_Done in H as (s1 & H1 & H2).
  apply elem_of_cons in Hin as [->|Hin]; [by exists s, s1|].
  by apply (IH s1).
Qed.

Lemma spread_cases {V} (acc res : jsobject V) (k : string) (v : V) :
  NoDup res.*1 ->
  obj_get k (spread acc res) = Some v ->
  obj_get k res = Some v \/ (obj_get k res = None /\ obj_get k acc = Some v).
Proof.
  intros Hnd. rewrite (spread_get _ _ _ Hnd).
  destruct (obj_get k res); [by left|by right].
Qed.

Lemma spread_is_Some {V} (acc res : jsobject V) (k : string) :
  NoDup res.*1 ->
  is_Some (obj_get k res) \/ is_Some (obj_get k acc) ->
  is_Some (obj_get k (spread acc res)).
Proof.
  intros Hnd. rewrite (spread_get _ _ _ Hnd).
  destruct (obj_get k res); [by eexists|]. by intros [[? ?]|?].
Qed.

Section RecursiveGraph.

Context `{host : Host}.

(** The object of the resolved dependencies. *)
Lemma resolved_spec (dir : string) (collected : list string)
    (acc resolved : jsobject string) :
  forEach (fun relativeFilename acc =>
      fullFilename ← orThrow (ResolutionError relativeFilename)
        (resolveFrom dir relativeFilename);
      mret (obj_set relativeFilename fullFilename acc))
    collected acc = Done resolved ->
  NoDup acc.*1 ->
  NoDup resolved.*1 /\
  forall rel full,
    obj_get rel resolved = Some full <->
    (rel ∈ collected /\ resolveFrom dir rel = Some full) \/
    ((rel ∉ collected) /\ obj_get rel acc = Some full).
Proof.
  revert acc. induction collected as [|r rs IH]; intros acc H Hnd.
  - injection H as <-. split; [done|]. intros rel full. split.
    + intros ?. right. split; [apply not_elem_of_nil|done].
    + intros [[Hin _]|[_ ?]]; [by apply elem_of_nil in Hin|done].
  - simpl in H. apply bind_Done in H as (acc1 & H1 & H2).
    destruct (resolveFrom dir r) as [f0|] eqn:Hr; [|done].
    injection H1 as <-.
    destruct (IH _ H2 (obj_set_NoDup _ _ _ Hnd)) as [Hnd' Hget].
    split; [done|]. intros rel full. rewrite Hget, elem_of_cons.
    destruct (decide (rel = r)) as [->|Hne].
    + rewrite obj_get_set_eq, Hr. destruct (decide (r ∈ rs)); intuition auto.
    + rewrite obj_get_set_ne by done. intuition auto.
Qed.

Lemma resolved_total (dir : string) (collected : list string)
    (acc resolved : jsobject string) :
  forEach (fun relativeFilename acc =>
      fullFilename ← orThrow (ResolutionError relativeFilename)
        (resolveFrom dir relativeFilename);
      mret (obj_set relativeFilename fullFilename acc))
    collected acc = Done resolved ->
  forall rel, rel ∈ collected -> is_Some (resolveFrom dir rel).
Proof.
  intros H rel Hin.
  destruct (forEach_Done_elem _ _ _ _ _ H Hin) as (acc' & r' & Hr).
  destruct (resolveFrom dir rel); [by eexists|done].
Qed.

(** No graph on a cycle: when every file of a set has a dependency in the
    set, [createDependencyGraph] returns for none of them. *)
Lemma createDependencyGraph_not_Done (P : string -> Prop) :
  (forall f, P f -> exists f', resolves f f' /\ P f') ->
  forall fuel f c r,
    P f -> DependencyGraph.createDependencyGraph fuel f c <> Done r.
Proof.
  intros Hclosed. induction fuel as [|fuel IH]; intros f c r HP; [done|].
  destruct (Hclosed f HP)
    as (f' & (content & ast & rel & Hread & Hparse & Hscope & Hin & Hres)
           & HP').
  rewrite (createDependencyGraph_S _ _ _ _ _ Hread Hparse Hscope). intros H.
  apply bind_Done in H as (resolved & H1 & H2).
  destruct (resolved_spec _ _ _ _ H1 (NoDup_nil_2)) as [Hnd Hget].
  revert H2. apply (forEach_not_Done _ _ f').
  - apply Object_values_elem; [done|]. exists rel. apply Hget. by left.
  - intros [acc cc] r' H. apply bind_Done in H as ([res cc2] & H & _).
    by apply IH in H.
Qed.

Lemma cycle_closed (f : string) :
  forall x, rtc resolves f x /\ tc resolves x f ->
    exists y, resolves x y /\ (rtc resolves f y /\ tc resolves y f).
Proof.
  intros x [Hfx Hxf]. inversion Hxf as [? ? Hstep|? y ? Hstep Hyf]; subst.
  - exists f. split; [done|]. split; [done|].
    eapply tc_rtc_l; [exact Hfx|]. by apply tc_once.
  - exists y. split; [done|]. split; [|done].
    eapply rtc_r; [exact Hfx|done].
Qed.

Lemma Loop_init (f : string) (c : nat) (content : string) (ast : node)
    (resolved : jsobject string) :
  readFileSync f = Some content ->
  babylon_parse content = Some ast ->
  traverse_scope ast = true ->
  forEach (fun relativeFilename acc =>
      fullFilename ← orThrow (ResolutionError relativeFilename)
        (resolveFrom (path_dirname f) relativeFilename);
      mret (obj_set relativeFilename fullFilename acc))
    (spec_collect ast) [] = Done resolved ->
  Loop c f (DependencyGraph.mkInfo c ast content resolved)
       (Object_values resolved)
       [(f, DependencyGraph.mkInfo c ast content resolved)] (S c) /\
  forall full, full ∈ Object_values resolved -> resolves f full.
Proof.
  intros Hread Hparse Hscope Hres.
  destruct (resolved_spec _ _ _ _ Hres (NoDup_nil_2)) as [Hnd Hget].
  assert (Hdeps : forall rel full,
            obj_get rel resolved = Some full <->
            rel ∈ spec_collect ast /\
            resolveFrom (path_dirname f) rel = Some full).
  { intros rel full. rewrite Hget. simpl. intuition discriminate. }
  assert (Hone : forall k info,
            obj_get k [(f, DependencyGraph.mkInfo c ast content resolved)]
              = Some info ->
            k = f /\ info = DependencyGraph.mkInfo c ast content resolved).
  { intros k info. simpl. destruct (String.eqb_spec k f); [|done].
    by intros [= <-]. }
  split.
  - split.
    + simpl. apply NoDup_singleton.
    + intros k info Hk. apply Hone in Hk as [-> ->]. simpl.
      split; [lia|]. split; try done. simpl. intros rel Hin.
      destruct (resolved_total _ _ _ _ Hres rel Hin) as [full Hfull].
      exists full. by apply Hdeps.
    + intros k1 k2 i1 i2 H1 H2 _.
      apply Hone in H1 as [-> _]. by apply Hone in H2 as [-> _].
    + intros k info rel full Hk Hdep. apply Hone in Hk as [-> ->].
      right. split; [done|]. apply Object_values_elem; [done|]. by exists rel.
    + intros k [info Hk]. by apply Hone in Hk as [-> _].
    + by exists [].
    + lia.
  - intros full Hin. apply Object_values_elem in Hin as [rel Hrel]; [|done].
    apply Hdeps in Hrel as [? ?]. by exists content, ast, rel.
Qed.

Lemma Loop_step (c : nat) (f : string) (info0 : DependencyGraph.info)
    (full0 : string) (rem : list string)
    (acc r : jsobject DependencyGraph.info) (cc cc2 : nat) :
  Loop c f info0 (full0 :: rem) acc cc ->
  graph_ok cc r cc2 -> cc <= cc2 ->
  is_Some (obj_get full0 r) ->
  (forall k, is_Some (obj_get k r) -> rtc resolves full0 k) ->
  resolves f full0 ->
  ~ tc resolves f f ->
  Loop c f info0 rem (spread acc r) cc2.
Proof.
  intros HL Hr Hle Hfull0 Hreach Hres Hnc.
  pose proof (ok_keys _ _ _ Hr) as Hnd.
  pose proof (l_counter _ _ _ _ _ _ HL) as Hc.
  split.
  - apply spread_NoDup, (l_keys _ _ _ _ _ _ HL).
  - intros k info Hk. apply spread_cases in Hk as [Hk|[_ Hk]]; [| |done].
    + destruct (ok_info _ _ _ Hr _ _ Hk) as [? ?]. split; [lia|done].
    + destruct (l_info _ _ _ _ _ _ HL _ _ Hk) as [? ?]. split; [lia|done].
  - intros k1 k2 i1 i2 H1 H2 Hid.
    apply spread_cases in H1 as [H1|[_ H1]]; [| |done];
      (apply spread_cases in H2 as [H2|[_ H2]]; [| |done]).
    + by apply (ok_ids _ _ _ Hr _ _ _ _ H1 H2).
    + destruct (ok_info _ _ _ Hr _ _ H1) as [? _].
      destruct (l_info _ _ _ _ _ _ HL _ _ H2) as [? _]. lia.
    + destruct (l_info _ _ _ _ _ _ HL _ _ H1) as [? _].
      destruct (ok_info _ _ _ Hr _ _ H2) as [? _]. lia.
    + by apply (l_ids _ _ _ _ _ _ HL _ _ _ _ H1 H2).
  - intros k info rel full Hk Hdep.
    apply spread_cases in Hk as [Hk|[_ Hk]]; [| |done].
    + left. apply spread_is_Some; [done|]. left.
      by apply (ok_closed _ _ _ Hr _ _ _ _ Hk Hdep).
    + destruct (l_closed _ _ _ _ _ _ HL _ _ _ _ Hk Hdep) as [?|[-> Hin]].
      * left. apply spread_is_Some; [done|]. by right.
      * apply elem_of_cons in Hin as [->|Hin]; [|by right].
        left. apply spread_is_Some; [done|]. by left.
  - intros k [info Hk]. apply spread_cases in Hk as [Hk|[_ Hk]]; [| |done].
    + eapply rtc_l; [exact Hres|]. apply Hreach. by eexists.
    + apply (l_reach _ _ _ _ _ _ HL). by eexists.
  - destruct (l_head _ _ _ _ _ _ HL) as [rest ->].
    exists (spread rest r). apply spread_head.
    destruct (obj_get f r) as [info|] eqn:Hf; [|done].
    destruct Hnc. eapply tc_rtc_r; [by apply tc_once|].
    apply Hreach. by eexists.
  - lia.
Qed.

Lemma Loop_graph_ok (c : nat) (f : string) (info0 : DependencyGraph.info)
    (graph : jsobject DependencyGraph.info) (c' : nat) :
  Loop c f info0 [] graph c' -> graph_ok c graph c'.
Proof.
  intros HL. split.
  - apply (l_keys _ _ _ _ _ _ HL).
  - apply (l_info _ _ _ _ _ _ HL).
  - apply (l_ids _ _ _ _ _ _ HL).
  - intros k info rel full Hk Hdep.
    destruct (l_closed _ _ _ _ _ _ HL _ _ _ _ Hk Hdep) as [?|[_ Hin]];
      [done|by apply elem_of_nil in Hin].
Qed.

Lemma createDependencyGraph_Done_inv (fuel : nat) (f : string) (c : nat)
    (r : jsobject DependencyGraph.info * nat) :
  DependencyGraph.createDependencyGraph fuel f c = Done r ->
  exists fuel' content ast,
    fuel = S fuel' /\
    readFileSync f = Some content /\ babylon_parse content = Some ast /\
    traverse_scope ast = true.
Proof.
  destruct fuel as [|fuel]; [done|]. simpl.
  destruct (readFileSync f) as [content|] eqn:Hread; [|done]. simpl.
  destruct (babylon_parse content) as [ast|] eqn:Hparse; [|done]. simpl.
  unfold traverse.
  destruct (traverse_scope ast) eqn:Hscope; [|done].
  intros _. by exists fuel, content, ast.
Qed.

(** What [createDependencyGraph] returns. *)
Lemma createDependencyGraph_ok (fuel : nat) :
  forall f c graph c',
    DependencyGraph.createDependencyGraph fuel f c = Done (graph, c') ->
    graph_ok c graph c' /\ c < c' /\
    (forall k, is_Some (obj_get k graph) -> rtc resolves f k) /\
    exists content ast resolved rest,
      graph = (f, DependencyGraph.mkInfo c ast content resolved) :: rest.
Proof.
  induction fuel as [|fuel IH]; intros f c graph c' H; [done|].
  assert (Hnc : ~ tc resolves f f).
  { intros Hcyc.
    apply (createDependencyGraph_not_Done _ (cycle_closed f) _ _ _ _
             (conj (rtc_refl _ _) Hcyc) H). }
  destruct (createDependencyGraph_Done_inv _ _ _ _ H)
    as (fuel' & content & ast & [= <-] & Hread & Hparse & Hscope).
  rewrite (createDependencyGraph_S _ _ _ _ _ Hread Hparse Hscope) in H.
  apply bind_Done in H as (resolved & Hres & H).
  destruct (Loop_init f c content ast resolved Hread Hparse Hscope Hres)
    as [HL Hall].
  set (info0 := DependencyGraph.mkInfo c ast content resolved) in *.
  assert (Hloop : forall rem acc cc,
    Loop c f info0 rem acc cc ->
    (forall full, full ∈ rem -> resolves f full) ->
    forEach (fun fullFilename '(acc, counter) =>
        '(result, counter) ←
          DependencyGraph.createDependencyGraph fuel fullFilename counter;
        mret (spread acc result, counter))
      rem (acc, cc) = Done (graph, c') ->
    Loop c f info0 [] graph c').
  { clear H HL Hall. induction rem as [|full0 rem IHrem];
      intros acc cc HL Hall H.
    - by injection H as <- <-.
    - simpl in H. apply bind_Done in H as ([acc1 cc1] & H1 & H2).
      apply bind_Done in H1 as ([r cc2] & Hr & H1). injection H1 as <- <-.
      destruct (IH _ _ _ _ Hr) as (Hok & Hlt & Hreach & ? & ? & ? & ? & Heq).
      apply (IHrem (spread acc r) cc2); [|intros; apply Hall; by right|done].
      eapply Loop_step; try done.
      + lia.
      + rewrite Heq. simpl. rewrite String.eqb_refl. by eexists.
      + apply Hall. by left. }
  specialize (Hloop _ _ _ HL Hall H).
  split; [by eapply Loop_graph_ok|].
  split; [apply (l_counter _ _ _ _ _ _ Hloop)|].
  split; [apply (l_reach _ _ _ _ _ _ Hloop)|].
  destruct (l_head _ _ _ _ _ _ Hloop) as [rest ->].
  by exists content, ast, resolved, rest.
Qed.

End RecursiveGraph.

Section RecursiveTheorems.

Context `{host : Host}.

Lemma createDependencyGraph_keys (fuel : nat) (f : string) (c : nat)
    (graph : jsobject DependencyGraph.info) (c' : nat) :
  DependencyGraph.createDependencyGraph fuel f c = Done (graph, c') ->
  forall k, is_Some (obj_get k graph) <-> rtc resolves f k.
Proof.
  intros H.
  destruct (createDependencyGraph_ok _ _ _ _ _ H)
    as (Hok & _ & Hreach & content & ast & resolved & rest & Hhead).
  intros k. split; [apply Hreach|].
  revert k. apply rtc_ind_r; [|intros x y Hx Hxy IH].
  - rewrite Hhead. simpl. rewrite String.eqb_refl. by eexists.
  - destruct IH as [info Hinfo].
    destruct (ok_info _ _ _ Hok _ _ Hinfo) as [_ Hd].
    destruct Hxy as (content' & ast' & rel & Hread & Hparse & Hin & Hres).
    rewrite (d_content _ _ Hd) in Hread. injection Hread as <-.
    rewrite (d_ast _ _ Hd) in Hparse. injection Hparse as <-.
    apply (ok_closed _ _ _ Hok x info rel y Hinfo).
    by apply (d_deps _ _ Hd).
Qed.

(** X11.  One entry per file.  The graph [createDependencyGraph] returns
    holds an entry for a path exactly when the path is within reach of
    the entry file along resolved dependencies, and it holds one entry
    for it, however many files depend on the path. *)
Theorem createDependencyGraph_files (fuel : nat) (f : string) (c : nat)
    (graph : jsobject DependencyGraph.info) (c' : nat) :
  DependencyGraph.createDependencyGraph fuel f c = Done (graph, c') ->
  NoDup (fst <$> graph) /\
  forall k, is_Some (obj_get k graph) <-> rtc resolves f k.
Proof.
  intros H. split; [|by eapply createDependencyGraph_keys].
  destruct (createDependencyGraph_ok _ _ _ _ _ H) as (Hok & _).
  apply (ok_keys _ _ _ Hok).
Qed.

(** X12.  What an entry holds.  The entry for a path holds the content of
    the file, its tree and, for every specifier of the tree, the path it
    resolves to.  Its id is a value the counter went through during the
    call, no two entries have the same id, and the counter moved by at
    least the number of entries. *)
Theorem createDependencyGraph_entries (fuel : nat) (f : string) (c : nat)
    (graph : jsobject DependencyGraph.info) (c' : nat) :
  DependencyGraph.createDependencyGraph fuel f c = Done (graph, c') ->
  (forall k info, obj_get k graph = Some info ->
     describes k info /\ c <= DependencyGraph.id info < c') /\
  (forall k1 k2 info1 info2,
     obj_get k1 graph = Some info1 -> obj_get k2 graph = Some info2 ->
     DependencyGraph.id info1 = DependencyGraph.id info2 -> k1 = k2) /\
  length graph <= c' - c.
Proof.
  intros H.
  destruct (createDependencyGraph_ok _ _ _ _ _ H) as (Hok & _ & _ & _).
  pose proof (ok_keys _ _ _ Hok) as Hnd.
  split; [|split].
  - intros k info Hk. by destruct (ok_info _ _ _ Hok _ _ Hk).
  - apply (ok_ids _ _ _ Hok).
  - assert (Hids : NoDup ((fun kv => DependencyGraph.id kv.2) <$> graph)).
    { apply NoDup_fmap_2_strong; [|by eapply NoDup_fmap_1].
      intros [k1 i1] [k2 i2] H1 H2 Hid. simpl in Hid.
      apply (obj_get_NoDup _ _ _ Hnd) in H1, H2.
      assert (k1 = k2) as -> by (by eapply (ok_ids _ _ _ Hok)).
      congruence. }
    assert (Hsub : (fun kv => DependencyGraph.id kv.2) <$> graph
                   ⊆+ seq c (c' - c)).
    { apply NoDup_submseteq; [done|]. intros n Hn.
      apply list_elem_of_fmap in Hn as ([k info] & -> & Hin).
      apply (obj_get_NoDup _ _ _ Hnd) in Hin.
      destruct (ok_info _ _ _ Hok _ _ Hin) as [? _].
      apply elem_of_seq. simpl. lia. }
    apply submseteq_length in Hsub.
    by rewrite length_fmap, length_seq in Hsub.
Qed.

(** X13.  The entry file is the first entry of the graph and its id is
    the value the counter had at the call: no later visit replaces it.
    From a counter at 0 the entry file is module 0, the one the bundle
    requires. *)
Theorem createDependencyGraph_entry_first (fuel : nat) (f : string)
    (c : nat) (graph : jsobject DependencyGraph.info) (c' : nat) :
  DependencyGraph.createDependencyGraph fuel f c = Done (graph, c') ->
  exists info rest,
    graph = (f, info) :: rest /\
    obj_get f graph = Some info /\
    DependencyGraph.id info = c /\
    c < c'.
Proof.
  intros H.
  destruct (createDependencyGraph_ok _ _ _ _ _ H)
    as (_ & Hlt & _ & content & ast & resolved & rest & ->).
  eexists _, rest. split; [done|]. simpl. rewrite String.eqb_refl. done.
Qed.

(** X14.  No graph for circular dependencies.  When some file within
    reach of the entry file depends, directly or through other files,
    on itself, [createDependencyGraph] does not return a graph, whatever
    the number of calls allowed. *)
Theorem createDependencyGraph_cycle_never_returns (f x : string) :
  rtc resolves f x ->
  tc resolves x x ->
  forall fuel c r,
    DependencyGraph.createDependencyGraph fuel f c <> Done r.
Proof.
  intros Hfx Hxx fuel c r.
  apply (createDependencyGraph_not_Done
           (fun y => exists x, rtc resolves y x /\ tc resolves x x));
    [|by exists x].
  clear. intros y (x & Hyx & Hxx).
  destruct Hyx as [y|y z x Hyz Hzx].
  - inversion Hxx as [? ? Hstep|? z ? Hstep Hzy]; subst.
    + exists y. split; [done|]. by exists y.
    + exists z. split; [done|]. exists y. split; [by apply tc_rtc|done].
  - exists z. split; [done|]. by exists x.
Qed.

Lemma mapping_of_spec (graph : jsobject DependencyGraph.info)
    (deps : jsobject string) (keys : list string) (acc : object) :
  (forall rel, rel ∈ keys ->
     exists full target,
       obj_get rel deps = Some full /\ obj_get full graph = Some target) ->
  exists m,
    forEach (fun relativeFilename acc =>
        let fullFilename := obj_get relativeFilename deps in
        target ← orThrow TypeError (obj_get (property_key fullFilename) graph);
        mret (obj_set relativeFilename (DependencyGraph.id target) acc))
      keys acc = Done m /\
    forall rel n,
      obj_get rel m = Some n <->
      (rel ∈ keys /\
       exists full target,
         obj_get rel deps = Some full /\ obj_get full graph = Some target /\
         n = DependencyGraph.id target) \/
      ((rel ∉ keys) /\ obj_get rel acc = Some n).
Proof.
  revert acc. induction keys as [|r rs IH]; intros acc Hall.
  - exists acc. split; [done|]. intros rel n. split.
    + intros ?. right. split; [apply not_elem_of_nil|done].
    + intros [[Hin _]|[_ ?]]; [by apply elem_of_nil in Hin|done].
  - destruct (Hall r ltac:(left)) as (full & target & Hfull & Htarget).
    destruct (IH (obj_set r (DependencyGraph.id target) acc)) as (m & Hm & Hget).
    { intros rel Hin. apply Hall. by right. }
    exists m. split.
    { simpl. rewrite Hfull. simpl. rewrite Htarget. simpl. exact Hm. }
    intros rel n. rewrite Hget, elem_of_cons.
    destruct (decide (rel = r)) as [->|Hne].
    + rewrite obj_get_set_eq, Hfull. destruct (decide (r ∈ rs)).
      * intuition auto.
      * split.
        -- intros [[? _]|[_ [= <-]]]; [done|]. left. split; [by left|].
           by exists full, target.
        -- intros [[_ (full' & target' & [= <-] & Ht & ->)]|[Hnot _]].
           ++ right. split; [done|]. congruence.
           ++ destruct Hnot. by left.
    + rewrite obj_get_set_ne by done. intuition auto.
Qed.

(** The mapping of an entry of a graph that is closed under its
    dependencies. *)
Lemma mapping_of_graph_ok (c : nat) (graph : jsobject DependencyGraph.info)
    (c' : nat) (k : string) (info : DependencyGraph.info) :
  graph_ok c graph c' ->
  obj_get k graph = Some info ->
  exists m,
    mapping_of graph info = Done m /\
    forall rel n,
      obj_get rel m = Some n <->
      exists full target,
        obj_get rel (DependencyGraph.dependencies info) = Some full /\
        obj_get full graph = Some target /\
        n = DependencyGraph.id target.
Proof.
  intros Hok Hk.
  destruct (mapping_of_spec graph (DependencyGraph.dependencies info)
              (Object_keys (DependencyGraph.dependencies info)) [])
    as (m & Hm & Hget).
  { intros rel Hin. apply Object_keys_elem in Hin as [full Hfull].
    destruct (ok_closed _ _ _ Hok _ _ _ _ Hk Hfull) as [target Htarget].
    by exists full, target. }
  exists m. split; [exact Hm|]. intros rel n. rewrite Hget. split.
  - intros [[_ ?]|[_ ?]]; done.
  - intros (full & target & Hfull & Htarget & ->). left.
    split; [apply Object_keys_elem; by eexists|]. by exists full, target.
Qed.

(** X15.  The mapping of a module.  For every entry of the graph the
    mapping is built without an error: each dependency of the entry has
    an entry of its own, so no [.id] is read from [undefined].  The
    mapping holds exactly the specifiers of the module, each with the id
    of the entry of the path it resolves to. *)
Theorem mapping_of_complete (fuel : nat) (f : string) (c : nat)
    (graph : jsobject DependencyGraph.info) (c' : nat) (k : string)
    (info : DependencyGraph.info) :
  DependencyGraph.createDependencyGraph fuel f c = Done (graph, c') ->
  obj_get k graph = Some info ->
  exists m,
    mapping_of graph info = Done m /\
    forall rel n,
      obj_get rel m = Some n <->
      exists full target,
        rel ∈ spec_collect (DependencyGraph.ast info) /\
        resolveFrom (path_dirname k) rel = Some full /\
        obj_get full graph = Some target /\
        n = DependencyGraph.id target.
Proof.
  intros H Hk.
  destruct (createDependencyGraph_ok _ _ _ _ _ H) as (Hok & _ & _ & _).
  destruct (ok_info _ _ _ Hok _ _ Hk) as [_ Hd].
  destruct (mapping_of_graph_ok _ _ _ _ _ Hok Hk) as (m & Hm & Hget).
  exists m. split; [exact Hm|]. intros rel n. rewrite Hget. split.
  - intros (full & target & Hfull & Htarget & ->).
    apply (d_deps _ _ Hd) in Hfull as [? ?]. by exists full, target.
  - intros (full & target & Hin & Hres & Htarget & ->).
    exists full, target. split; [|done]. by apply (d_deps _ _ Hd).
Qed.

(** X16.  One module per file.  Two specifiers, of one module or of two,
    are mapped to the same id exactly when they resolve to the same
    path: a file that is reached under two spellings, or from two
    modules, is one module of the bundle. *)
Theorem specifiers_share_module (fuel : nat) (f : string) (c : nat)
    (graph : jsobject DependencyGraph.info) (c' : nat)
    (k1 k2 : string) (info1 info2 : DependencyGraph.info)
    (m1 m2 : object) (rel1 rel2 full1 full2 : string) (n1 n2 : nat) :
  DependencyGraph.createDependencyGraph fuel f c = Done (graph, c') ->
  obj_get k1 graph = Some info1 -> obj_get k2 graph = Some info2 ->
  mapping_of graph info1 = Done m1 -> mapping_of graph info2 = Done m2 ->
  resolveFrom (path_dirname k1) rel1 = Some full1 ->
  resolveFrom (path_dirname k2) rel2 = Some full2 ->
  obj_get rel1 m1 = Some n1 -> obj_get rel2 m2 = Some n2 ->
  n1 = n2 <-> full1 = full2.
Proof.
  intros H Hk1 Hk2 Hm1 Hm2 Hr1 Hr2 Hn1 Hn2.
  destruct (createDependencyGraph_ok _ _ _ _ _ H) as (Hok & _ & _ & _).
  destruct (mapping_of_graph_ok _ _ _ _ _ Hok Hk1) as (m1' & Hm1' & Hg1).
  destruct (mapping_of_graph_ok _ _ _ _ _ Hok Hk2) as (m2' & Hm2' & Hg2).
  assert (m1' = m1) as -> by congruence.
  assert (m2' = m2) as -> by congruence.
  apply Hg1 in Hn1 as (full1' & t1 & Hd1 & Ht1 & ->).
  apply Hg2 in Hn2 as (full2' & t2 & Hd2 & Ht2 & ->).
  destruct (ok_info _ _ _ Hok _ _ Hk1) as [_ Hdesc1].
  destruct (ok_info _ _ _ Hok _ _ Hk2) as [_ Hdesc2].
  apply (d_deps _ _ Hdesc1) in Hd1 as [_ Hr1'].
  apply (d_deps _ _ Hdesc2) in Hd2 as [_ Hr2'].
  assert (full1' = full1) as -> by congruence.
  assert (full2' = full2) as -> by congruence.
  split.
  - by apply (ok_ids _ _ _ Hok _ _ _ _ Ht1 Ht2).
  - intros <-. congruence.
Qed.

End RecursiveTheorems.

(** ** From the graph to the bundle *)

Section PackTheorems.

Context `{host : Host}.
Variable transform_es2015 : node -> string -> option string.










End PackTheorems.

(** ** The bundle of the recursive bundler at run time *)


Section PackRuns.

Context `{host : Host}.
Variable transform_es2015 : node -> string -> option string.
Variable engine : string -> module_function.





End PackRuns.

(** ** The theorems on the examples *)

Lemma cycle_resolves_a :
  resolves (host := example_host cycle) "/app/a.js" "/app/b.js".
Proof.
  exists "import b from './b.js';", (File [ImportDeclaration "./b.js"]),
         "./b.js".
  split; [reflexivity|]. split; [reflexivity|]. split; [reflexivity|].
  split; [left|vm_compute; reflexivity].
Qed.

Lemma cycle_resolves_b :
  resolves (host := example_host cycle) "/app/b.js" "/app/a.js".
Proof.
  exists "import a from './a.js';", (File [ImportDeclaration "./a.js"]),
         "./a.js".
  split; [reflexivity|]. split; [reflexivity|]. split; [reflexivity|].
  split; [left|vm_compute; reflexivity].
Qed.

Lemma createDependencyGraph_files_witness :
  NoDup (fst <$> diamond_dependencies) /\
  forall k, is_Some (obj_get k diamond_dependencies) <->
            rtc (resolves (host := example_host diamond_app))
                "/app/example/entry.js" k.
Proof.
  apply (createDependencyGraph_files (host := example_host diamond_app)
           5 "/app/example/entry.js" 0 diamond_dependencies 5).
  vm_compute. reflexivity.
Defined.

Lemma createDependencyGraph_entries_witness :
  (forall k info, obj_get k diamond_dependencies = Some info ->
     describes (host := example_host diamond_app) k info /\
     0 <= DependencyGraph.id info < 5) /\
  (forall k1 k2 info1 info2,
     obj_get k1 diamond_dependencies = Some info1 ->
     obj_get k2 diamond_dependencies = Some info2 ->
     DependencyGraph.id info1 = DependencyGraph.id info2 -> k1 = k2) /\
  length diamond_dependencies <= 5 - 0.
Proof.
  apply (createDependencyGraph_entries (host := example_host diamond_app)
           5 "/app/example/entry.js" 0 diamond_dependencies 5).
  vm_compute. reflexivity.
Defined.

Lemma createDependencyGraph_entry_first_witness :
  exists info rest,
    aliases_dependencies = ("/app/entry.js", info) :: rest /\
    obj_get "/app/entry.js" aliases_dependencies = Some info /\
    DependencyGraph.id info = 0 /\
    0 < 3.
Proof.
  apply (createDependencyGraph_entry_first (host := example_host aliases)
           5 "/app/entry.js" 0 aliases_dependencies 3).
  vm_compute. reflexivity.
Defined.

Lemma createDependencyGraph_cycle_never_returns_witness :
  tc (resolves (host := example_host cycle)) "/app/a.js" "/app/a.js" /\
  forall fuel c r,
    DependencyGraph.createDependencyGraph (host := example_host cycle)
      fuel "/app/a.js" c <> Done r.
Proof.
  assert (Hcycle : tc (resolves (host := example_host cycle))
                      "/app/a.js" "/app/a.js").
  { eapply tc_l; [exact cycle_resolves_a|].
    apply tc_once. exact cycle_resolves_b. }
  split; [exact Hcycle|].
  apply (createDependencyGraph_cycle_never_returns
           (host := example_host cycle) "/app/a.js" "/app/a.js");
    [apply rtc_refl|exact Hcycle].
Defined.

Lemma mapping_of_complete_witness :
  exists m,
    mapping_of aliases_dependencies aliases_entry = Done m /\
    forall rel n,
      obj_get rel m = Some n <->
      exists full target,
        rel ∈ spec_collect (DependencyGraph.ast aliases_entry) /\
        resolveFrom (Host := example_host aliases)
          (path_dirname (Host := example_host aliases) "/app/entry.js") rel
          = Some full /\
        obj_get full aliases_dependencies = Some target /\
        n = DependencyGraph.id target.
Proof.
  apply (mapping_of_complete (host := example_host aliases)
           5 "/app/entry.js" 0 aliases_dependencies 3 "/app/entry.js"
           aliases_entry).
  - vm_compute. reflexivity.
  - reflexivity.
Defined.

(** The two spellings of [/app/z] get the one id of its entry. *)
Example aliases_mapping :
  mapping_of aliases_dependencies aliases_entry
  = Done [("./z", 2); ("./lib/../z", 2)].
Proof. vm_compute. reflexivity. Qed.

Lemma specifiers_share_module_witness :
  mapping_of aliases_dependencies aliases_entry
    = Done [("./z", 2); ("./lib/../z", 2)] /\
  (2 = 2 <-> "/app/z" = "/app/z").
Proof.
  split; [vm_compute; reflexivity|].
  apply (specifiers_share_module (host := example_host aliases)
           5 "/app/entry.js" 0 aliases_dependencies 3
           "/app/entry.js" "/app/entry.js" aliases_entry aliases_entry
           [("./z", 2); ("./lib/../z", 2)] [("./z", 2); ("./lib/../z", 2)]
           "./z" "./lib/../z" "/app/z" "/app/z" 2 2).
  - vm_compute. reflexivity.
  - reflexivity.
  - reflexivity.
  - vm_compute. reflexivity.
  - vm_compute. reflexivity.
  - vm_compute. reflexivity.
  - vm_compute. reflexivity.
  - reflexivity.
  - reflexivity.
Defined.


(** The bundle of the diamond, as the recursive bundler prints it. *)
Example pack_text :
  pack (host := example_host diamond_app) example_transform_es2015
       5 "/app/example/entry.js" 0
  = Done ("
    (function(modules) {
      function require(id) {
        const [module, mapping] = modules[id];

        function localRequire(name) {
          return require(mapping[name]);
        }

        const localModule = { exports: {} };

        module(localRequire, localModule, localModule.exports);

        return localModule.exports;
      }

      require(0);
    })({
      0: [
        function (require, module, exports) { require('./x');require('./y'); },
        {" +:+ quote +:+ "./x" +:+ quote +:+ ":1," +:+ quote +:+ "./y"
           +:+ quote +:+ ":3}
      ],
      1: [
        function (require, module, exports) { require('./z'); },
        {" +:+ quote +:+ "./z" +:+ quote +:+ ":4}
      ],
      4: [
        function (require, module, exports) {  },
        {}
      ],
      3: [
        function (require, module, exports) { require('./z'); },
        {" +:+ quote +:+ "./z" +:+ quote +:+ ":4}
      ],})
  ", 5).
Proof. vm_compute. reflexivity. Qed.

(** A tree the walker rejects stops both bundlers with a [TypeError]. *)
Example traverse_rejects :
  main (host := rejecting_host broken) 3 "/app/entry.js" 0 = Throw TypeError /\
  pack (host := rejecting_host broken) example_transform_es2015
       3 "/app/entry.js" 0 = Throw TypeError.
Proof. split; vm_compute; reflexivity. Qed.


(** * The extractors and the two bundlers side by side *)

Lemma flat_map_sublist {A B} (f g : A -> list B) (l : list A) :
  (forall x, f x `sublist_of` g x) ->
  flat_map f l `sublist_of` flat_map g l.
Proof.
  intros Hfg. induction l as [|x l IH]; simpl; [done|].
  by apply sublist_app.
Qed.

Lemma flat_map_ext_elem {A B} (f g : A -> list B) (l : list A) :
  (forall x, x ∈ l -> f x = g x) -> flat_map f l = flat_map g l.
Proof.
  induction l as [|x l IH]; intros Hfg; simpl; [done|].
  rewrite (Hfg x) by left. f_equal. apply IH. intros y Hy. apply Hfg.
  by right.
Qed.

Lemma spec_specifier_call (callee : node) (args : list node) :
  spec_specifier (CallExpression callee args)
  = match isRequire callee args with Some value => [value] | None => [] end.
Proof.
  destruct callee as [| |name| |]; try done.
  destruct args as [|[| | |value|] [|? ?]]; try done.
  simpl. by destruct (String.eqb name "require").
Qed.

(** X19.  The two extractors.  What [createAsset] collects from a tree is
    part of what the extractor of [createDependencyGraph] collects from
    it, in the same order; the walk of the one throws when the walk of
    the other does, since they walk the same tree; and on a tree in
    which no call looks like [require('...')] the two collect the
    same. *)
Theorem imports_are_collected `{host : Host} (ast : node) :
  visit_all createAsset_visitor ast []
    `sublist_of` visit_all createDependencyGraph_visitor ast [] /\
  (traverse createAsset_visitor ast []
     = Done (visit_all createAsset_visitor ast []) /\
   traverse createDependencyGraph_visitor ast []
     = Done (visit_all createDependencyGraph_visitor ast []) \/
   traverse createAsset_visitor ast [] = Throw TypeError /\
   traverse createDependencyGraph_visitor ast [] = Throw TypeError) /\
  ((forall callee args,
       CallExpression callee args ∈ entered ast ->
       isRequire callee args = None) ->
   visit_all createAsset_visitor ast []
   = visit_all createDependencyGraph_visitor ast [] /\
   traverse createAsset_visitor ast []
   = traverse createDependencyGraph_visitor ast []).
Proof.
  rewrite (visit_all_pushes _ _ createAsset_visitor_pushes).
  rewrite (visit_all_pushes _ _ createDependencyGraph_visitor_pushes).
  rewrite (traverse_pushes _ _ createAsset_visitor_pushes).
  rewrite (traverse_pushes _ _ createDependencyGraph_visitor_pushes).
  split; [|split].
  - apply flat_map_sublist. intros [source|callee args|name|value|children];
      try done.
    apply sublist_nil_l.
  - destruct (traverse_scope ast); [by left|by right].
  - intros Hcalls.
    assert (Heq : flat_map import_specifier (entered ast)
                  = flat_map spec_specifier (entered ast)).
    { apply flat_map_ext_elem.
      intros [source|callee args|name|value|children] Hin; try done.
      rewrite spec_specifier_call. by rewrite (Hcalls _ _ Hin). }
    by rewrite Heq.
Qed.

Lemma imports_are_collected_witness :
  visit_all createAsset_visitor
    (File [ImportDeclaration "./x"; ImportDeclaration "./y"]) []
  = visit_all createDependencyGraph_visitor
      (File [ImportDeclaration "./x"; ImportDeclaration "./y"]) [] /\
  traverse (host := example_host []) createAsset_visitor
    (File [ImportDeclaration "./x"; ImportDeclaration "./y"]) []
  = traverse (host := example_host []) createDependencyGraph_visitor
      (File [ImportDeclaration "./x"; ImportDeclaration "./y"]) [].
Proof.
  apply (proj2 (proj2 (imports_are_collected (host := example_host [])
                  (File [ImportDeclaration "./x"; ImportDeclaration "./y"])))).
  intros callee args Hin. simpl in Hin.
  repeat (apply elem_of_cons in Hin as [Hin|Hin]; [discriminate|]).
  by apply elem_of_nil in Hin.
Defined.

Section SideBySide.

Context `{host : Host}.

(** X20.  The two bundlers on the same files.  Take an entry for which
    both return.  When every dependency the recursive bundler has
    recorded for a file of its graph is the path [path.join] gives for
    the specifier (as it is for an entry given by its absolute path
    whose specifiers name the files as they are), and no file of the
    graph holds a call that looks like [require('...')], the files of
    the assets of [createGraph] are the files of the entries of
    [createDependencyGraph]; the graph of [createGraph] has at least as
    many assets as the other has entries. *)
Theorem bundlers_agree_on_files (fuel1 fuel2 : nat) (entry : string)
    (ID c : nat) (graph : list asset) (ID' : nat)
    (graph' : jsobject DependencyGraph.info) (c' : nat) :
  createGraph fuel1 entry ID = Done (graph, ID') ->
  DependencyGraph.createDependencyGraph fuel2 entry c = Done (graph', c') ->
  (forall file info rel full,
      obj_get file graph' = Some info ->
      obj_get rel (DependencyGraph.dependencies info) = Some full ->
      full = path_join (path_dirname file) rel) ->
  (forall file info,
      obj_get file graph' = Some info ->
      spec_collect (DependencyGraph.ast info)
      = flat_map import_specifier (entered (DependencyGraph.ast info))) ->
  (forall path,
      (exists a, a ∈ graph /\ filename a = path) <->
      is_Some (obj_get path graph')) /\
  length graph' <= length graph.
Proof.
  intros H1 H2 Hjoin Hnoreq. apply createGraph_Done in H1 as HI.
  pose proof (createDependencyGraph_keys _ _ _ _ _ H2) as Hkeys.
  destruct (createDependencyGraph_ok _ _ _ _ _ H2) as (Hok & _).
  assert (HA : forall path, reach entry path -> rtc resolves entry path).
  { induction 1 as [|file deps code d _ IH Hex Hd]; [done|].
    apply Hkeys in IH as Hfile. destruct Hfile as [info Hinfo].
    destruct (ok_info _ _ _ Hok _ _ Hinfo) as [_ Hdesc].
    apply extract_Done in Hex as (content & ast & Hread & Hparse & _ & _ & ->).
    rewrite (d_content _ _ Hdesc) in Hread. injection Hread as <-.
    rewrite (d_ast _ _ Hdesc) in Hparse. injection Hparse as <-.
    rewrite <- (Hnoreq _ _ Hinfo) in Hd.
    destruct (d_total _ _ Hdesc _ Hd) as [full Hfull].
    rewrite <- (Hjoin _ _ _ _ Hinfo Hfull).
    apply (d_deps _ _ Hdesc) in Hfull as [_ Hres].
    eapply rtc_r; [exact IH|].
    exists (DependencyGraph.content info), (DependencyGraph.ast info), d.
    split; [apply (d_content _ _ Hdesc)|].
    split; [apply (d_ast _ _ Hdesc)|].
    split; [apply (d_scope _ _ Hdesc)|done]. }
  assert (HB : forall path, rtc resolves entry path -> reach entry path).
  { apply rtc_ind_r; [apply reach_entry|].
    intros x y Hx (content & ast & rel & Hread & Hparse & Hscope & Hin & Hres)
           IH.
    apply Hkeys in Hx as [info Hinfo].
    destruct (ok_info _ _ _ Hok _ _ Hinfo) as [_ Hdesc].
    rewrite (d_content _ _ Hdesc) in Hread. injection Hread as <-.
    rewrite (d_ast _ _ Hdesc) in Hparse. injection Hparse as <-.
    assert (Hfull : obj_get rel (DependencyGraph.dependencies info) = Some y)
      by (by apply (d_deps _ _ Hdesc)).
    destruct (reach_in_graph _ _ _ _ _ HI IH) as (a & Ha & Hname).
    apply list_elem_of_lookup_1 in Ha as [j Hj].
    destruct (inv_asset _ _ _ _ HI _ _ Hj) as [_ Hex]. simpl in Hex.
    rewrite Hname in Hex. rewrite (Hjoin _ _ _ _ Hinfo Hfull).
    eapply reach_import; [exact IH|exact Hex|].
    apply extract_Done in Hex
      as (content' & ast' & Hread' & Hparse' & _ & _ & ->).
    rewrite (d_content _ _ Hdesc) in Hread'. injection Hread' as <-.
    rewrite (d_ast _ _ Hdesc) in Hparse'. injection Hparse' as <-.
    by rewrite <- (Hnoreq _ _ Hinfo). }
  assert (Hfiles : forall path,
            (exists a, a ∈ graph /\ filename a = path) <->
            is_Some (obj_get path graph')).
  { intros path. rewrite Hkeys. split.
    - intros (a & Ha & <-). apply HA.
      apply list_elem_of_lookup_1 in Ha as [j Hj].
      apply (inv_reach _ _ _ _ HI _ _ Hj).
    - intros Hp. apply (reach_in_graph _ _ _ _ _ HI). by apply HB. }
  split; [exact Hfiles|].
  assert (Hsub : graph'.*1 ⊆+ filename <$> graph).
  { apply NoDup_submseteq; [apply (ok_keys _ _ _ Hok)|].
    intros k Hk. apply obj_get_is_Some in Hk. apply Hfiles in Hk as (a & Ha & <-).
    by apply list_elem_of_fmap_2. }
  apply submseteq_length in Hsub. by rewrite !length_fmap in Hsub.
Qed.

End SideBySide.

(** The graph of [createGraph] for the diamond under absolute paths. *)
Example diamond_app_createGraph :
  createGraph (host := example_host diamond_app) 6 "/app/example/entry.js" 0
  = Done (diamond_app_graph, 5).
Proof. vm_compute. reflexivity. Qed.

Lemma bundlers_agree_on_files_witness :
  (forall path,
      (exists a, a ∈ diamond_app_graph /\ filename a = path) <->
      is_Some (obj_get path diamond_dependencies)) /\
  length diamond_dependencies <= length diamond_app_graph.
Proof.
  apply (bundlers_agree_on_files (host := example_host diamond_app)
           6 5 "/app/example/entry.js" 0 0 diamond_app_graph 5
           diamond_dependencies 5).
  - vm_compute. reflexivity.
  - vm_compute. reflexivity.
  - intros file info rel full Hinfo Hfull.
    apply obj_get_Some_elem in Hinfo. unfold diamond_dependencies in Hinfo.
    repeat (apply elem_of_cons in Hinfo as [[= -> ->]|Hinfo];
            [apply obj_get_Some_elem in Hfull; simpl in Hfull;
             repeat (apply elem_of_cons in Hfull as [[= -> ->]|Hfull];
                     [vm_compute; reflexivity|]);
             by apply elem_of_nil in Hfull|]).
    by apply elem_of_nil in Hinfo.
  - intros file info Hinfo.
    apply obj_get_Some_elem in Hinfo. unfold diamond_dependencies in Hinfo.
    repeat (apply elem_of_cons in Hinfo as [[= -> ->]|Hinfo];
            [vm_compute; reflexivity|]).
    by apply elem_of_nil in Hinfo.
Defined.
